(** * react-todo-master: the todo store and the due-date countdown

    A shallow embedding of the [useTodos] hook (load and save effects,
    [addTodo], [toggleTodo], [deleteTodo], [reorderTodos]; in the source
    tree under [src/types/index.ts], lines 153-242), of the time
    utilities [calculateTimeRemaining] and [formatTimeRemaining]
    ([src/App.tsx], lines 305-354) and of the submit handler of
    [src/components/TodoInput.tsx], together with the parts of the
    ECMAScript library those functions call: [String.prototype.trim],
    [Array.prototype.splice], the [Date] arithmetic of ECMA-262 section
    21.4.1, [JSON.stringify] and [JSON.parse].

    Around them, the callers and the helpers of these functions: the
    badge of [Timer] and the search filter of [App] ([src/App.tsx]),
    the drag end and the footer of [src/components/TodoList.tsx], the
    category options of [src/components/TodoInput.tsx] and the labels
    of [src/constants/categories.ts].

    Modelling conventions.
    - A JavaScript string is the list of its UTF-16 code units.
    - A JavaScript number is [NaN] or an integer: every number the
      modelled code computes is integral (time values, minute counts,
      indices) or [NaN].  [Int z] stands for the double of value [z],
      which is exact for [|z| < 2^53].
    - [new Date()], [generateId()], the time zone and the behaviour of
      built-ins that ECMA-262 leaves to the implementation are inputs of
      the functions that consult them.
    - React runs the effects of a commit once, in source order, and a
      [setTodos] call with a new array commits a new render. *)

From Stdlib Require Import ZArith NArith String Ascii Bool Lia.
From Stdlib Require Import List Permutation.
From Stdlib Require Import DecimalString.
Import ListNotations.
Open Scope Z_scope.

Set Warnings "-register-all".

(* ================================================================== *)
(** ** Strings *)

Definition jsstring := list N.

(** The code units of a string literal of the source. *)
Definition lit (s : string) : jsstring :=
  map N_of_ascii (list_ascii_of_string s).

(** A text with double quotes, written with an apostrophe for each. *)
Definition quoted_lit (s : string) : jsstring :=
  map (fun c => if (c =? 39)%N then 34%N else c) (lit s).

Fixpoint str_eqb (a b : jsstring) : bool :=
  match a, b with
  | [], [] => true
  | x :: a', y :: b' => N.eqb x y && str_eqb a' b'
  | _, _ => false
  end.

(** [ToBoolean] of a string: only the empty string is falsy. *)
Definition truthy_str (s : jsstring) : bool :=
  match s with [] => false | _ :: _ => true end.

(** ECMA-262 WhiteSpace and LineTerminator code points, the characters
    [String.prototype.trim] strips. *)
Definition is_white_space (c : N) : bool :=
  ((c =? 9) || (c =? 10) || (c =? 11) || (c =? 12) || (c =? 13) ||
   (c =? 32) || (c =? 160) || (c =? 5760) ||
   ((8192 <=? c) && (c <=? 8202)) ||
   (c =? 8232) || (c =? 8233) || (c =? 8239) || (c =? 8287) ||
   (c =? 12288) || (c =? 65279))%N.

Fixpoint trim_start (s : jsstring) : jsstring :=
  match s with
  | c :: s' => if is_white_space c then trim_start s' else s
  | [] => []
  end.

Definition trim_end (s : jsstring) : jsstring := rev (trim_start (rev s)).

(** [s.trim()] *)
Definition trim (s : jsstring) : jsstring := trim_end (trim_start s).

(* ================================================================== *)
(** ** Numbers *)

Inductive number := NaN | Int (z : Z).

(** [a - b] *)
Definition num_sub (a b : number) : number :=
  match a, b with Int x, Int y => Int (x - y) | _, _ => NaN end.

(** [a < b]; every comparison with [NaN] is false. *)
Definition num_ltb (a b : number) : bool :=
  match a, b with Int x, Int y => x <? y | _, _ => false end.

(** [a > b] *)
Definition num_gtb (a b : number) : bool := num_ltb b a.

(** [Math.abs(a)] *)
Definition Math_abs (a : number) : number :=
  match a with Int x => Int (Z.abs x) | NaN => NaN end.

(** [Math.floor(a / b)] for a non-zero integer constant [b]: the floor of
    the real quotient. *)
Definition Math_floor_div (a : number) (b : Z) : number :=
  match a with Int x => Int (x / b) | NaN => NaN end.

(** [a % b] for a non-zero integer constant [b]: the remainder takes the
    sign of the dividend. *)
Definition num_rem (a : number) (b : Z) : number :=
  match a with Int x => Int (Z.rem x b) | NaN => NaN end.

(** [Number::toString] in radix 10 (the conversion a template literal
    applies to an interpolated number). *)
Definition Number_toString (a : number) : jsstring :=
  match a with
  | NaN => lit "NaN"
  | Int z => lit (NilZero.string_of_int (Z.to_int z))
  end.

(* ================================================================== *)
(** ** JSON values and the host *)

(** The values [JSON.parse] builds.  A number is kept as its lexeme: no
    well-formed todo record contains one, and the model never computes
    with it. *)
Inductive json :=
| JNull
| JBool (b : bool)
| JNum (lexeme : jsstring)
| JStr (s : jsstring)
| JArr (items : list json)
| JObj (props : list (jsstring * json)).

(** What the embedding takes from the JavaScript host rather than from
    the repository: the time zone, and the behaviour of built-ins on the
    inputs where ECMA-262 leaves it to the implementation or where it
    depends on floating point.
    - [LocalTZA t true] is the offset of local time from UTC at the UTC
      instant [t]; [LocalTZA t false] the offset that applies to the
      local time [t].
    - [Date_parse_other s] is [Date.parse(s)] for a string that is not in
      the format [Date.prototype.toISOString] produces.
    - [Date_construct_other v] is the time value of [new Date(v)] for a
      number, array or object [v] ([None]: the conversion throws).
    - [Number_truthy l] is [ToBoolean] of the number with lexeme [l].
    - [Number_print l] is [JSON.stringify] of the number with lexeme [l]. *)
Record Host := mkHost {
  LocalTZA : Z -> bool -> Z;
  Date_parse_other : jsstring -> number;
  Date_construct_other : json -> option number;
  Number_truthy : jsstring -> bool;
  Number_print : jsstring -> jsstring
}.

(* ================================================================== *)
(** ** Dates (ECMA-262, 21.4.1) *)

(** A [Date] object wraps a time value: milliseconds since the epoch, or
    [NaN] for an invalid date. *)
Record Date := mkDate { getTime : number }.

Definition InvalidDate : Date := mkDate NaN.

Definition msPerDay : Z := 86400000.

Definition Day (t : Z) : Z := t / msPerDay.
Definition TimeWithinDay (t : Z) : Z := t mod msPerDay.

Definition MakeTime (hour min sec ms : Z) : Z :=
  hour * 3600000 + min * 60000 + sec * 1000 + ms.

Definition MakeDate (day time : Z) : Z := day * msPerDay + time.

Definition TimeClip (t : Z) : number :=
  if 8640000000000000 <? Z.abs t then NaN else Int t.

(** *** Calendar arithmetic (21.4.1.3 - 21.4.1.13) *)

Definition DayFromYear (y : Z) : Z :=
  365 * (y - 1970) + (y - 1969) / 4 - (y - 1901) / 100 + (y - 1601) / 400.

Definition TimeFromYear (y : Z) : Z := msPerDay * DayFromYear y.

Definition DaysInYear (y : Z) : Z := DayFromYear (y + 1) - DayFromYear y.

(** The year a day number falls in: the largest [y] with
    [DayFromYear y <= d] (lemma [YearFromDay_spec]).  The mean Gregorian
    year has 146097/400 days, so the estimate is off by at most one. *)
Definition YearFromDay (d : Z) : Z :=
  let y := 1970 + (400 * d) / 146097 in
  if d <? DayFromYear y then y - 1
  else if DayFromYear (y + 1) <=? d then y + 1
  else y.

Definition YearFromTime (t : Z) : Z := YearFromDay (Day t).

Definition DayWithinYear (t : Z) : Z := Day t - DayFromYear (YearFromTime t).

(** 1 in a leap year, 0 otherwise. *)
Definition InLeapYear (t : Z) : Z := DaysInYear (YearFromTime t) - 365.

(** Number of days of the year before month [m] (0 = January), given the
    leap-year indicator. *)
Definition DaysBeforeMonth (m leap : Z) : Z :=
  match m with
  | 0 => 0
  | 1 => 31
  | 2 => 59 + leap
  | 3 => 90 + leap
  | 4 => 120 + leap
  | 5 => 151 + leap
  | 6 => 181 + leap
  | 7 => 212 + leap
  | 8 => 243 + leap
  | 9 => 273 + leap
  | 10 => 304 + leap
  | 11 => 334 + leap
  | _ => 365 + leap
  end.

Definition MonthFromTime (t : Z) : Z :=
  let d := DayWithinYear t in
  let leap := InLeapYear t in
  if d <? 31 then 0
  else if d <? 59 + leap then 1
  else if d <? 90 + leap then 2
  else if d <? 120 + leap then 3
  else if d <? 151 + leap then 4
  else if d <? 181 + leap then 5
  else if d <? 212 + leap then 6
  else if d <? 243 + leap then 7
  else if d <? 273 + leap then 8
  else if d <? 304 + leap then 9
  else if d <? 334 + leap then 10
  else 11.

Definition DateFromTime (t : Z) : Z :=
  DayWithinYear t - DaysBeforeMonth (MonthFromTime t) (InLeapYear t) + 1.

Definition HourFromTime (t : Z) : Z := (t / 3600000) mod 24.
Definition MinFromTime (t : Z) : Z := (t / 60000) mod 60.
Definition SecFromTime (t : Z) : Z := (t / 1000) mod 60.
Definition msFromTime (t : Z) : Z := t mod 1000.

(** [MakeDay(year, month, date)] on integers: the day number of the first
    of the month, plus [date - 1]. *)
Definition MakeDay (year month date : Z) : Z :=
  let ym := year + month / 12 in
  let mn := month mod 12 in
  DayFromYear ym + DaysBeforeMonth mn (DaysInYear ym - 365) + date - 1.

(** *** [Date.prototype.toISOString] and [Date.prototype.toJSON] *)

Definition digit_char (d : Z) : N := Z.to_N (48 + d).

(** The last [width] decimal digits of [n], most significant first. *)
Fixpoint pad_digits (width : nat) (n : Z) : jsstring :=
  match width with
  | O => []
  | S w => pad_digits w (n / 10) ++ [digit_char (n mod 10)]
  end.

(** Four digits for the years 0 to 9999, otherwise a sign and six digits. *)
Definition iso_year (y : Z) : jsstring :=
  if (0 <=? y) && (y <=? 9999) then pad_digits 4 y
  else (if y <? 0 then lit "-" else lit "+") ++ pad_digits 6 (Z.abs y).

(** [YYYY-MM-DDTHH:mm:ss.sssZ] for the time value [t]. *)
Definition toISOString (t : Z) : jsstring :=
  iso_year (YearFromTime t) ++ lit "-" ++
  pad_digits 2 (MonthFromTime t + 1) ++ lit "-" ++
  pad_digits 2 (DateFromTime t) ++ lit "T" ++
  pad_digits 2 (HourFromTime t) ++ lit ":" ++
  pad_digits 2 (MinFromTime t) ++ lit ":" ++
  pad_digits 2 (SecFromTime t) ++ lit "." ++
  pad_digits 3 (msFromTime t) ++ lit "Z".

(** [d.toJSON()]: [None] stands for [null], the result for an invalid
    date. *)
Definition Date_toJSON (d : Date) : option jsstring :=
  match getTime d with
  | NaN => None
  | Int t => Some (toISOString t)
  end.

(** *** [Date.parse] on the [toISOString] format *)

Definition is_digit (c : N) : bool := ((48 <=? c) && (c <=? 57))%N.

(** Reads exactly [n] decimal digits. *)
Fixpoint read_digits (n : nat) (acc : Z) (s : jsstring) : option (Z * jsstring) :=
  match n with
  | O => Some (acc, s)
  | S n' =>
      match s with
      | c :: s' =>
          if is_digit c then read_digits n' (10 * acc + (Z.of_N c - 48)) s'
          else None
      | [] => None
      end
  end.

Definition read_char (c : N) (s : jsstring) : option jsstring :=
  match s with
  | x :: s' => if (x =? c)%N then Some s' else None
  | [] => None
  end.

(** The year: four digits, or a sign and six digits ([-000000] is not a
    year). *)
Definition read_year (s : jsstring) : option (Z * jsstring) :=
  match s with
  | c :: s' =>
      if (c =? 43)%N then read_digits 6 0 s'
      else if (c =? 45)%N then
        match read_digits 6 0 s' with
        | Some (y, r) => if y =? 0 then None else Some (- y, r)
        | None => None
        end
      else read_digits 4 0 s
  | [] => None
  end.

Record iso_fields := mkIso {
  iso_y : Z; iso_mo : Z; iso_d : Z; iso_h : Z; iso_mi : Z; iso_s : Z; iso_ms : Z
}.

Notation "'let?' x ':=' a 'in' b" :=
  (match a with Some x => b | None => None end)
  (at level 10, x pattern, a at level 100, b at level 200).

Definition read_iso (s : jsstring) : option iso_fields :=
  let? (y, s) := read_year s in
  let? s := read_char 45 s in
  let? (mo, s) := read_digits 2 0 s in
  let? s := read_char 45 s in
  let? (d, s) := read_digits 2 0 s in
  let? s := read_char 84 s in
  let? (h, s) := read_digits 2 0 s in
  let? s := read_char 58 s in
  let? (mi, s) := read_digits 2 0 s in
  let? s := read_char 58 s in
  let? (sec, s) := read_digits 2 0 s in
  let? s := read_char 46 s in
  let? (ms, s) := read_digits 3 0 s in
  let? s := read_char 90 s in
  match s with
  | [] => Some (mkIso y mo d h mi sec ms)
  | _ :: _ => None
  end.

Definition DaysInMonth (y m : Z) : Z :=
  let leap := DaysInYear y - 365 in
  DaysBeforeMonth (m + 1) leap - DaysBeforeMonth m leap.

(** The field values every implementation accepts. *)
Definition iso_legal (f : iso_fields) : bool :=
  (1 <=? iso_mo f) && (iso_mo f <=? 12) &&
  (1 <=? iso_d f) && (iso_d f <=? DaysInMonth (iso_y f) (iso_mo f - 1)) &&
  (iso_h f <=? 23) && (iso_mi f <=? 59) && (iso_s f <=? 59).

Definition iso_time (f : iso_fields) : Z :=
  MakeDate (MakeDay (iso_y f) (iso_mo f - 1) (iso_d f))
           (MakeTime (iso_h f) (iso_mi f) (iso_s f) (iso_ms f)).

Section LocalTime.

Variable host : Host.

(** [Date.parse(s)] *)
Definition Date_parse (s : jsstring) : number :=
  match read_iso s with
  | Some f => if iso_legal f then TimeClip (iso_time f) else Date_parse_other host s
  | None => Date_parse_other host s
  end.

Definition LocalTime (t : Z) : Z := t + LocalTZA host t true.
Definition UTC (t : Z) : Z := t - LocalTZA host t false.

(** [d.setHours(hour, min, sec, ms)] as a function of the date. *)
Definition setHours (d : Date) (hour min sec ms : Z) : Date :=
  match getTime d with
  | NaN => InvalidDate
  | Int tv =>
      let t := LocalTime tv in
      let date := MakeDate (Day t) (MakeTime hour min sec ms) in
      mkDate (TimeClip (UTC date))
  end.

(* ================================================================== *)
(** ** The time utilities ([src/App.tsx], lines 293-354) *)

Record TimeRemaining := mkTimeRemaining {
  days : number;
  hours : number;
  minutes : number;
  isOverdue : bool;
  totalMinutes : number
}.

(** [calculateTimeRemaining(dueDate)]; [now] is the value of [new Date()]
    the call reads. *)
Definition calculateTimeRemaining (now : Z) (dueDate : Date) : TimeRemaining :=
  let dueDateEndOfDay := setHours (mkDate (getTime dueDate)) 23 59 59 999 in
  let diffMs := num_sub (getTime dueDateEndOfDay) (Int now) in
  let isOverdue := num_ltb diffMs (Int 0) in
  let absDiffMs := Math_abs diffMs in
  let totalMinutes := Math_floor_div absDiffMs (1000 * 60) in
  let days := Math_floor_div totalMinutes (24 * 60) in
  let hours := Math_floor_div (num_rem totalMinutes (24 * 60)) 60 in
  let minutes := num_rem totalMinutes 60 in
  {| days := days; hours := hours; minutes := minutes;
     isOverdue := isOverdue; totalMinutes := totalMinutes |}.

End LocalTime.

Definition formatTimeRemaining (timeRemaining : TimeRemaining) : jsstring :=
  let days := days timeRemaining in
  let hours := hours timeRemaining in
  let minutes := minutes timeRemaining in
  if isOverdue timeRemaining then
    if num_gtb days (Int 0) then
      Number_toString days ++ lit "d overdue"
    else if num_gtb hours (Int 0) then
      Number_toString hours ++ lit "h " ++ Number_toString minutes ++ lit "m overdue"
    else
      Number_toString minutes ++ lit "m overdue"
  else
    if num_gtb days (Int 0) then
      Number_toString days ++ lit "d " ++ Number_toString hours ++ lit "h remaining"
    else if num_gtb hours (Int 0) then
      Number_toString hours ++ lit "h " ++ Number_toString minutes ++ lit "m remaining"
    else
      Number_toString minutes ++ lit "m remaining".

(** The reading of the specification's sentence on [format]: the three
    tiers of the overdue branch, with the suffix replaced by "remaining"
    when the item is not overdue. *)
Definition format_mirrored_tiers (timeRemaining : TimeRemaining) : jsstring :=
  let suffix := if isOverdue timeRemaining then lit "overdue" else lit "remaining" in
  let days := days timeRemaining in
  let hours := hours timeRemaining in
  let minutes := minutes timeRemaining in
  if num_gtb days (Int 0) then
    Number_toString days ++ lit "d " ++ suffix
  else if num_gtb hours (Int 0) then
    Number_toString hours ++ lit "h " ++ Number_toString minutes ++ lit "m " ++ suffix
  else
    Number_toString minutes ++ lit "m " ++ suffix.


(* ================================================================== *)
(** ** The todo record ([src/types/index.ts], lines 1-8) *)

Record Todo := mkTodo {
  id : jsstring;
  text : jsstring;
  completed : bool;
  createdAt : Date;
  dueDate : option Date;
  category : option jsstring
}.

(* ================================================================== *)
(** ** [useTodos]: the state updaters ([src/types/index.ts], lines 195-231)

    Each operation calls [setTodos] with an updater [prev => ...]; the
    definitions below are those updaters, on arrays of the type
    [Todo[]] the source declares. *)

(** [addTodo(text, dueDate, category)]: [newId] is the value
    [generateId()] returns and [now] the time value of [new Date()]. *)
Definition addTodo (newId : jsstring) (now : Z)
    (text : jsstring) (dueDate : option Date) (category : option jsstring)
    (prev : list Todo) : list Todo :=
  let newTodo :=
    {| id := newId;
       text := text;
       completed := false;
       createdAt := mkDate (Int now);
       dueDate := dueDate;
       category := category |} in
  newTodo :: prev.

(** [toggleTodo(id)] *)
Definition toggleTodo (id' : jsstring) (prev : list Todo) : list Todo :=
  map (fun todo =>
         if str_eqb (id todo) id'
         then {| id := id todo;
                 text := text todo;
                 completed := negb (completed todo);
                 createdAt := createdAt todo;
                 dueDate := dueDate todo;
                 category := category todo |}
         else todo)
      prev.

(** [deleteTodo(id)] *)
Definition deleteTodo (id' : jsstring) (prev : list Todo) : list Todo :=
  filter (fun todo => negb (str_eqb (id todo) id')) prev.

(** [arr.splice(start, deleteCount, ...items)] for integral arguments:
    the new contents of the array and the array of removed elements.  A
    negative [start] counts from the end; both arguments are clamped to
    the array. *)
Definition splice {A : Type} (start deleteCount : Z) (items arr : list A)
    : list A * list A :=
  let len := Z.of_nat (length arr) in
  let actualStart :=
    if start <? 0 then Z.max (len + start) 0 else Z.min start len in
  let actualDeleteCount := Z.min (Z.max deleteCount 0) (len - actualStart) in
  let k := Z.to_nat actualStart in
  let n := Z.to_nat actualDeleteCount in
  (firstn k arr ++ items ++ skipn (k + n) arr, firstn n (skipn k arr)).

(** [reorderTodos(startIndex, endIndex)].  An element of the result is
    [Some todo] or [None] for [undefined]: the destructuring
    [const [removed] = ...] yields [undefined] when nothing was removed,
    and the second [splice] inserts it all the same. *)
Definition reorderTodos (startIndex endIndex : Z) (prev : list Todo)
    : list (option Todo) :=
  let result := map Some prev in
  let '(result, removedItems) := splice startIndex 1 [] result in
  let removed := match removedItems with x :: _ => x | [] => None end in
  let '(result, _) := splice endIndex 0 [removed] result in
  result.

(** [completedCount] and [totalCount] *)
Definition completedCount (todos : list Todo) : nat :=
  length (filter (fun todo => completed todo) todos).

Definition totalCount (todos : list Todo) : nat := length todos.

(** The same two lines (230-231) on the array the state holds at run
    time, an entry of which may be [undefined]: the callback
    [todo => todo.completed] reads a property of each entry in turn, and
    on [undefined] that is a [TypeError], which ends the render; [None]
    stands for it. *)
Fixpoint filter_completed (todos : list (option Todo))
    : option (list (option Todo)) :=
  match todos with
  | [] => Some []
  | None :: _ => None
  | Some todo :: todos' =>
      match filter_completed todos' with
      | Some kept => Some (if completed todo then Some todo :: kept else kept)
      | None => None
      end
  end.

Definition render_counts (todos : list (option Todo)) : option (nat * nat) :=
  match filter_completed todos with
  | Some kept =>
      let completedCount := length kept in
      let totalCount := length todos in
      Some (completedCount, totalCount)
  | None => None
  end.

(** *** Vocabulary of the statements about the updaters *)

(** The records of an array that may contain [undefined]. *)
Fixpoint records {A : Type} (l : list (option A)) : list A :=
  match l with
  | [] => []
  | Some x :: l' => x :: records l'
  | None :: l' => records l'
  end.

(** [sublist l1 l2]: [l1] is [l2] with some elements left out, the
    others in their order. *)
Inductive sublist {A : Type} : list A -> list A -> Prop :=
| sublist_nil : sublist [] []
| sublist_keep x l1 l2 : sublist l1 l2 -> sublist (x :: l1) (x :: l2)
| sublist_drop x l1 l2 : sublist l1 l2 -> sublist l1 (x :: l2).

(** The position [splice] turns a start index into. *)
Definition clamp_index (len : nat) (i : Z) : nat :=
  Z.to_nat (if i <? 0 then Z.max (Z.of_nat len + i) 0 else Z.min i (Z.of_nat len)).

(* ================================================================== *)
(** ** The submit handler ([src/components/TodoInput.tsx], lines 56-80) *)

(** [s.split(sep)] for a one-character separator. *)
Fixpoint split_on (sep : N) (s : jsstring) : list jsstring :=
  match s with
  | [] => [[]]
  | c :: s' =>
      if (c =? sep)%N then [] :: split_on sep s'
      else match split_on sep s' with
           | piece :: pieces => (c :: piece) :: pieces
           | [] => [[c]]
           end
  end.

Fixpoint digits_value (acc : Z) (s : jsstring) : Z :=
  match s with
  | c :: s' => if is_digit c then digits_value (10 * acc + (Z.of_N c - 48)) s' else acc
  | [] => acc
  end.

(** [parseInt(s, 10)]: leading white space is skipped, then an optional
    sign and the longest run of decimal digits are read; [NaN] when there
    is no digit. *)
Definition parseInt10 (s : jsstring) : number :=
  let s := trim_start s in
  let '(sign, s) :=
    match s with
    | 45%N :: r => (-1, r)
    | 43%N :: r => (1, r)
    | _ => (1, s)
    end in
  match s with
  | c :: _ => if is_digit c then Int (sign * digits_value 0 s) else NaN
  | [] => NaN
  end.

Section TodoInput.

Variable host : Host.

(** [new Date(year, month, day)]: local midnight of the given day; a year
    from 0 to 99 means 1900 + year. *)
Definition Date_ymd (year month day : number) : Date :=
  match year, month, day with
  | Int y, Int m, Int dt =>
      let yr := if (0 <=? y) && (y <=? 99) then 1900 + y else y in
      let finalDate := MakeDate (MakeDay yr m dt) (MakeTime 0 0 0 0) in
      mkDate (TimeClip (UTC host finalDate))
  | _, _, _ => InvalidDate
  end.

(** The three [useState] cells of the form. *)
Record FormState := mkForm {
  form_text : jsstring;
  form_dueDate : jsstring;
  form_category : jsstring
}.

(** [handleSubmit(e)]: the new form state and the effect of the [onAdd]
    call, if any, on the state [st] the callback acts on.  An array
    element missing from the destructuring [[year, month, day]] is
    [undefined], which both [month - 1] and the [Date] constructor turn
    into [NaN]. *)
Definition handleSubmit {St : Type}
    (onAdd : jsstring -> option Date -> option jsstring -> St -> St)
    (form : FormState) (st : St) : FormState * St :=
  let trimmedText := trim (form_text form) in
  if truthy_str trimmedText then
    let parsedDueDate :=
      if truthy_str (form_dueDate form) then
        let parts := map parseInt10 (split_on 45 (form_dueDate form)) in
        let year := nth 0 parts NaN in
        let month := nth 1 parts NaN in
        let day := nth 2 parts NaN in
        Some (Date_ymd year (num_sub month (Int 1)) day)
      else None in
    let trimmedCategory :=
      let c := trim (form_category form) in
      if truthy_str c then Some c else None in
    (mkForm [] [] [], onAdd trimmedText parsedDueDate trimmedCategory st)
  else (form, st).

End TodoInput.

(* ================================================================== *)
(** ** JSON text (ECMA-262, 25.5) *)

(** *** [JSON.stringify] *)

Definition hex_char (d : N) : N := (if d <? 10 then 48 + d else 87 + d)%N.

(** The escape [\uXXXX] of a code unit, in lower-case hexadecimal. *)
Definition escape_u (c : N) : jsstring :=
  [92; 117; hex_char ((c / 4096) mod 16); hex_char ((c / 256) mod 16);
   hex_char ((c / 16) mod 16); hex_char (c mod 16)]%N.

Definition is_high_surrogate (c : N) : bool := ((55296 <=? c) && (c <=? 56319))%N.
Definition is_low_surrogate (c : N) : bool := ((56320 <=? c) && (c <=? 57343))%N.

(** A code unit that is not part of a surrogate pair. *)
Definition quote_unit (c : N) : jsstring :=
  (if c =? 8 then [92; 98]
   else if c =? 9 then [92; 116]
   else if c =? 10 then [92; 110]
   else if c =? 12 then [92; 102]
   else if c =? 13 then [92; 114]
   else if c =? 34 then [92; 34]
   else if c =? 92 then [92; 92]
   else if c <? 32 then escape_u c
   else if is_high_surrogate c || is_low_surrogate c then escape_u c
   else [c])%N.

Fixpoint quote_body (s : jsstring) : jsstring :=
  match s with
  | [] => []
  | c :: s' =>
      if is_high_surrogate c then
        match s' with
        | d :: s'' =>
            if is_low_surrogate d then c :: d :: quote_body s''
            else quote_unit c ++ quote_body s'
        | [] => quote_unit c
        end
      else quote_unit c ++ quote_body s'
  end.

(** [QuoteJSONString] *)
Definition quote (s : jsstring) : jsstring := [34%N] ++ quote_body s ++ [34%N].

Fixpoint join_comma (parts : list jsstring) : jsstring :=
  match parts with
  | [] => []
  | [x] => x
  | x :: rest => x ++ [44%N] ++ join_comma rest
  end.

(** A property value of an object of the todo array: a value that came
    out of [JSON.parse], a [Date], or [undefined]. *)
Inductive value :=
| VUndefined
| VJson (j : json)
| VDate (d : Date).

(** An object: its own enumerable properties, in property order. *)
Definition object := list (jsstring * value).

Section Stringify.

Variable host : Host.

(** A member of an object: the quoted key, a colon, the printed value. *)
Definition print_member (print : json -> jsstring) (kv : jsstring * json)
    : jsstring :=
  quote (fst kv) ++ [58%N] ++ print (snd kv).

Fixpoint print_json (j : json) : jsstring :=
  match j with
  | JNull => lit "null"
  | JBool true => lit "true"
  | JBool false => lit "false"
  | JNum l => Number_print host l
  | JStr s => quote s
  | JArr items => [91%N] ++ join_comma (map print_json items) ++ [93%N]
  | JObj props =>
      [123%N] ++ join_comma (map (print_member print_json) props) ++ [125%N]
  end.

(** [SerializeJSONProperty]: [None] for [undefined], which an object
    omits.  A [Date] is serialized through its [toJSON] method. *)
Definition stringify_value (v : value) : option jsstring :=
  match v with
  | VUndefined => None
  | VJson j => Some (print_json j)
  | VDate d =>
      match Date_toJSON d with
      | Some iso => Some (quote iso)
      | None => Some (lit "null")
      end
  end.

Fixpoint stringify_props (o : object) : list jsstring :=
  match o with
  | [] => []
  | (k, v) :: o' =>
      match stringify_value v with
      | Some t => (quote k ++ [58%N] ++ t) :: stringify_props o'
      | None => stringify_props o'
      end
  end.

Definition stringify_object (o : object) : jsstring :=
  [123%N] ++ join_comma (stringify_props o) ++ [125%N].

(** [JSON.stringify(todos)] *)
Definition JSON_stringify (todos : list object) : jsstring :=
  [91%N] ++ join_comma (map stringify_object todos) ++ [93%N].

End Stringify.

(** *** [JSON.parse] *)

Definition is_json_ws (c : N) : bool :=
  ((c =? 32) || (c =? 9) || (c =? 10) || (c =? 13))%N.

Fixpoint skip_ws (s : jsstring) : jsstring :=
  match s with
  | c :: s' => if is_json_ws c then skip_ws s' else s
  | [] => []
  end.

Definition hex_value (c : N) : option N :=
  (if (48 <=? c) && (c <=? 57) then Some (c - 48)
   else if (97 <=? c) && (c <=? 102) then Some (c - 87)
   else if (65 <=? c) && (c <=? 70) then Some (c - 55)
   else None)%N.

Definition hex4 (a b c d : N) : option N :=
  let? x := hex_value a in
  let? y := hex_value b in
  let? z := hex_value c in
  let? w := hex_value d in
  Some (x * 4096 + y * 256 + z * 16 + w)%N.

Definition unescape (e : N) : option N :=
  (if e =? 34 then Some 34
   else if e =? 92 then Some 92
   else if e =? 47 then Some 47
   else if e =? 98 then Some 8
   else if e =? 102 then Some 12
   else if e =? 110 then Some 10
   else if e =? 114 then Some 13
   else if e =? 116 then Some 9
   else None)%N.

(** The characters of a string literal after its opening quote, up to
    and including the closing quote. *)
Fixpoint parse_string_body (s : jsstring) : option (jsstring * jsstring) :=
  match s with
  | [] => None
  | c :: r =>
      if (c =? 34)%N then Some ([], r)
      else if (c =? 92)%N then
        match r with
        | [] => None
        | e :: r' =>
            if (e =? 117)%N then
              match r' with
              | h1 :: h2 :: h3 :: h4 :: r'' =>
                  let? u := hex4 h1 h2 h3 h4 in
                  let? (str, rest) := parse_string_body r'' in
                  Some (u :: str, rest)
              | _ => None
              end
            else
              let? x := unescape e in
              let? (str, rest) := parse_string_body r' in
              Some (x :: str, rest)
        end
      else if (c <? 32)%N then None
      else
        let? (str, rest) := parse_string_body r in
        Some (c :: str, rest)
  end.

Fixpoint take_digits (s : jsstring) : jsstring * jsstring :=
  match s with
  | c :: s' =>
      if is_digit c then let '(ds, r) := take_digits s' in (c :: ds, r)
      else ([], s)
  | [] => ([], [])
  end.

(** An optional character out of a set of two. *)
Definition lex_optional (c1 c2 : N) (s : jsstring) : jsstring * jsstring :=
  match s with
  | c :: r => if ((c =? c1) || (c =? c2))%N then ([c], r) else ([], s)
  | [] => ([], s)
  end.

(** The integer part of a number: [0], or digits that do not begin with
    [0]. *)
Definition lex_int (s : jsstring) : option (jsstring * jsstring) :=
  match s with
  | c :: r =>
      if (c =? 48)%N then Some ([c], r)
      else if is_digit c then Some (take_digits s)
      else None
  | [] => None
  end.

(** A non-empty run of digits. *)
Definition lex_digits (s : jsstring) : option (jsstring * jsstring) :=
  match take_digits s with
  | ([], _) => None
  | (ds, r) => Some (ds, r)
  end.

Definition lex_frac (s : jsstring) : option (jsstring * jsstring) :=
  match s with
  | c :: r =>
      if (c =? 46)%N then
        let? (ds, r') := lex_digits r in Some (c :: ds, r')
      else Some ([], s)
  | [] => Some ([], s)
  end.

Definition lex_exp (s : jsstring) : option (jsstring * jsstring) :=
  match s with
  | e :: r =>
      if ((e =? 101) || (e =? 69))%N then
        let '(esign, r) := lex_optional 43 45 r in
        let? (ds, r') := lex_digits r in Some (e :: esign ++ ds, r')
      else Some ([], s)
  | [] => Some ([], s)
  end.

(** The lexeme of a JSON number at the head of [s]. *)
Definition lex_number (s : jsstring) : option (jsstring * jsstring) :=
  let '(sign, s) := lex_optional 45 45 s in
  let? (int, s) := lex_int s in
  let? (frac, s) := lex_frac s in
  let? (exp, s) := lex_exp s in
  Some (sign ++ int ++ frac ++ exp, s).

Fixpoint read_lit (word s : jsstring) : option jsstring :=
  match word with
  | [] => Some s
  | w :: word' =>
      match s with
      | c :: s' => if (c =? w)%N then read_lit word' s' else None
      | [] => None
      end
  end.

(** A property key that is an array index: the canonical decimal form of
    an integer below 2^32 - 1.  Such keys come first among an object's
    own properties, in ascending order. *)
Definition array_index (k : jsstring) : option Z :=
  match k with
  | [] => None
  | c :: r =>
      if forallb is_digit k && (negb (c =? 48)%N || match r with [] => true | _ => false end)
      then let v := digits_value 0 k in
           if v <? 4294967295 then Some v else None
      else None
  end.

(** [CreateDataProperty(o, k, v)] on the property list of an ordinary
    object: an existing property keeps its place. *)
Fixpoint obj_replace {A : Type} (k : jsstring) (v : A) (o : list (jsstring * A))
    : option (list (jsstring * A)) :=
  match o with
  | [] => None
  | (k', v') :: o' =>
      if str_eqb k' k then Some ((k, v) :: o')
      else match obj_replace k v o' with
           | Some o'' => Some ((k', v') :: o'')
           | None => None
           end
  end.

Fixpoint obj_insert_index {A : Type} (i : Z) (k : jsstring) (v : A)
    (o : list (jsstring * A)) : list (jsstring * A) :=
  match o with
  | [] => [(k, v)]
  | (k', v') :: o' =>
      match array_index k' with
      | Some j => if j <? i then (k', v') :: obj_insert_index i k v o'
                  else (k, v) :: o
      | None => (k, v) :: o
      end
  end.

Definition obj_define {A : Type} (k : jsstring) (v : A) (o : list (jsstring * A))
    : list (jsstring * A) :=
  match obj_replace k v o with
  | Some o' => o'
  | None =>
      match array_index k with
      | Some i => obj_insert_index i k v o
      | None => o ++ [(k, v)]
      end
  end.

(** The property list of the object a JSON object literal denotes. *)
Definition obj_of_members {A : Type} (members : list (jsstring * A))
    : list (jsstring * A) :=
  fold_left (fun o kv => obj_define (fst kv) (snd kv) o) members [].

(** Recursive descent; [fuel] bounds the number of nested calls. *)
Fixpoint parse_value (fuel : nat) (s : jsstring) {struct fuel}
    : option (json * jsstring) :=
  match fuel with
  | O => None
  | S f =>
      match skip_ws s with
      | [] => None
      | c :: r =>
          if (c =? 34)%N then
            let? (str, r') := parse_string_body r in Some (JStr str, r')
          else if (c =? 91)%N then
            match skip_ws r with
            | [] => None
            | x :: r' =>
                if (x =? 93)%N then Some (JArr [], r')
                else let? (vs, r'') := parse_elements f r in Some (JArr vs, r'')
            end
          else if (c =? 123)%N then
            match skip_ws r with
            | [] => None
            | x :: r' =>
                if (x =? 125)%N then Some (JObj [], r')
                else let? (ms, r'') := parse_members f r in
                     Some (JObj (obj_of_members ms), r'')
            end
          else if (c =? 116)%N then
            let? r' := read_lit (lit "rue") r in Some (JBool true, r')
          else if (c =? 102)%N then
            let? r' := read_lit (lit "alse") r in Some (JBool false, r')
          else if (c =? 110)%N then
            let? r' := read_lit (lit "ull") r in Some (JNull, r')
          else
            let? (l, r') := lex_number (c :: r) in Some (JNum l, r')
      end
  end

with parse_elements (fuel : nat) (s : jsstring) {struct fuel}
    : option (list json * jsstring) :=
  match fuel with
  | O => None
  | S f =>
      let? (v, r) := parse_value f s in
      match skip_ws r with
      | [] => None
      | x :: r' =>
          if (x =? 44)%N then
            let? (vs, r'') := parse_elements f r' in Some (v :: vs, r'')
          else if (x =? 93)%N then Some ([v], r')
          else None
      end
  end

with parse_members (fuel : nat) (s : jsstring) {struct fuel}
    : option (list (jsstring * json) * jsstring) :=
  match fuel with
  | O => None
  | S f =>
      match skip_ws s with
      | [] => None
      | q :: r =>
          if (q =? 34)%N then
            let? (k, r1) := parse_string_body r in
            match skip_ws r1 with
            | [] => None
            | x :: r2 =>
                if (x =? 58)%N then
                  let? (v, r3) := parse_value f r2 in
                  match skip_ws r3 with
                  | [] => None
                  | y :: r4 =>
                      if (y =? 44)%N then
                        let? (ms, r5) := parse_members f r4 in
                        Some ((k, v) :: ms, r5)
                      else if (y =? 125)%N then Some ([(k, v)], r4)
                      else None
                  end
                else None
            end
          else None
      end
  end.

(** [JSON.parse(text)]; [None] stands for the [SyntaxError] it throws.
    No call nests deeper than twice the length of the text. *)
Definition JSON_parse (text : jsstring) : option json :=
  let? (v, r) := parse_value (2 * length text + 2) text in
  match skip_ws r with
  | [] => Some v
  | _ :: _ => None
  end.

(* ================================================================== *)
(** ** [useTodos]: loading and saving ([src/types/index.ts], lines 155-193)

    The load effect types the parsed records as [any]: what it installs
    is modelled as untyped objects, of which the records of type [Todo]
    are a part (see [Todo_object] and [as_Todo]). *)

Definition STORAGE_KEY : jsstring := lit "react-todo-app-todos".

(** [{ ...o, k: v }] for a key that is not an array index. *)
Definition obj_set (k : jsstring) (v : value) (o : object) : object :=
  match obj_replace k v o with
  | Some o' => o'
  | None => o ++ [(k, v)]
  end.

Fixpoint obj_get {A : Type} (k : jsstring) (o : list (jsstring * A)) : option A :=
  match o with
  | [] => None
  | (k', v) :: o' => if str_eqb k' k then Some v else obj_get k o'
  end.

(** [todo.k] for one of the keys [createdAt] and [dueDate], which no
    prototype defines: [Some None] is [undefined], [None] the [TypeError]
    of a property access on [null]. *)
Definition get_field (todo : json) (k : jsstring) : option (option json) :=
  match todo with
  | JNull => None
  | JObj props => Some (obj_get k props)
  | _ => Some None
  end.

Definition index_key (i : nat) : jsstring := Number_toString (Int (Z.of_nat i)).

Fixpoint indexed {A B : Type} (f : A -> B) (i : nat) (l : list A)
    : list (jsstring * B) :=
  match l with
  | [] => []
  | x :: l' => (index_key i, f x) :: indexed f (S i) l'
  end.

(** The own enumerable properties the spread [...todo] copies. *)
Definition spread (todo : json) : object :=
  match todo with
  | JObj props => map (fun kv => (fst kv, VJson (snd kv))) props
  | JArr items => indexed VJson 0 items
  | JStr s => indexed (fun c => VJson (JStr [c])) 0 s
  | _ => []
  end.

Section UseTodos.

Variable host : Host.

(** [ToBoolean(v)] for a value read from a parsed record. *)
Definition truthy (v : option json) : bool :=
  match v with
  | None => false
  | Some JNull => false
  | Some (JBool b) => b
  | Some (JNum l) => Number_truthy host l
  | Some (JStr s) => truthy_str s
  | Some (JArr _) => true
  | Some (JObj _) => true
  end.

(** [new Date(v)]; [None] when the conversion of [v] throws. *)
Definition Date_new (v : option json) : option Date :=
  match v with
  | None => Some InvalidDate
  | Some JNull => Some (mkDate (Int 0))
  | Some (JBool b) => Some (mkDate (Int (if b then 1 else 0)))
  | Some (JStr s) => Some (mkDate (Date_parse host s))
  | Some j => option_map mkDate (Date_construct_other host j)
  end.

(** The callback of the load effect:
    [todo => ({...todo, createdAt: new Date(todo.createdAt),
               dueDate: todo.dueDate ? new Date(todo.dueDate) : undefined})];
    [None] when it throws. *)
Definition revive (todo : json) : option object :=
  let? created := get_field todo (lit "createdAt") in
  let? created := Date_new created in
  let? due := get_field todo (lit "dueDate") in
  let? due := if truthy due then option_map VDate (Date_new due)
              else Some VUndefined in
  Some (obj_set (lit "dueDate") due
          (obj_set (lit "createdAt") (VDate created) (spread todo))).

Fixpoint map_revive (items : list json) : option (list object) :=
  match items with
  | [] => Some []
  | todo :: items' =>
      let? o := revive todo in
      let? os := map_revive items' in
      Some (o :: os)
  end.

(** [JSON.parse(stored).map(...)]: only an array has a [map] method. *)
Definition parse_todos (stored : jsstring) : option (list object) :=
  let? parsed := JSON_parse stored in
  match parsed with
  | JArr items => map_revive items
  | _ => None
  end.

(** What the hook does to the world outside React. *)
Inductive event :=
| ConsoleError (message : jsstring)
| SetItem (key value : jsstring).

(** The world outside the hook: [stored] is the value [localStorage]
    holds under the key, [quota] the longest value it accepts ([None]:
    any), [trace] the events so far, latest first. *)
Record World := mkWorld {
  stored : option jsstring;
  quota : option nat;
  trace : list event
}.

Definition console_error (message : jsstring) (w : World) : World :=
  mkWorld (stored w) (quota w) (ConsoleError message :: trace w).

(** [localStorage.setItem(STORAGE_KEY, v)]; [None] when it throws. *)
Definition setItem (v : jsstring) (w : World) : option World :=
  let fits := match quota w with
              | Some q => (length v <=? q)%nat
              | None => true
              end in
  if fits then Some (mkWorld (Some v) (quota w) (SetItem STORAGE_KEY v :: trace w))
  else None.

(** The state of one mounted [useTodos]: the [useState] cell and the two
    refs. *)
Record Hook := mkHook {
  todos : list object;
  isInitialized : bool;
  isFirstRender : bool
}.

(** The load effect.  Its result is the argument of the [setTodos] call
    it makes, if it makes one. *)
Definition load_effect (w : World) : option (list object) * World :=
  match stored w with
  | Some text =>
      if truthy_str text then
        match parse_todos text with
        | Some parsedTodos => (Some parsedTodos, w)
        | None =>
            (None, console_error (lit "Failed to load todos from localStorage:") w)
        end
      else (None, w)
  | None => (None, w)
  end.

(** The save effect. *)
Definition save_effect (h : Hook) (w : World) : Hook * World :=
  if isFirstRender h then
    (mkHook (todos h) true false, w)
  else
    match setItem (JSON_stringify host (todos h)) w with
    | Some w' => (h, w')
    | None =>
        (h, console_error (lit "Failed to save todos to localStorage:") w)
    end.

(** A state update commits a render with the new array; the array is a
    new object, so the dependency [[todos]] has changed and the save
    effect runs. *)
Definition commit (newTodos : list object) (h : Hook) (w : World) : Hook * World :=
  save_effect (mkHook newTodos (isInitialized h) (isFirstRender h)) w.

(** Mounting the hook: the first render has [todos = []]; its two
    effects run in source order; the [setTodos] call of the load effect,
    if any, then commits a second render. *)
Definition mount (w : World) : Hook * World :=
  let h := mkHook [] false true in
  let '(pending, w) := load_effect w in
  let '(h, w) := save_effect h w in
  match pending with
  | Some parsedTodos => commit parsedTodos h w
  | None => (h, w)
  end.

(** [setTodos(updater)] after mounting. *)
Definition dispatch (updater : list object -> list object) (h : Hook) (w : World)
    : Hook * World :=
  commit (updater (todos h)) h w.

End UseTodos.

(** A record of type [Todo] as an object: its properties in the order
    in which [addTodo] writes them. *)
Definition Todo_object (t : Todo) : object :=
  [ (lit "id", VJson (JStr (id t)));
    (lit "text", VJson (JStr (text t)));
    (lit "completed", VJson (JBool (completed t)));
    (lit "createdAt", VDate (createdAt t));
    (lit "dueDate", match dueDate t with Some d => VDate d | None => VUndefined end);
    (lit "category", match category t with Some c => VJson (JStr c) | None => VUndefined end) ].

(** Reading an object back as a record: every field must be present with
    the type [Todo] declares. *)
Definition as_Todo (o : object) : option Todo :=
  let? i := match obj_get (lit "id") o with Some (VJson (JStr s)) => Some s | _ => None end in
  let? t := match obj_get (lit "text") o with Some (VJson (JStr s)) => Some s | _ => None end in
  let? c := match obj_get (lit "completed") o with Some (VJson (JBool b)) => Some b | _ => None end in
  let? cr := match obj_get (lit "createdAt") o with Some (VDate d) => Some d | _ => None end in
  let? du := match obj_get (lit "dueDate") o with
             | Some (VDate d) => Some (Some d)
             | Some VUndefined | None => Some None
             | _ => None
             end in
  let? ca := match obj_get (lit "category") o with
             | Some (VJson (JStr s)) => Some (Some s)
             | Some VUndefined | None => Some None
             | _ => None
             end in
  Some (mkTodo i t c cr du ca).

(** *** Vocabulary of the statements about saving and loading *)

(** A date that holds a time value. *)
Definition valid_date (d : Date) : Prop :=
  exists t, getTime d = Int t /\ Z.abs t <= 8640000000000000.

Definition valid_dates (t : Todo) : Prop :=
  valid_date (createdAt t) /\
  match dueDate t with Some d => valid_date d | None => True end.

(** The JSON value [JSON.stringify] writes for a date and for a record. *)
Definition date_json (d : Date) : json :=
  match Date_toJSON d with
  | Some iso => JStr iso
  | None => JNull
  end.

Definition todo_json (t : Todo) : json :=
  JObj ([ (lit "id", JStr (id t));
          (lit "text", JStr (text t));
          (lit "completed", JBool (completed t));
          (lit "createdAt", date_json (createdAt t)) ] ++
        match dueDate t with Some d => [(lit "dueDate", date_json d)] | None => [] end ++
        match category t with Some c => [(lit "category", JStr c)] | None => [] end).

(** JSON values without numbers whose objects list their properties the
    way [JSON.parse] builds them. *)
Inductive plain : json -> Prop :=
| plain_null : plain JNull
| plain_bool b : plain (JBool b)
| plain_str s : plain (JStr s)
| plain_arr items : Forall plain items -> plain (JArr items)
| plain_obj props :
    obj_of_members props = props ->
    Forall (fun kv => plain (snd kv)) props ->
    plain (JObj props).

(** The nesting of parser calls a value takes. *)
Definition need_list (l : list nat) : nat :=
  fold_right (fun n acc => S (Nat.max n acc)) O l.

Fixpoint need (j : json) : nat :=
  match j with
  | JArr items => S (need_list (map need items))
  | JObj props => S (need_list (map (fun kv => need (snd kv)) props))
  | _ => 1
  end.

(** A text that begins like a printed value: its first character is not
    white space and closes neither an array nor an object. *)
Definition starts_value (s : jsstring) : Prop :=
  exists c tl, s = c :: tl /\
    (c = 34 \/ c = 91 \/ c = 123 \/ c = 116 \/ c = 102 \/ c = 110)%N.

(** A date field that is absent, [null], a boolean or a string: the
    values [new Date] converts without calling into the host. *)
Definition date_field_plain (v : option json) : bool :=
  match v with
  | None | Some JNull | Some (JBool _) | Some (JStr _) => true
  | _ => false
  end.

(** A host in the UTC time zone whose implementation-defined conversions
    all fail. *)
Definition utc_host : Host :=
  mkHost (fun _ _ => 0) (fun _ => NaN) (fun _ => None) (fun _ => true) (fun l => l).

(* ================================================================== *)
(** ** [Timer]: the badge ([src/App.tsx], lines 512-580) *)

(** [timeRemaining.isOverdue && !isCompleted] *)
Definition Timer_isOverdue (timeRemaining : TimeRemaining) (isCompleted : bool)
    : bool :=
  isOverdue timeRemaining && negb isCompleted.

(** [!isCompleted && !isOverdue && timeRemaining.totalMinutes < 1440] *)
Definition Timer_isUrgent (timeRemaining : TimeRemaining) (isCompleted : bool)
    : bool :=
  negb isCompleted && negb (Timer_isOverdue timeRemaining isCompleted) &&
  num_ltb (totalMinutes timeRemaining) (Int 1440).

(** The three colour schemes of the badge. *)
Inductive tone := Red | Orange | Blue.

Definition Timer_tone (timeRemaining : TimeRemaining) (isCompleted : bool) : tone :=
  if Timer_isOverdue timeRemaining isCompleted then Red
  else if Timer_isUrgent timeRemaining isCompleted then Orange
  else Blue.

(* ================================================================== *)
(** ** [TodoList]: drag end and footer ([src/components/TodoList.tsx]) *)

Fixpoint findIndex_from {A : Type} (p : A -> bool) (i : Z) (l : list A) : Z :=
  match l with
  | [] => -1
  | x :: l' => if p x then i else findIndex_from p (i + 1) l'
  end.

(** [arr.findIndex(p)]: the first index whose element satisfies [p], or
    [-1]. *)
Definition findIndex {A : Type} (p : A -> bool) (l : list A) : Z :=
  findIndex_from p 0 l.

(** [handleDragEnd(event)] (lines 36-47): [active] is [active.id], [over]
    is [over?.id] with [None] for [undefined]; the result is the value of
    the [onReorder] call, if one is made. *)
Definition handleDragEnd {R : Type} (onReorder : option (Z -> Z -> R))
    (todos : list Todo) (active : jsstring) (over : option jsstring)
    : option R :=
  match onReorder with
  | None => None
  | Some reorder =>
      let same := match over with
                  | Some o => str_eqb active o
                  | None => false
                  end in
      if negb same then
        let oldIndex := findIndex (fun todo => str_eqb (id todo) active) todos in
        let newIndex :=
          findIndex (fun todo => match over with
                                 | Some o => str_eqb (id todo) o
                                 | None => false
                                 end) todos in
        Some (reorder oldIndex newIndex)
      else None
  end.

(** The [onReorder] the list is given ([src/App.tsx], line 268): none
    while a search query is shown. *)
Definition App_onReorder (searchQuery : jsstring)
    : option (Z -> Z -> list Todo -> list (option Todo)) :=
  if truthy_str searchQuery then None else Some reorderTodos.

(** The message under the list (lines 109-132): none for an empty list,
    congratulations when nothing remains, else the number of remaining
    items and whether "item" takes the plural. *)
Inductive footer :=
| NoFooter
| Congratulations
| RemainingItems (remainingTodos : nat) (plural : bool).

Definition TodoList_footer (todos : list Todo) : footer :=
  if (0 <? length todos)%nat then
    let remainingTodos := length (filter (fun todo => negb (completed todo)) todos) in
    if (remainingTodos =? 0)%nat then Congratulations
    else RemainingItems remainingTodos (negb (remainingTodos =? 1)%nat)
  else NoFooter.

(* ================================================================== *)
(** ** [App]: the search filter ([src/App.tsx], lines 22-34) *)

Fixpoint starts_with (q s : jsstring) : bool :=
  match q, s with
  | [], _ => true
  | x :: q', y :: s' => (x =? y)%N && starts_with q' s'
  | _ :: _, [] => false
  end.

(** [s.includes(q)]: [q] occurs in [s] as a run of code units. *)
Fixpoint includes (s q : jsstring) : bool :=
  starts_with q s ||
  match s with
  | [] => false
  | _ :: s' => includes s' q
  end.

(** [q] occurs in [s]: the vocabulary of the statements about
    [includes]. *)
Definition occurs_in (q s : jsstring) : Prop := exists a b, s = a ++ q ++ b.

Section Search.

(** [String.prototype.toLowerCase], whose Unicode case tables are the
    host's. *)
Variable toLowerCase : jsstring -> jsstring.

Definition matches_search (searchQuery : jsstring) (todo : Todo) : bool :=
  includes (toLowerCase (text todo)) (toLowerCase searchQuery) ||
  match category todo with
  | Some c => truthy_str c && includes (toLowerCase c) (toLowerCase searchQuery)
  | None => false
  end.

Definition filteredTodos (todos : list Todo) (searchQuery : jsstring) : list Todo :=
  filter (matches_search searchQuery) todos.

Definition displayTodos (todos : list Todo) (searchQuery : jsstring) : list Todo :=
  if truthy_str searchQuery then filteredTodos todos searchQuery else todos.

Definition displayCompletedCount (todos : list Todo) (searchQuery : jsstring) : nat :=
  length (filter (fun todo => completed todo) (displayTodos todos searchQuery)).

Definition displayTotalCount (todos : list Todo) (searchQuery : jsstring) : nat :=
  length (displayTodos todos searchQuery).

End Search.

(* ================================================================== *)
(** ** Categories ([src/constants/categories.ts]) *)

Record CategoryOption := mkOption {
  opt_value : jsstring;
  opt_label : jsstring
}.

(** The labels begin with an emoji, given here by its code units. *)
Definition CATEGORY_OPTIONS : list CategoryOption :=
  [ mkOption [] (lit "No Category");
    mkOption (lit "work") ([55357; 56508]%N ++ lit " Work");
    mkOption (lit "personal") ([55357; 56420]%N ++ lit " Personal");
    mkOption (lit "shopping") ([55357; 57042]%N ++ lit " Shopping");
    mkOption (lit "health") ([55356; 57317]%N ++ lit " Health");
    mkOption (lit "finance") ([55357; 56496]%N ++ lit " Finance");
    mkOption (lit "home") ([55356; 57312]%N ++ lit " Home");
    mkOption (lit "education") ([55357; 56538]%N ++ lit " Education");
    mkOption (lit "travel") ([9992; 65039]%N ++ lit " Travel");
    mkOption (lit "hobby") ([55356; 57256]%N ++ lit " Hobby");
    mkOption (lit "urgent") ([55357; 56613]%N ++ lit " Urgent") ].

(** The code points of a string, as a regular expression with the [u]
    flag reads them: a surrogate pair is one code point. *)
Fixpoint code_points (s : jsstring) : list N :=
  match s with
  | [] => []
  | c :: s' =>
      if is_high_surrogate c then
        match s' with
        | d :: s'' =>
            if is_low_surrogate d
            then (65536 + (c - 55296) * 1024 + (d - 56320))%N :: code_points s''
            else c :: code_points s'
        | [] => [c]
        end
      else c :: code_points s'
  end.

(** The character classes of the pattern in [getCategoryLabel]. *)
Definition is_emoji (cp : N) : bool :=
  (((128512 <=? cp) && (cp <=? 128591)) ||
   ((127744 <=? cp) && (cp <=? 128511)) ||
   ((128640 <=? cp) && (cp <=? 128767)) ||
   ((128768 <=? cp) && (cp <=? 128895)) ||
   ((128896 <=? cp) && (cp <=? 129023)) ||
   ((129024 <=? cp) && (cp <=? 129279)) ||
   ((9728 <=? cp) && (cp <=? 9983)) ||
   ((9984 <=? cp) && (cp <=? 10175)))%N.

Definition hasEmoji (value : jsstring) : bool :=
  existsb is_emoji (code_points value).

(** The label emoji followed by a space: U+1F3F7, U+FE0F, U+0020. *)
Definition tag_prefix : jsstring := [55356; 57335; 65039; 32]%N.

(** [getCategoryLabel(value)] (lines 17-28) *)
Definition getCategoryLabel (value : jsstring) : jsstring :=
  if negb (truthy_str value) then []
  else
    match find (fun opt => str_eqb (opt_value opt) value) CATEGORY_OPTIONS with
    | Some option => opt_label option
    | None => if hasEmoji value then value else tag_prefix ++ value
    end.

(* ================================================================== *)
(** ** [TodoInput]: the category options
       ([src/components/TodoInput.tsx], lines 37-51) *)

Fixpoint indexOf_from (x : jsstring) (i : Z) (l : list jsstring) : Z :=
  match l with
  | [] => -1
  | y :: l' => if str_eqb y x then i else indexOf_from x (i + 1) l'
  end.

(** [arr.indexOf(x)] on an array of strings. *)
Definition indexOf (x : jsstring) (l : list jsstring) : Z := indexOf_from x 0 l.

(** [arr.filter((x, index, array) => f(x, index))] from index [i] on. *)
Fixpoint filter_indexed {A : Type} (f : A -> Z -> bool) (i : Z) (l : list A)
    : list A :=
  match l with
  | [] => []
  | x :: l' =>
      if f x i then x :: filter_indexed f (i + 1) l'
      else filter_indexed f (i + 1) l'
  end.

(** The categories of the todos that are not blank. *)
Fixpoint todo_categories (todos : list Todo) : list jsstring :=
  match todos with
  | [] => []
  | todo :: todos' =>
      match category todo with
      | Some c =>
          if truthy_str c && truthy_str (trim c)
          then c :: todo_categories todos'
          else todo_categories todos'
      | None => todo_categories todos'
      end
  end.

(** [getDynamicCategoryOptions()] *)
Definition getDynamicCategoryOptions (todos : list Todo) : list CategoryOption :=
  let categories := todo_categories todos in
  let unique :=
    filter_indexed (fun category index => indexOf category categories =? index)
      0 categories in
  let custom :=
    filter (fun category =>
              negb (existsb (fun option => str_eqb (opt_value option) category)
                      CATEGORY_OPTIONS))
      unique in
  let customCategories :=
    map (fun category =>
           mkOption category
             (if includes category [55356; 57335; 65039]%N then category
              else tag_prefix ++ category))
      custom in
  CATEGORY_OPTIONS ++ customCategories.

(* ================================================================== *)
(** ** Sequences of state updates *)

(** The [setTodos] calls of a session, in order, each from an event of
    its own and so committed by a render of its own. *)
Fixpoint dispatch_all (host : Host) (updaters : list (list object -> list object))
    (h : Hook) (w : World) : Hook * World :=
  match updaters with
  | [] => (h, w)
  | updater :: rest =>
      let '(h', w') := dispatch host updater h w in
      dispatch_all host rest h' w'
  end.

(** A host whose local time is UTC shifted by a fixed offset. *)
Definition fixed_offset (host : Host) (offset : Z) : Prop :=
  forall t isUTC, LocalTZA host t isUTC = offset.

(* ================================================================== *)
(** * Properties *)

Ltac zdiv := Z.to_euclidean_division_equations; lia.

(** ** Strings *)

Lemma str_eqb_eq (a b : jsstring) : str_eqb a b = true <-> a = b.
Proof.
  revert b; induction a as [|x a IH]; intros [|y b]; simpl; split;
    try congruence; try reflexivity.
  - intros H. apply andb_prop in H as [Hx Hab].
    apply N.eqb_eq in Hx. apply IH in Hab. congruence.
  - intros H. injection H as -> ->.
    rewrite N.eqb_refl. simpl. apply IH. reflexivity.
Qed.

Lemma str_eqb_refl (a : jsstring) : str_eqb a a = true.
Proof. apply str_eqb_eq. reflexivity. Qed.

Lemma str_eqb_neq (a b : jsstring) : str_eqb a b = false <-> a <> b.
Proof.
  destruct (str_eqb a b) eqn:E; split; intros H; try congruence.
  - apply str_eqb_eq in E. contradiction.
  - intros ->. rewrite str_eqb_refl in E. discriminate.
Qed.

Lemma trim_start_blank (s : jsstring) :
  trim_start s = [] <-> forallb is_white_space s = true.
Proof.
  induction s as [|c s IH]; simpl; [tauto|].
  destruct (is_white_space c); simpl; [exact IH|].
  split; discriminate.
Qed.

(** The trimmed form of a string is empty exactly when the string
    consists of white space. *)
Lemma trim_blank (s : jsstring) :
  trim s = [] <-> forallb is_white_space s = true.
Proof.
  unfold trim, trim_end. split.
  - intros H.
    apply (f_equal (@rev N)) in H. rewrite rev_involutive in H. simpl in H.
    apply trim_start_blank in H.
    apply trim_start_blank.
    destruct (trim_start s) as [|c r] eqn:E; [reflexivity|].
    exfalso.
    assert (Hc : is_white_space c = false).
    { clear H. induction s as [|x s IH]; simpl in E; [discriminate|].
      destruct (is_white_space x) eqn:Hx; [exact (IH E)|].
      injection E as <- _. exact Hx. }
    rewrite forallb_forall in H.
    specialize (H c). rewrite Hc in H.
    assert (In c (rev (c :: r))) by (apply in_rev; rewrite rev_involutive; left; reflexivity).
    specialize (H H0). discriminate.
  - intros H. apply trim_start_blank in H. rewrite H. reflexivity.
Qed.

(** ** The time utility *)


(** C5, as amended.  [formatTimeRemaining] picks one tier, the most
    significant non-zero unit first, independently of [isOverdue]: days,
    else hours and minutes, else minutes.  In the days tier an overdue
    item shows the days only, an item that is not overdue the days and
    the hours; the two other tiers differ in the suffix only.  The two
    examples of the specification follow. *)
Theorem formatTimeRemaining_tiers (tr : TimeRemaining) :
  formatTimeRemaining tr =
    (let d := Number_toString (days tr) in
     let h := Number_toString (hours tr) in
     let m := Number_toString (minutes tr) in
     if num_gtb (days tr) (Int 0) then
       if isOverdue tr then d ++ lit "d overdue"
       else d ++ lit "d " ++ h ++ lit "h remaining"
     else if num_gtb (hours tr) (Int 0) then
       h ++ lit "h " ++ m ++ (if isOverdue tr then lit "m overdue" else lit "m remaining")
     else
       m ++ (if isOverdue tr then lit "m overdue" else lit "m remaining"))
  /\ formatTimeRemaining (mkTimeRemaining (Int 2) (Int 5) (Int 30) false (Int 3210))
     = lit "2d 5h remaining"
  /\ formatTimeRemaining (mkTimeRemaining (Int 0) (Int 0) (Int 45) true (Int 45))
     = lit "45m overdue".
Proof.
  split; [|split; reflexivity].
  unfold formatTimeRemaining.
  destruct (isOverdue tr), (num_gtb (days tr) (Int 0)),
    (num_gtb (hours tr) (Int 0)); reflexivity.
Qed.

(** C5, counterexample.  At [{days: 2, hours: 5, minutes: 30}], not
    overdue, the code does not produce the overdue tier with the suffix
    replaced: that would be "2d remaining". *)
Lemma formatTimeRemaining_not_mirrored :
  let tr := mkTimeRemaining (Int 2) (Int 5) (Int 30) false (Int 3210) in
  format_mirrored_tiers tr = lit "2d remaining" /\
  formatTimeRemaining tr <> format_mirrored_tiers tr.
Proof. split; [reflexivity | discriminate]. Qed.

(** C7.  For a due date [due] and a clock reading [now],
    [calculateTimeRemaining] measures against the instant whose local
    time is 23:59:59.999 on the local calendar day of [due]; [isOverdue]
    is the sign of the difference and the magnitude is split into days,
    hours and minutes by floor division.  The hypotheses keep the
    deadline a valid time value and the difference exactly representable. *)
Theorem calculateTimeRemaining_spec (host : Host) (now due : Z) :
  let endOfDay := MakeDate (Day (LocalTime host due)) (MakeTime 23 59 59 999) in
  let deadline := UTC host endOfDay in
  let diff := deadline - now in
  let total := Z.abs diff / 60000 in
  Z.abs deadline <= 8640000000000000 ->
  Z.abs diff < 2 ^ 53 ->
  (Day endOfDay = Day (LocalTime host due) /\
   HourFromTime endOfDay = 23 /\ MinFromTime endOfDay = 59 /\
   SecFromTime endOfDay = 59 /\ msFromTime endOfDay = 999) /\
  calculateTimeRemaining host now (mkDate (Int due)) =
    {| days := Int (total / 1440);
       hours := Int ((total mod 1440) / 60);
       minutes := Int (total mod 60);
       isOverdue := diff <? 0;
       totalMinutes := Int total |}.
Proof.
  intros endOfDay deadline diff total Hvalid _.
  split.
  - unfold endOfDay, MakeDate, MakeTime, Day, HourFromTime, MinFromTime,
      SecFromTime, msFromTime, msPerDay.
    generalize (LocalTime host due / 86400000). intros d.
    repeat split; zdiv.
  - unfold calculateTimeRemaining, setHours. simpl getTime.
    fold endOfDay. fold deadline.
    unfold TimeClip.
    destruct (Z.ltb_spec 8640000000000000 (Z.abs deadline)) as [H|_]; [lia|].
    simpl. fold diff.
    change (Z.abs diff / 60000) with total.
    assert (Ht : 0 <= total) by (unfold total; zdiv).
    rewrite !Z.rem_mod_nonneg by lia.
    reflexivity.
Qed.

(** C7, witness: due today (2025-01-01), now 12:00 of the same day, UTC:
    11 hours and 59 minutes remain. *)
Lemma calculateTimeRemaining_spec_witness :
  calculateTimeRemaining utc_host 1735732800000 (mkDate (Int 1735689600000)) =
    {| days := Int 0; hours := Int 11; minutes := Int 59;
       isOverdue := false; totalMinutes := Int 719 |}.
Proof.
  exact (proj2 (calculateTimeRemaining_spec utc_host 1735732800000 1735689600000
                  ltac:(vm_compute; discriminate) ltac:(vm_compute; reflexivity))).
Defined.

(** ** The state updaters *)

(** C8.  [addTodo] puts the new record at index 0, not completed, with
    the generated id and the given text, due date and category; the
    records that were there follow unchanged and in their order (index
    [i] moves to [i + 1]), and their ids stay distinct when the generated
    id is new. *)
Theorem addTodo_head (newId : jsstring) (now : Z) (text' : jsstring)
    (dueDate' : option Date) (category' : option jsstring) (prev : list Todo) :
  let result := addTodo newId now text' dueDate' category' prev in
  (exists newTodo,
      nth_error result 0 = Some newTodo /\
      id newTodo = newId /\ text newTodo = text' /\
      completed newTodo = false /\ createdAt newTodo = mkDate (Int now) /\
      dueDate newTodo = dueDate' /\ category newTodo = category') /\
  (forall i, nth_error result (S i) = nth_error prev i) /\
  tl result = prev /\
  length result = S (length prev) /\
  (~ In newId (map id prev) -> NoDup (map id prev) -> NoDup (map id result)).
Proof.
  unfold addTodo. cbn zeta. repeat split.
  - eexists. repeat split.
  - intros Hnew Hprev. simpl. constructor; assumption.
Qed.

Lemma toggle_twice (id' : jsstring) (todo : Todo) :
  let flip t := if str_eqb (id t) id'
                then mkTodo (id t) (text t) (negb (completed t)) (createdAt t)
                            (dueDate t) (category t)
                else t in
  flip (flip todo) = todo.
Proof.
  cbn zeta. destruct todo as [i t c cr du ca]. simpl.
  destruct (str_eqb i id') eqn:E; simpl; rewrite E; [|reflexivity].
  rewrite negb_involutive. reflexivity.
Qed.

(** C9.  Toggling the same id twice gives back the collection; one
    toggle negates [completed] on the records with that id and changes
    nothing else; with an id no record has, the collection is unchanged. *)
Theorem toggleTodo_involutive (id' : jsstring) (prev : list Todo) :
  toggleTodo id' (toggleTodo id' prev) = prev /\
  map completed (toggleTodo id' prev) =
    map (fun t => if str_eqb (id t) id' then negb (completed t) else completed t) prev /\
  map (fun t => (id t, text t, createdAt t, dueDate t, category t)) (toggleTodo id' prev) =
    map (fun t => (id t, text t, createdAt t, dueDate t, category t)) prev /\
  ((forall t, In t prev -> id t <> id') -> toggleTodo id' prev = prev).
Proof.
  unfold toggleTodo. repeat split.
  - rewrite map_map. rewrite <- (map_id prev) at 2.
    apply map_ext. intros t. apply (toggle_twice id' t).
  - rewrite map_map. apply map_ext. intros t.
    destruct (str_eqb (id t) id'); reflexivity.
  - rewrite map_map. apply map_ext. intros t.
    destruct (str_eqb (id t) id'); reflexivity.
  - intros Hno. rewrite <- (map_id prev) at 2.
    apply map_ext_in. intros t Ht.
    destruct (str_eqb (id t) id') eqn:E; [|reflexivity].
    apply str_eqb_eq in E. exfalso. exact (Hno t Ht E).
Qed.

Lemma filter_sublist {A : Type} (f : A -> bool) (l : list A) :
  sublist (filter f l) l.
Proof.
  induction l as [|x l IH]; simpl.
  - constructor.
  - destruct (f x); constructor; exact IH.
Qed.

Lemma filter_split_length {A : Type} (f : A -> bool) (l : list A) :
  length l = (length (filter f l) + length (filter (fun x => negb (f x)) l))%nat.
Proof.
  induction l as [|x l IH]; simpl; [reflexivity|].
  destruct (f x); simpl; lia.
Qed.

Lemma filter_all {A : Type} (f : A -> bool) (l : list A) :
  (forall x, In x l -> f x = true) -> filter f l = l.
Proof.
  induction l as [|x l IH]; simpl; intros H; [reflexivity|].
  rewrite (H x (or_introl eq_refl)). f_equal. apply IH.
  intros y Hy. apply H. right. exact Hy.
Qed.

(** C10.  [deleteTodo] keeps the records whose id differs from the given
    one, each once and in their order, and drops every record with that
    id, however many there are; with an id no record has, the collection
    is unchanged. *)
Theorem deleteTodo_spec (id' : jsstring) (prev : list Todo) :
  (forall t, In t (deleteTodo id' prev) <-> In t prev /\ id t <> id') /\
  sublist (deleteTodo id' prev) prev /\
  length prev =
    (length (deleteTodo id' prev) +
     length (filter (fun t => str_eqb (id t) id') prev))%nat /\
  ((forall t, In t prev -> id t <> id') -> deleteTodo id' prev = prev).
Proof.
  unfold deleteTodo. split; [|split; [|split]].
  - intros t. rewrite filter_In, negb_true_iff, str_eqb_neq. tauto.
  - apply filter_sublist.
  - rewrite (filter_split_length (fun t => str_eqb (id t) id') prev) at 1.
    apply Nat.add_comm.
  - intros Hno. apply filter_all. intros t Ht.
    apply negb_true_iff. apply str_eqb_neq. exact (Hno t Ht).
Qed.

(** C1, counterexample.  The text of three spaces trims to the empty
    string, and [addTodo] called with it on the empty collection leaves a
    collection of one record. *)
Lemma addTodo_blank_text_inserts :
  trim (lit "   ") = [] /\
  addTodo (lit "k3x9") 0 (lit "   ") None None [] <> [] /\
  length (addTodo (lit "k3x9") 0 (lit "   ") None None []) = 1%nat.
Proof. repeat split. discriminate. Qed.

(** C1, as amended.  [addTodo] does not look at its text: whatever the
    text, blank or not, it puts a record carrying that text at the head.
    Blank text is turned away one layer up, by the submit handler of the
    input form, the caller of [addTodo]: when the trimmed text is empty
    the handler makes no call, and collection and form stay as they are. *)
Theorem blank_text_stopped_by_form (host : Host) (newId : jsstring) (now : Z)
    (form : FormState) (due : option Date) (cat : option jsstring)
    (prev : list Todo) :
  trim (form_text form) = [] ->
  handleSubmit host (addTodo newId now) form prev = (form, prev) /\
  addTodo newId now (form_text form) due cat prev =
    mkTodo newId (form_text form) false (mkDate (Int now)) due cat :: prev.
Proof.
  intros Hblank. split; [|reflexivity].
  unfold handleSubmit. rewrite Hblank. reflexivity.
Qed.

(** C1, witness: a form whose text is three spaces. *)
Lemma blank_text_stopped_by_form_witness :
  let form := mkForm (lit "   ") (lit "2025-12-25") (lit "work") in
  handleSubmit utc_host (addTodo (lit "k3x9") 0) form [] = (form, []) /\
  addTodo (lit "k3x9") 0 (lit "   ") None None [] =
    [mkTodo (lit "k3x9") (lit "   ") false (mkDate (Int 0)) None None].
Proof.
  exact (blank_text_stopped_by_form utc_host (lit "k3x9") 0
           (mkForm (lit "   ") (lit "2025-12-25") (lit "work")) None None []
           eq_refl).
Defined.

(** *** [splice] and [reorderTodos] *)

Lemma records_app {A : Type} (l1 l2 : list (option A)) :
  records (l1 ++ l2) = records l1 ++ records l2.
Proof.
  induction l1 as [|[x|] l1 IH]; simpl; [reflexivity| |exact IH].
  f_equal. exact IH.
Qed.

Lemma records_map_Some {A : Type} (l : list A) : records (map Some l) = l.
Proof. induction l as [|x l IH]; simpl; [reflexivity|]. f_equal. exact IH. Qed.

Lemma clamp_index_le (len : nat) (i : Z) : (clamp_index len i <= len)%nat.
Proof. unfold clamp_index. destruct (Z.ltb_spec i 0); lia. Qed.

(** Inserting without deleting. *)
Lemma splice_insert {A : Type} (start : Z) (x : A) (arr : list A) :
  splice start 0 [x] arr =
    (firstn (clamp_index (length arr) start) arr ++
       x :: skipn (clamp_index (length arr) start) arr, []).
Proof.
  unfold splice. fold (clamp_index (length arr) start).
  pose proof (clamp_index_le (length arr) start) as Hle.
  set (k := clamp_index (length arr) start) in *.
  assert (Hk : (if start <? 0 then Z.max (Z.of_nat (length arr) + start) 0
                else Z.min start (Z.of_nat (length arr))) = Z.of_nat k).
  { unfold k, clamp_index. destruct (Z.ltb_spec start 0); lia. }
  rewrite Hk.
  replace (Z.to_nat (Z.min (Z.max 0 0) (Z.of_nat (length arr) - Z.of_nat k)))
    with 0%nat by lia.
  rewrite Nat.add_0_r. reflexivity.
Qed.

Lemma skipn_nth_error {A : Type} (k : nat) (x : A) (arr : list A) :
  nth_error arr k = Some x -> skipn k arr = x :: skipn (S k) arr.
Proof.
  revert k. induction arr as [|y arr IH]; intros [|k] Hx; simpl in Hx;
    try discriminate.
  - injection Hx as ->. reflexivity.
  - change (skipn (S k) (y :: arr)) with (skipn k arr).
    rewrite (IH k Hx). reflexivity.
Qed.

(** Deleting one element: nothing is removed when the start position is
    the end of the array, else the element at that position. *)
Lemma splice_delete_one {A : Type} (start : Z) (arr : list A) :
  let k := clamp_index (length arr) start in
  (k = length arr /\ splice start 1 [] arr = (arr, [])) \/
  (exists x, nth_error arr k = Some x /\
             splice start 1 [] arr = (firstn k arr ++ skipn (S k) arr, [x])).
Proof.
  intros k. unfold splice. fold (clamp_index (length arr) start). fold k.
  pose proof (clamp_index_le (length arr) start) as Hle. fold k in Hle.
  assert (Hk : (if start <? 0 then Z.max (Z.of_nat (length arr) + start) 0
                else Z.min start (Z.of_nat (length arr))) = Z.of_nat k).
  { unfold k, clamp_index. destruct (Z.ltb_spec start 0); lia. }
  rewrite Hk. simpl app.
  destruct (Nat.eq_dec k (length arr)) as [E|E].
  - left. split; [exact E|].
    replace (Z.to_nat (Z.min (Z.max 1 0) (Z.of_nat (length arr) - Z.of_nat k)))
      with 0%nat by lia.
    rewrite Nat.add_0_r, E, firstn_all, skipn_all. simpl.
    rewrite app_nil_r. reflexivity.
  - right.
    replace (Z.to_nat (Z.min (Z.max 1 0) (Z.of_nat (length arr) - Z.of_nat k)))
      with 1%nat by lia.
    destruct (nth_error arr k) as [x|] eqn:Hx.
    + exists x. split; [reflexivity|].
      rewrite Nat.add_1_r, (skipn_nth_error k x arr Hx). reflexivity.
    + apply nth_error_None in Hx. lia.
Qed.

Lemma firstn_skipn_middle {A : Type} (k : nat) (x : A) (arr : list A) :
  nth_error arr k = Some x -> arr = firstn k arr ++ x :: skipn (S k) arr.
Proof.
  intros Hx. rewrite <- (skipn_nth_error k x arr Hx). symmetry. apply firstn_skipn.
Qed.

(** C3, counterexample.  [-1] is out of range, and [reorderTodos(-1, 0)]
    on two records moves the last one to the front. *)
Lemma reorderTodos_negative_index_moves :
  let a := mkTodo (lit "a") (lit "first") false (mkDate (Int 0)) None None in
  let b := mkTodo (lit "b") (lit "second") false (mkDate (Int 0)) None None in
  reorderTodos (-1) 0 [a; b] = [Some b; Some a] /\
  reorderTodos (-1) 0 [a; b] <> map Some [a; b].
Proof. split; [reflexivity | discriminate]. Qed.

Lemma render_counts_records (l : list Todo) :
  render_counts (map Some l) = Some (completedCount l, totalCount l).
Proof.
  unfold render_counts, completedCount, totalCount.
  assert (H : exists kept,
            filter_completed (map Some l) = Some kept /\
            length kept = length (filter (fun todo => completed todo) l)).
  { induction l as [|t l (kept & Hk & Hl)].
    - exists []. split; reflexivity.
    - cbn [map filter_completed filter]. rewrite Hk.
      destruct (completed t); eexists; (split; [reflexivity|]);
        cbn [length]; congruence. }
  destruct H as (kept & -> & ->). rewrite length_map. reflexivity.
Qed.

Lemma completedCount_middle (x : Todo) (l1 l2 : list Todo) :
  completedCount (l1 ++ x :: l2) = completedCount (x :: l1 ++ l2).
Proof.
  unfold completedCount. rewrite filter_app. cbn [filter].
  destruct (completed x); rewrite filter_app, !length_app; cbn [length];
    rewrite ?length_app; lia.
Qed.

(** C3, as amended.  Let the start index, read as [splice] reads it,
    address a record: the collection is not empty and the start index is
    below its length (it may be negative; the end index is any integer).
    Then [reorderTodos] returns an array of records only, of the same
    length, in which every record of the collection occurs unchanged and
    exactly once: the collection with the addressed record taken out and
    put back at the end index, itself clamped to the shortened array.
    The render that follows evaluates its two counts without an error,
    and they are the counts of the collection. *)
Theorem reorderTodos_keeps_records (startIndex endIndex : Z) (prev : list Todo) :
  prev <> [] ->
  startIndex < Z.of_nat (length prev) ->
  let result := reorderTodos startIndex endIndex prev in
  let k := clamp_index (length prev) startIndex in
  exists x l',
    nth_error prev k = Some x /\
    (let rest := firstn k prev ++ skipn (S k) prev in
     let j := clamp_index (length rest) endIndex in
     l' = firstn j rest ++ x :: skipn j rest) /\
    result = map Some l' /\
    Permutation l' prev /\
    length result = length prev /\
    render_counts result = Some (completedCount prev, totalCount prev).
Proof.
  intros Hne Hstart. cbn zeta. unfold reorderTodos.
  pose proof (splice_delete_one startIndex (map Some prev)) as Hd.
  cbn zeta in Hd. rewrite length_map in Hd.
  assert (Hk : (clamp_index (length prev) startIndex < length prev)%nat).
  { unfold clamp_index. destruct prev as [|t0 prev]; [congruence|].
    cbn [length] in *. destruct (Z.ltb_spec startIndex 0); lia. }
  set (k := clamp_index (length prev) startIndex) in *.
  destruct Hd as [[Hend _]|[x [Hx Hd]]]; [lia|]. rewrite Hd.
  rewrite splice_insert.
  rewrite nth_error_map in Hx.
  destruct (nth_error prev k) as [t|] eqn:Ht; [|discriminate].
  simpl in Hx. injection Hx as <-.
  set (rest := firstn k prev ++ skipn (S k) prev).
  assert (Hr : firstn k (map Some prev) ++ skipn (S k) (map Some prev)
               = map Some rest).
  { unfold rest. rewrite map_app, firstn_map, skipn_map. reflexivity. }
  rewrite Hr, length_map.
  set (j := clamp_index (length rest) endIndex).
  assert (Hshape : firstn j (map Some rest) ++ Some t :: skipn j (map Some rest)
                   = map Some (firstn j rest ++ t :: skipn j rest)).
  { rewrite map_app, firstn_map. simpl. rewrite skipn_map. reflexivity. }
  assert (Hperm : Permutation (t :: rest) prev).
  { unfold rest.
    apply Permutation_trans with (firstn k prev ++ t :: skipn (S k) prev);
      [apply Permutation_middle|].
    rewrite <- (firstn_skipn_middle k t prev Ht). apply Permutation_refl. }
  assert (Hlen : length (firstn j rest ++ t :: skipn j rest) = length prev).
  { apply Permutation_length in Hperm. rewrite <- Hperm.
    rewrite length_app. cbn [length].
    rewrite <- (firstn_skipn j rest) at 3. rewrite length_app. lia. }
  rewrite Hshape.
  exists t, (firstn j rest ++ t :: skipn j rest).
  split; [reflexivity|]. split; [reflexivity|]. split; [reflexivity|].
  split; [|split].
  - apply Permutation_trans with (t :: rest); [|exact Hperm].
    apply Permutation_sym.
    rewrite <- (firstn_skipn j rest) at 1.
    apply Permutation_middle.
  - rewrite length_map. exact Hlen.
  - rewrite render_counts_records. unfold totalCount. rewrite Hlen.
    f_equal. f_equal.
    rewrite completedCount_middle, (firstn_skipn j rest).
    unfold rest. rewrite <- completedCount_middle.
    rewrite <- (firstn_skipn_middle k t prev Ht). reflexivity.
Qed.

(** C3, witness: the last of three records, addressed as [-1], moved to
    the front. *)
Lemma reorderTodos_keeps_records_witness :
  let a := mkTodo (lit "a") (lit "first") false (mkDate (Int 0)) None None in
  let b := mkTodo (lit "b") (lit "second") true (mkDate (Int 0)) None None in
  let c := mkTodo (lit "c") (lit "third") false (mkDate (Int 0)) None None in
  exists x l',
    nth_error [a; b; c] 2 = Some x /\
    l' = [x; a; b] /\
    reorderTodos (-1) 0 [a; b; c] = map Some l' /\
    Permutation l' [a; b; c] /\
    length (reorderTodos (-1) 0 [a; b; c]) = 3%nat /\
    render_counts (reorderTodos (-1) 0 [a; b; c]) = Some (1%nat, 3%nat).
Proof.
  intros a b c.
  exact (reorderTodos_keeps_records (-1) 0 [a; b; c]
           ltac:(discriminate) eq_refl).
Defined.

(** ** Calendar arithmetic and the ISO format *)



Lemma DayFromYear_lower y : 146097 * (y - 1970) - 506 <= 400 * DayFromYear y.
Proof. unfold DayFromYear. zdiv. Qed.

Lemma DayFromYear_upper y : 400 * DayFromYear y <= 146097 * (y - 1970) + 589.
Proof. unfold DayFromYear. zdiv. Qed.

Lemma DaysInYear_cases y : DaysInYear y = 365 \/ DaysInYear y = 366.
Proof. unfold DaysInYear, DayFromYear. zdiv. Qed.

Lemma YearFromDay_spec d :
  DayFromYear (YearFromDay d) <= d < DayFromYear (YearFromDay d + 1).
Proof.
  unfold YearFromDay.
  set (y := 1970 + 400 * d / 146097).
  assert (Hq : 146097 * (y - 1970) <= 400 * d < 146097 * (y - 1970) + 146097)
    by (unfold y; zdiv).
  destruct (Z.ltb_spec d (DayFromYear y)) as [H1|H1].
  - replace (y - 1 + 1) with y by lia.
    split; [|exact H1]. pose proof (DayFromYear_upper (y - 1)). lia.
  - destruct (Z.leb_spec (DayFromYear (y + 1)) d) as [H2|H2].
    + split; [exact H2|]. pose proof (DayFromYear_lower (y + 1 + 1)). lia.
    + split; assumption.
Qed.

Lemma DayFromYear_mono (a b : Z) : a <= b -> DayFromYear a <= DayFromYear b.
Proof. unfold DayFromYear. zdiv. Qed.

(** [YearFromDay d] is the largest year that starts on or before day [d]. *)
Lemma YearFromDay_largest (d y : Z) :
  DayFromYear y <= d <-> y <= YearFromDay d.
Proof.
  pose proof (YearFromDay_spec d) as [Hlo Hhi]. split; intros H.
  - destruct (Z.le_gt_cases y (YearFromDay d)) as [|Hgt]; [assumption|].
    pose proof (DayFromYear_mono (YearFromDay d + 1) y ltac:(lia)). lia.
  - pose proof (DayFromYear_mono y (YearFromDay d) H). lia.
Qed.

Lemma YearFromDay_unique (d y : Z) :
  DayFromYear y <= d < DayFromYear (y + 1) -> YearFromDay d = y.
Proof.
  intros [Hlo Hhi].
  apply YearFromDay_largest in Hlo.
  destruct (Z.le_gt_cases (YearFromDay d) y) as [|Hgt]; [lia|].
  assert (H : y + 1 <= YearFromDay d) by lia.
  apply YearFromDay_largest in H. lia.
Qed.

(** [MakeDay y m 1] is the day on which month [m] of year [y] begins. *)
Lemma MakeDay_first_of_month (y m : Z) :
  let t := MakeDate (MakeDay y m 1) 0 in
  YearFromTime t = y + m / 12 /\ MonthFromTime t = m mod 12 /\
  DateFromTime t = 1.
Proof.
  cbn zeta.
  assert (Hm : 0 <= m mod 12 <= 11) by zdiv.
  replace (MakeDay y m 1)
    with (DayFromYear (y + m / 12) +
          DaysBeforeMonth (m mod 12) (DaysInYear (y + m / 12) - 365))
    by (unfold MakeDay; lia).
  revert Hm. generalize (m mod 12) (y + m / 12). clear. intros mn ym Hm.
  set (d := DayFromYear ym + DaysBeforeMonth mn (DaysInYear ym - 365)).
  assert (Hday : Day (MakeDate d 0) = d)
    by (unfold Day, MakeDate, msPerDay; zdiv).
  assert (Hleap : DaysInYear ym - 365 = 0 \/ DaysInYear ym - 365 = 1)
    by (pose proof (DaysInYear_cases ym); lia).
  assert (Hc : mn = 0 \/ mn = 1 \/ mn = 2 \/ mn = 3 \/ mn = 4 \/ mn = 5 \/
               mn = 6 \/ mn = 7 \/ mn = 8 \/ mn = 9 \/ mn = 10 \/ mn = 11) by lia.
  assert (Hbefore : 0 <= DaysBeforeMonth mn (DaysInYear ym - 365) < DaysInYear ym).
  { destruct Hleap as [Hl|Hl]; rewrite Hl; clear - Hl Hc;
      repeat (destruct Hc as [-> | Hc]; [simpl; lia|]); subst mn; simpl; lia. }
  assert (Hy : YearFromTime (MakeDate d 0) = ym).
  { unfold YearFromTime. rewrite Hday.
    apply YearFromDay_unique. unfold d, DaysInYear in *. lia. }
  assert (Hd : DayWithinYear (MakeDate d 0) =
               DaysBeforeMonth mn (DaysInYear ym - 365)).
  { unfold DayWithinYear. rewrite Hy, Hday. unfold d. lia. }
  assert (Hmo : MonthFromTime (MakeDate d 0) = mn).
  { unfold MonthFromTime, InLeapYear. rewrite Hd, Hy.
    destruct Hleap as [Hl|Hl]; rewrite Hl; clear - Hc;
      repeat (destruct Hc as [-> | Hc]; [reflexivity|]); subst mn; reflexivity. }
  split; [exact Hy|]. split; [exact Hmo|].
  unfold DateFromTime. rewrite Hmo, Hd. unfold InLeapYear. rewrite Hy. lia.
Qed.


Lemma DayWithinYear_range (t : Z) :
  0 <= DayWithinYear t < 365 + InLeapYear t.
Proof.
  unfold DayWithinYear, InLeapYear, DaysInYear, YearFromTime.
  pose proof (YearFromDay_spec (Day t)). lia.
Qed.

Lemma InLeapYear_cases (t : Z) : InLeapYear t = 0 \/ InLeapYear t = 1.
Proof.
  unfold InLeapYear. pose proof (DaysInYear_cases (YearFromTime t)). lia.
Qed.

Ltac month_cases :=
  repeat match goal with
         | |- context [?a <? ?b] => destruct (Z.ltb_spec a b)
         end.

Lemma MonthFromTime_range (t : Z) : 0 <= MonthFromTime t <= 11.
Proof. unfold MonthFromTime. month_cases; lia. Qed.

Lemma DateFromTime_range (t : Z) :
  1 <= DateFromTime t <= DaysInMonth (YearFromTime t) (MonthFromTime t).
Proof.
  pose proof (DayWithinYear_range t) as Hd.
  pose proof (InLeapYear_cases t) as Hl.
  unfold DateFromTime, DaysInMonth, MonthFromTime.
  fold (InLeapYear t).
  generalize dependent (InLeapYear t). generalize (DayWithinYear t).
  intros d leap Hd [-> | ->]; month_cases; simpl; lia.
Qed.

Lemma MakeDay_of_time (t : Z) :
  MakeDay (YearFromTime t) (MonthFromTime t) (DateFromTime t) = Day t.
Proof.
  pose proof (MonthFromTime_range t) as Hm.
  unfold MakeDay.
  replace (MonthFromTime t / 12) with 0 by zdiv.
  replace (MonthFromTime t mod 12) with (MonthFromTime t) by zdiv.
  rewrite Z.add_0_r. fold (InLeapYear t).
  unfold DateFromTime, DayWithinYear. lia.
Qed.

Lemma MakeTime_of_time (t : Z) :
  MakeTime (HourFromTime t) (MinFromTime t) (SecFromTime t) (msFromTime t)
  = TimeWithinDay t.
Proof.
  unfold MakeTime, HourFromTime, MinFromTime, SecFromTime, msFromTime,
    TimeWithinDay, msPerDay.
  zdiv.
Qed.

Lemma MakeDate_of_time (t : Z) : MakeDate (Day t) (TimeWithinDay t) = t.
Proof. unfold MakeDate, Day, TimeWithinDay, msPerDay. zdiv. Qed.

Lemma time_fields_range (t : Z) :
  0 <= HourFromTime t <= 23 /\ 0 <= MinFromTime t <= 59 /\
  0 <= SecFromTime t <= 59 /\ 0 <= msFromTime t <= 999.
Proof.
  unfold HourFromTime, MinFromTime, SecFromTime, msFromTime.
  repeat split; zdiv.
Qed.

(** The years of the valid time values have at most six digits. *)
Lemma YearFromTime_range (t : Z) :
  Z.abs t <= 8640000000000000 -> -271821 <= YearFromTime t <= 275760.
Proof.
  intros Ht. unfold YearFromTime.
  pose proof (YearFromDay_spec (Day t)) as Hy.
  pose proof (DayFromYear_lower (YearFromDay (Day t))).
  pose proof (DayFromYear_upper (YearFromDay (Day t) + 1)).
  assert (-100000000 <= Day t <= 100000000) by (unfold Day, msPerDay; zdiv).
  lia.
Qed.

Lemma digit_char_value (x : Z) :
  0 <= x <= 9 ->
  is_digit (digit_char x) = true /\ Z.of_N (digit_char x) - 48 = x /\
  (48 <= digit_char x)%N.
Proof.
  intros Hx. unfold is_digit, digit_char.
  repeat split.
  - apply andb_true_intro. split; apply N.leb_le; lia.
  - lia.
  - lia.
Qed.

Lemma read_digits_snoc (w : nat) (acc : Z) (s : jsstring) :
  read_digits (S w) acc s =
    match read_digits w acc s with
    | Some (a, c :: r) =>
        if is_digit c then Some (10 * a + (Z.of_N c - 48), r) else None
    | _ => None
    end.
Proof.
  revert acc s. induction w as [|w IH]; intros acc s.
  - simpl. destruct s as [|c r]; [reflexivity|].
    destruct (is_digit c); reflexivity.
  - change (read_digits (S (S w)) acc s) with
      (match s with
       | c :: s' =>
           if is_digit c then read_digits (S w) (10 * acc + (Z.of_N c - 48)) s'
           else None
       | [] => None
       end).
    destruct s as [|c s']; [reflexivity|].
    destruct (is_digit c) eqn:Hc; simpl; rewrite Hc; [|reflexivity].
    apply IH.
Qed.

(** Reading back [w] padded digits. *)
Lemma read_pad_digits (w : nat) (v acc : Z) (rest : jsstring) :
  0 <= v < 10 ^ Z.of_nat w ->
  read_digits w acc (pad_digits w v ++ rest) =
    Some (acc * 10 ^ Z.of_nat w + v, rest).
Proof.
  revert v acc rest. induction w as [|w IH]; intros v acc rest Hv.
  - simpl in *. f_equal. f_equal. lia.
  - rewrite read_digits_snoc.
    change (pad_digits (S w) v) with (pad_digits w (v / 10) ++ [digit_char (v mod 10)]).
    rewrite <- app_assoc.
    assert (Hpow : 10 ^ Z.of_nat (S w) = 10 * 10 ^ Z.of_nat w).
    { rewrite Nat2Z.inj_succ, Z.pow_succ_r by lia. reflexivity. }
    rewrite IH by (rewrite Hpow in Hv; zdiv).
    simpl app.
    destruct (digit_char_value (v mod 10)) as (Hd & Hval & _); [zdiv|].
    rewrite Hd, Hval. f_equal. f_equal. rewrite Hpow. zdiv.
Qed.

Lemma pad_digits_head (w : nat) (v : Z) (rest : jsstring) :
  0 <= v ->
  exists c r, pad_digits (S w) v ++ rest = c :: r /\ (48 <= c)%N.
Proof.
  revert v rest. induction w as [|w IH]; intros v rest Hv.
  - exists (digit_char (v mod 10)), rest. split; [reflexivity|].
    apply digit_char_value. zdiv.
  - change (pad_digits (S (S w)) v)
      with (pad_digits (S w) (v / 10) ++ [digit_char (v mod 10)]).
    rewrite <- app_assoc. apply IH. zdiv.
Qed.

Lemma read_iso_year (y : Z) (rest : jsstring) :
  -999999 <= y <= 999999 ->
  read_year (iso_year y ++ rest) = Some (y, rest).
Proof.
  intros Hy. unfold iso_year.
  destruct (Z.leb_spec 0 y) as [H0|H0]; simpl andb.
  - destruct (Z.leb_spec y 9999) as [H1|H1].
    + destruct (pad_digits_head 3 y rest H0) as (c & r & E & Hc).
      unfold read_year. rewrite E.
      replace (c =? 43)%N with false by (symmetry; apply N.eqb_neq; lia).
      replace (c =? 45)%N with false by (symmetry; apply N.eqb_neq; lia).
      rewrite <- E. rewrite read_pad_digits by (simpl; lia).
      reflexivity.
    + replace (y <? 0) with false by (symmetry; apply Z.ltb_ge; lia).
      rewrite <- app_assoc. simpl.
      change (read_digits 6 0 (pad_digits 6 (Z.abs y) ++ rest) = Some (y, rest)).
      rewrite read_pad_digits by (simpl; lia).
      f_equal. f_equal. lia.
  - replace (y <? 0) with true by (symmetry; apply Z.ltb_lt; lia).
    rewrite <- app_assoc. simpl.
    change (match read_digits 6 0 (pad_digits 6 (Z.abs y) ++ rest) with
            | Some (y0, r) => if y0 =? 0 then None else Some (- y0, r)
            | None => None
            end = Some (y, rest)).
    rewrite read_pad_digits by (simpl; lia).
    replace (0 * 10 ^ Z.of_nat 6 + Z.abs y =? 0) with false
      by (symmetry; apply Z.eqb_neq; lia).
    f_equal. f_equal. lia.
Qed.

Lemma read_two_digits (v : Z) (rest : jsstring) :
  0 <= v <= 99 -> read_digits 2 0 (pad_digits 2 v ++ rest) = Some (v, rest).
Proof. intros Hv. rewrite read_pad_digits by (simpl; lia). reflexivity. Qed.

Lemma read_char_head (c : N) (rest : jsstring) :
  read_char c ([c] ++ rest) = Some rest.
Proof. simpl. rewrite N.eqb_refl. reflexivity. Qed.

(** [toISOString] is read back field by field. *)
Lemma read_iso_toISOString (t : Z) :
  Z.abs t <= 8640000000000000 ->
  read_iso (toISOString t) =
    Some (mkIso (YearFromTime t) (MonthFromTime t + 1) (DateFromTime t)
                (HourFromTime t) (MinFromTime t) (SecFromTime t) (msFromTime t)).
Proof.
  intros Ht.
  pose proof (YearFromTime_range t Ht) as Hy.
  pose proof (MonthFromTime_range t) as Hm.
  pose proof (DateFromTime_range t) as Hd.
  assert (Hdim : DaysInMonth (YearFromTime t) (MonthFromTime t) <= 31).
  { unfold DaysInMonth.
    destruct (DaysInYear_cases (YearFromTime t)) as [-> | ->];
      generalize dependent (MonthFromTime t); intros m Hm _;
      assert (Hcases : m = 0 \/ m = 1 \/ m = 2 \/ m = 3 \/ m = 4 \/ m = 5 \/
                       m = 6 \/ m = 7 \/ m = 8 \/ m = 9 \/ m = 10 \/ m = 11) by lia;
      repeat (destruct Hcases as [-> | Hcases]; [simpl; lia|]);
      subst m; simpl; lia. }
  destruct (time_fields_range t) as (Hh & Hmi & Hs & Hms).
  unfold toISOString, read_iso.
  change (lit "-") with [45%N]. change (lit "T") with [84%N].
  change (lit ":") with [58%N]. change (lit ".") with [46%N].
  change (lit "Z") with ([90%N] ++ []).
  rewrite read_iso_year by lia. rewrite read_char_head.
  rewrite read_two_digits by lia. rewrite read_char_head.
  rewrite read_two_digits by lia. rewrite read_char_head.
  rewrite read_two_digits by lia. rewrite read_char_head.
  rewrite read_two_digits by lia. rewrite read_char_head.
  rewrite read_two_digits by lia. rewrite read_char_head.
  rewrite read_pad_digits by (simpl; lia). rewrite read_char_head.
  reflexivity.
Qed.

(** [Date.parse(x.toISOString())] is the time value of [x], for every
    valid time value. *)
Lemma Date_parse_toISOString (host : Host) (t : Z) :
  Z.abs t <= 8640000000000000 ->
  Date_parse host (toISOString t) = Int t.
Proof.
  intros Ht. unfold Date_parse. rewrite read_iso_toISOString by exact Ht.
  pose proof (MonthFromTime_range t) as Hm.
  pose proof (DateFromTime_range t) as Hd.
  destruct (time_fields_range t) as (Hh & Hmi & Hs & Hms).
  assert (Hlegal : iso_legal
            (mkIso (YearFromTime t) (MonthFromTime t + 1) (DateFromTime t)
               (HourFromTime t) (MinFromTime t) (SecFromTime t) (msFromTime t))
          = true).
  { unfold iso_legal. simpl.
    replace (MonthFromTime t + 1 - 1) with (MonthFromTime t) by lia.
    repeat (apply andb_true_intro; split); apply Z.leb_le; lia. }
  rewrite Hlegal. unfold iso_time. simpl.
  replace (MonthFromTime t + 1 - 1) with (MonthFromTime t) by lia.
  rewrite MakeDay_of_time, MakeTime_of_time, MakeDate_of_time.
  unfold TimeClip.
  destruct (Z.ltb_spec 8640000000000000 (Z.abs t)); [lia | reflexivity].
Qed.

(** ** The parser and its fuel *)

Lemma skip_ws_length (s : jsstring) : (length (skip_ws s) <= length s)%nat.
Proof.
  induction s as [|c s IH]; simpl; [lia|].
  destruct (is_json_ws c); simpl; lia.
Qed.

Ltac break_match_in H :=
  match type of H with
  | context [match ?x with _ => _ end] => destruct x eqn:?; try discriminate H
  end.

Lemma parse_string_body_length (s str r : jsstring) :
  parse_string_body s = Some (str, r) -> (length r < length s)%nat.
Proof.
  assert (H : forall n s str r, (length s <= n)%nat ->
            parse_string_body s = Some (str, r) -> (length r < length s)%nat).
  { clear. induction n as [|n IH]; intros s str r Hn Hp.
    - destruct s; [discriminate Hp | simpl in Hn; lia].
    - destruct s as [|c s]; [discriminate Hp|].
      simpl in Hn. simpl in Hp.
      destruct (c =? 34)%N.
      + injection Hp as <- <-. simpl. lia.
      + destruct (c =? 92)%N.
        * destruct s as [|e s]; [discriminate Hp|].
          destruct (e =? 117)%N.
          -- destruct s as [|h1 [|h2 [|h3 [|h4 s]]]]; try discriminate Hp.
             destruct (hex4 h1 h2 h3 h4); [|discriminate Hp].
             destruct (parse_string_body s) as [[str' r']|] eqn:E;
               [|discriminate Hp].
             injection Hp as <- <-.
             apply IH in E; simpl in *; lia.
          -- destruct (unescape e); [|discriminate Hp].
             destruct (parse_string_body s) as [[str' r']|] eqn:E;
               [|discriminate Hp].
             injection Hp as <- <-.
             apply IH in E; simpl in *; lia.
        * destruct (c <? 32)%N; [discriminate Hp|].
          destruct (parse_string_body s) as [[str' r']|] eqn:E;
            [|discriminate Hp].
          injection Hp as <- <-.
          apply IH in E; simpl in *; lia. }
  apply (H (length s)). lia.
Qed.

Lemma take_digits_length (s ds r : jsstring) :
  take_digits s = (ds, r) -> (length ds + length r = length s)%nat.
Proof.
  revert ds r. induction s as [|c s IH]; intros ds r H; simpl in H.
  - injection H as <- <-. reflexivity.
  - destruct (is_digit c).
    + destruct (take_digits s) as [ds' r'] eqn:E.
      injection H as <- <-. specialize (IH _ _ eq_refl). simpl. lia.
    + injection H as <- <-. reflexivity.
Qed.

Lemma read_lit_length (word s r : jsstring) :
  read_lit word s = Some r -> (length r <= length s)%nat.
Proof.
  revert s. induction word as [|w word IH]; intros s H; simpl in H.
  - injection H as <-. lia.
  - destruct s as [|c s]; [discriminate H|].
    destruct (c =? w)%N; [|discriminate H].
    apply IH in H. simpl. lia.
Qed.

Lemma lex_optional_length (c1 c2 : N) (s l r : jsstring) :
  lex_optional c1 c2 s = (l, r) -> (length r <= length s)%nat.
Proof.
  unfold lex_optional. destruct s as [|c s'].
  - intros H. injection H as <- <-. lia.
  - destruct ((c =? c1) || (c =? c2))%N; intros H; injection H as <- <-;
      simpl; lia.
Qed.

Lemma lex_digits_length (s ds r : jsstring) :
  lex_digits s = Some (ds, r) -> (length r < length s)%nat.
Proof.
  unfold lex_digits. destruct (take_digits s) as [[|d ds'] r'] eqn:E;
    [discriminate|].
  intros H. injection H as <- <-.
  apply take_digits_length in E. simpl in E. lia.
Qed.

Lemma lex_int_length (s l r : jsstring) :
  lex_int s = Some (l, r) -> (length r < length s)%nat.
Proof.
  unfold lex_int. destruct s as [|c s']; [discriminate|].
  destruct (c =? 48)%N.
  - intros H. injection H as <- <-. simpl. lia.
  - destruct (is_digit c) eqn:Hc; [|discriminate].
    intros H. injection H as H.
    simpl in H. rewrite Hc in H.
    destruct (take_digits s') as [ds r'] eqn:E.
    injection H as <- <-. apply take_digits_length in E. simpl. lia.
Qed.

Lemma lex_frac_length (s l r : jsstring) :
  lex_frac s = Some (l, r) -> (length r <= length s)%nat.
Proof.
  unfold lex_frac. destruct s as [|c s'].
  - intros H. injection H as <- <-. lia.
  - destruct (c =? 46)%N.
    + destruct (lex_digits s') as [[ds r']|] eqn:E; [|discriminate].
      intros H. injection H as <- <-.
      apply lex_digits_length in E. simpl. lia.
    + intros H. injection H as <- <-. lia.
Qed.

Lemma lex_exp_length (s l r : jsstring) :
  lex_exp s = Some (l, r) -> (length r <= length s)%nat.
Proof.
  unfold lex_exp. destruct s as [|c s'].
  - intros H. injection H as <- <-. lia.
  - destruct ((c =? 101) || (c =? 69))%N.
    + destruct (lex_optional 43 45 s') as [esign r0] eqn:E0.
      destruct (lex_digits r0) as [[ds r']|] eqn:E; [|discriminate].
      intros H. injection H as <- <-.
      apply lex_digits_length in E. apply lex_optional_length in E0.
      simpl. lia.
    + intros H. injection H as <- <-. lia.
Qed.

Lemma lex_number_length (s l r : jsstring) :
  lex_number s = Some (l, r) -> (length r < length s)%nat.
Proof.
  unfold lex_number.
  destruct (lex_optional 45 45 s) as [sign s1] eqn:E1.
  destruct (lex_int s1) as [[int s2]|] eqn:E2; [|discriminate].
  destruct (lex_frac s2) as [[frac s3]|] eqn:E3; [|discriminate].
  destruct (lex_exp s3) as [[exp s4]|] eqn:E4; [|discriminate].
  intros H. injection H as <- <-.
  apply lex_optional_length in E1. apply lex_int_length in E2.
  apply lex_frac_length in E3. apply lex_exp_length in E4. lia.
Qed.

(** The three parsers, one step unfolded. *)
Lemma parse_value_S (f : nat) (s : jsstring) :
  parse_value (S f) s =
      match skip_ws s with
      | [] => None
      | c :: r =>
          if (c =? 34)%N then
            let? (str, r') := parse_string_body r in Some (JStr str, r')
          else if (c =? 91)%N then
            match skip_ws r with
            | [] => None
            | x :: r' =>
                if (x =? 93)%N then Some (JArr [], r')
                else let? (vs, r'') := parse_elements f r in Some (JArr vs, r'')
            end
          else if (c =? 123)%N then
            match skip_ws r with
            | [] => None
            | x :: r' =>
                if (x =? 125)%N then Some (JObj [], r')
                else let? (ms, r'') := parse_members f r in
                     Some (JObj (obj_of_members ms), r'')
            end
          else if (c =? 116)%N then
            let? r' := read_lit (lit "rue") r in Some (JBool true, r')
          else if (c =? 102)%N then
            let? r' := read_lit (lit "alse") r in Some (JBool false, r')
          else if (c =? 110)%N then
            let? r' := read_lit (lit "ull") r in Some (JNull, r')
          else
            let? (l, r') := lex_number (c :: r) in Some (JNum l, r')
      end.
Proof. reflexivity. Qed.

Lemma parse_elements_S (f : nat) (s : jsstring) :
  parse_elements (S f) s =
      let? (v, r) := parse_value f s in
      match skip_ws r with
      | [] => None
      | x :: r' =>
          if (x =? 44)%N then
            let? (vs, r'') := parse_elements f r' in Some (v :: vs, r'')
          else if (x =? 93)%N then Some ([v], r')
          else None
      end.
Proof. reflexivity. Qed.

Lemma parse_members_S (f : nat) (s : jsstring) :
  parse_members (S f) s =
      match skip_ws s with
      | [] => None
      | q :: r =>
          if (q =? 34)%N then
            let? (k, r1) := parse_string_body r in
            match skip_ws r1 with
            | [] => None
            | x :: r2 =>
                if (x =? 58)%N then
                  let? (v, r3) := parse_value f r2 in
                  match skip_ws r3 with
                  | [] => None
                  | y :: r4 =>
                      if (y =? 44)%N then
                        let? (ms, r5) := parse_members f r4 in
                        Some ((k, v) :: ms, r5)
                      else if (y =? 125)%N then Some ([(k, v)], r4)
                      else None
                  end
                else None
            end
          else None
      end.
Proof. reflexivity. Qed.

(** Every parser call that succeeds consumes at least one character. *)
Lemma parse_consumes (fuel : nat) :
  (forall s v r, parse_value fuel s = Some (v, r) -> (length r < length s)%nat) /\
  (forall s vs r, parse_elements fuel s = Some (vs, r) -> (length r < length s)%nat) /\
  (forall s ms r, parse_members fuel s = Some (ms, r) -> (length r < length s)%nat).
Proof.
  induction fuel as [|f (IHv & IHe & IHm)];
    [repeat split; intros; discriminate|].
  repeat split.
  - intros s v r H. rewrite parse_value_S in H.
    pose proof (skip_ws_length s) as Hs.
    destruct (skip_ws s) as [|c s1]; [discriminate H|]. simpl in Hs.
    destruct (c =? 34)%N.
    { destruct (parse_string_body s1) as [[str r']|] eqn:E; [|discriminate H].
      injection H as <- <-. apply parse_string_body_length in E. lia. }
    destruct (c =? 91)%N.
    { pose proof (skip_ws_length s1) as Hs1.
      destruct (skip_ws s1) as [|x s2]; [discriminate H|]. simpl in Hs1.
      destruct (x =? 93)%N.
      - injection H as <- <-. lia.
      - destruct (parse_elements f s1) as [[vs r']|] eqn:E; [|discriminate H].
        injection H as <- <-. apply IHe in E. lia. }
    destruct (c =? 123)%N.
    { pose proof (skip_ws_length s1) as Hs1.
      destruct (skip_ws s1) as [|x s2]; [discriminate H|]. simpl in Hs1.
      destruct (x =? 125)%N.
      - injection H as <- <-. lia.
      - destruct (parse_members f s1) as [[ms r']|] eqn:E; [|discriminate H].
        injection H as <- <-. apply IHm in E. lia. }
    destruct (c =? 116)%N.
    { destruct (read_lit (lit "rue") s1) as [r'|] eqn:E; [|discriminate H].
      injection H as <- <-. apply read_lit_length in E. lia. }
    destruct (c =? 102)%N.
    { destruct (read_lit (lit "alse") s1) as [r'|] eqn:E; [|discriminate H].
      injection H as <- <-. apply read_lit_length in E. lia. }
    destruct (c =? 110)%N.
    { destruct (read_lit (lit "ull") s1) as [r'|] eqn:E; [|discriminate H].
      injection H as <- <-. apply read_lit_length in E. lia. }
    destruct (lex_number (c :: s1)) as [[l r']|] eqn:E; [|discriminate H].
    injection H as <- <-. apply lex_number_length in E. simpl in E. lia.
  - intros s vs r H. rewrite parse_elements_S in H.
    destruct (parse_value f s) as [[v r1]|] eqn:E; [|discriminate H].
    apply IHv in E.
    pose proof (skip_ws_length r1) as Hs1.
    destruct (skip_ws r1) as [|x r2]; [discriminate H|]. simpl in Hs1.
    destruct (x =? 44)%N.
    + destruct (parse_elements f r2) as [[vs' r']|] eqn:E'; [|discriminate H].
      injection H as <- <-. apply IHe in E'. lia.
    + destruct (x =? 93)%N; [|discriminate H].
      injection H as <- <-. lia.
  - intros s ms r H. rewrite parse_members_S in H.
    pose proof (skip_ws_length s) as Hs.
    destruct (skip_ws s) as [|q s1]; [discriminate H|]. simpl in Hs.
    destruct (q =? 34)%N; [|discriminate H].
    destruct (parse_string_body s1) as [[k r1]|] eqn:Ek; [|discriminate H].
    apply parse_string_body_length in Ek.
    pose proof (skip_ws_length r1) as Hs1.
    destruct (skip_ws r1) as [|x r2]; [discriminate H|]. simpl in Hs1.
    destruct (x =? 58)%N; [|discriminate H].
    destruct (parse_value f r2) as [[v r3]|] eqn:Ev; [|discriminate H].
    apply IHv in Ev.
    pose proof (skip_ws_length r3) as Hs3.
    destruct (skip_ws r3) as [|y r4]; [discriminate H|]. simpl in Hs3.
    destruct (y =? 44)%N.
    + destruct (parse_members f r4) as [[ms' r']|] eqn:E'; [|discriminate H].
      injection H as <- <-. apply IHm in E'. lia.
    + destruct (y =? 125)%N; [|discriminate H].
      injection H as <- <-. lia.
Qed.

(** The result of a parser call does not depend on the fuel, once the
    fuel is twice the length of the text: [JSON_parse] never fails for
    want of fuel. *)
Lemma parse_fuel_stable (f : nat) :
  (forall s f', (2 * length s <= f)%nat -> (2 * length s <= f')%nat ->
                parse_value f s = parse_value f' s) /\
  (forall s f', (2 * length s + 1 <= f)%nat -> (2 * length s + 1 <= f')%nat ->
                parse_elements f s = parse_elements f' s) /\
  (forall s f', (2 * length s + 1 <= f)%nat -> (2 * length s + 1 <= f')%nat ->
                parse_members f s = parse_members f' s).
Proof.
  induction f as [|g (IHv & IHe & IHm)].
  - repeat split; intros s f' Hf Hf'; try lia.
    destruct s; [|simpl in Hf; lia]. destruct f'; reflexivity.
  - repeat split; intros s f' Hf Hf'.
    + destruct f' as [|g'].
      { destruct s; [reflexivity | simpl in Hf'; lia]. }
      rewrite !parse_value_S.
      pose proof (skip_ws_length s) as Hs.
      destruct (skip_ws s) as [|c s1]; [reflexivity|]. simpl in Hs.
      pose proof (skip_ws_length s1) as Hs1.
      rewrite (IHe s1 g') by lia. rewrite (IHm s1 g') by lia.
      reflexivity.
    + destruct f' as [|g']; [lia|].
      rewrite !parse_elements_S.
      rewrite (IHv s g') by lia.
      destruct (parse_value g' s) as [[v r1]|] eqn:E; [|reflexivity].
      apply (proj1 (parse_consumes g')) in E.
      pose proof (skip_ws_length r1) as Hs1.
      destruct (skip_ws r1) as [|x r2]; [reflexivity|]. simpl in Hs1.
      rewrite (IHe r2 g') by lia. reflexivity.
    + destruct f' as [|g']; [lia|].
      rewrite !parse_members_S.
      pose proof (skip_ws_length s) as Hs.
      destruct (skip_ws s) as [|q s1]; [reflexivity|]. simpl in Hs.
      destruct (q =? 34)%N; [|reflexivity].
      destruct (parse_string_body s1) as [[k r1]|] eqn:Ek; [|reflexivity].
      apply parse_string_body_length in Ek.
      pose proof (skip_ws_length r1) as Hs1.
      destruct (skip_ws r1) as [|x r2]; [reflexivity|]. simpl in Hs1.
      destruct (x =? 58)%N; [|reflexivity].
      rewrite (IHv r2 g') by lia.
      destruct (parse_value g' r2) as [[v r3]|] eqn:Ev; [|reflexivity].
      apply (proj1 (parse_consumes g')) in Ev.
      pose proof (skip_ws_length r3) as Hs3.
      destruct (skip_ws r3) as [|y r4]; [reflexivity|]. simpl in Hs3.
      rewrite (IHm r4 g') by lia. reflexivity.
Qed.

Lemma JSON_parse_fuel (text : jsstring) (f : nat) :
  (2 * length text <= f)%nat ->
  parse_value f text = parse_value (2 * length text + 2) text.
Proof. intros Hf. apply (proj1 (parse_fuel_stable f)); lia. Qed.

(** ** The JSON text round trip *)

Lemma hex_value_hex_char (d : N) :
  (d < 16)%N -> hex_value (hex_char d) = Some d.
Proof.
  intros Hd.
  destruct d as [|p]; [reflexivity|].
  do 4 (destruct p as [p|p|]; try reflexivity; try (exfalso; lia)).
Qed.

Lemma hex4_digits (c : N) :
  (c < 65536)%N ->
  hex4 (hex_char ((c / 4096) mod 16)) (hex_char ((c / 256) mod 16))
       (hex_char ((c / 16) mod 16)) (hex_char (c mod 16)) = Some c.
Proof.
  intros Hc. unfold hex4.
  rewrite !hex_value_hex_char by (apply N.mod_lt; discriminate).
  f_equal. zify. zdiv.
Qed.

Lemma parse_escape_u (c : N) (X : jsstring) :
  (c < 65536)%N ->
  parse_string_body (escape_u c ++ X) =
    match parse_string_body X with
    | Some (str, rest) => Some (c :: str, rest)
    | None => None
    end.
Proof.
  intros Hc. unfold escape_u. simpl. rewrite hex4_digits by exact Hc.
  reflexivity.
Qed.

Lemma parse_quote_unit (c : N) (X : jsstring) :
  parse_string_body (quote_unit c ++ X) =
    match parse_string_body X with
    | Some (str, rest) => Some (c :: str, rest)
    | None => None
    end.
Proof.
  unfold quote_unit.
  destruct (N.eqb_spec c 8) as [->|H8]; [reflexivity|].
  destruct (N.eqb_spec c 9) as [->|H9]; [reflexivity|].
  destruct (N.eqb_spec c 10) as [->|H10]; [reflexivity|].
  destruct (N.eqb_spec c 12) as [->|H12]; [reflexivity|].
  destruct (N.eqb_spec c 13) as [->|H13]; [reflexivity|].
  destruct (N.eqb_spec c 34) as [->|H34]; [reflexivity|].
  destruct (N.eqb_spec c 92) as [->|H92]; [reflexivity|].
  destruct (N.ltb_spec c 32) as [H32|H32]; [apply parse_escape_u; lia|].
  destruct (is_high_surrogate c || is_low_surrogate c) eqn:Hsur.
  - apply parse_escape_u.
    unfold is_high_surrogate, is_low_surrogate in Hsur.
    apply orb_prop in Hsur as [H|H]; apply andb_prop in H as [_ H];
      apply N.leb_le in H; lia.
  - simpl.
    replace (c =? 34)%N with false by (symmetry; apply N.eqb_neq; exact H34).
    replace (c =? 92)%N with false by (symmetry; apply N.eqb_neq; exact H92).
    replace (c <? 32)%N with false by (symmetry; apply N.ltb_ge; exact H32).
    reflexivity.
Qed.

Lemma parse_literal_unit (c : N) (X : jsstring) :
  (55296 <= c)%N ->
  parse_string_body (c :: X) =
    match parse_string_body X with
    | Some (str, rest) => Some (c :: str, rest)
    | None => None
    end.
Proof.
  intros Hc. simpl.
  replace (c =? 34)%N with false by (symmetry; apply N.eqb_neq; lia).
  replace (c =? 92)%N with false by (symmetry; apply N.eqb_neq; lia).
  replace (c <? 32)%N with false by (symmetry; apply N.ltb_ge; lia).
  reflexivity.
Qed.

(** A quoted string is read back. *)
Lemma parse_string_quote (s rest : jsstring) :
  parse_string_body (quote_body s ++ 34%N :: rest) = Some (s, rest).
Proof.
  assert (H : forall n s, (length s <= n)%nat ->
            parse_string_body (quote_body s ++ 34%N :: rest) = Some (s, rest)).
  { clear s. induction n as [|n IH]; intros s Hn.
    - destruct s; [reflexivity | simpl in Hn; lia].
    - destruct s as [|c s']; [reflexivity|].
      simpl in Hn.
      change (quote_body (c :: s')) with
        (if is_high_surrogate c then
           match s' with
           | d :: s'' =>
               if is_low_surrogate d then c :: d :: quote_body s''
               else quote_unit c ++ quote_body s'
           | [] => quote_unit c
           end
         else quote_unit c ++ quote_body s').
      destruct (is_high_surrogate c) eqn:Hh.
      + destruct s' as [|d s''].
        * rewrite parse_quote_unit. reflexivity.
        * destruct (is_low_surrogate d) eqn:Hl.
          -- simpl in Hn.
             unfold is_high_surrogate in Hh. apply andb_prop in Hh as [Hh _].
             unfold is_low_surrogate in Hl. apply andb_prop in Hl as [Hl _].
             apply N.leb_le in Hh, Hl.
             change ((c :: d :: quote_body s'') ++ 34%N :: rest)
               with (c :: d :: (quote_body s'' ++ 34%N :: rest)).
             rewrite parse_literal_unit by lia.
             rewrite parse_literal_unit by lia.
             rewrite IH by lia. reflexivity.
          -- rewrite <- app_assoc, parse_quote_unit, IH by lia. reflexivity.
      + rewrite <- app_assoc, parse_quote_unit, IH by lia. reflexivity. }
  apply (H (length s)). lia.
Qed.

(** Induction over JSON values, with the hypothesis for every element of
    an array and every property value of an object. *)
Lemma json_ind' (P : json -> Prop) :
  P JNull ->
  (forall b, P (JBool b)) ->
  (forall l, P (JNum l)) ->
  (forall s, P (JStr s)) ->
  (forall items, Forall P items -> P (JArr items)) ->
  (forall props, Forall (fun kv => P (snd kv)) props -> P (JObj props)) ->
  forall j, P j.
Proof.
  intros HNull HBool HNum HStr HArr HObj.
  refine (fix F (j : json) : P j :=
            match j with
            | JNull => HNull
            | JBool b => HBool b
            | JNum l => HNum l
            | JStr s => HStr s
            | JArr items =>
                HArr items
                  ((fix G (l : list json) : Forall P l :=
                      match l with
                      | [] => Forall_nil P
                      | x :: l' => Forall_cons x (F x) (G l')
                      end) items)
            | JObj props =>
                HObj props
                  ((fix G (l : list (jsstring * json))
                      : Forall (fun kv => P (snd kv)) l :=
                      match l with
                      | [] => Forall_nil _
                      | kv :: l' => Forall_cons kv (F (snd kv)) (G l')
                      end) props)
            end).
Qed.


Section PrintParse.

Variable host : Host.

Lemma print_starts_value (j : json) (rest : jsstring) :
  plain j -> starts_value (print_json host j ++ rest).
Proof.
  intros Hj. unfold starts_value.
  destruct Hj as [|[|]|s|items _|props _ _]; simpl; eauto 12.
Qed.

Lemma starts_value_skip_ws (s : jsstring) :
  starts_value s -> skip_ws s = s.
Proof.
  intros (c & tl & -> & Hc). simpl.
  repeat (destruct Hc as [-> | Hc]; [reflexivity|]). subst c. reflexivity.
Qed.

Lemma parse_value_array (f : nat) (X : jsstring) :
  starts_value X ->
  parse_value (S f) (91%N :: X) =
    match parse_elements f X with
    | Some (vs, r) => Some (JArr vs, r)
    | None => None
    end.
Proof.
  intros (c & tl & -> & Hc).
  repeat (destruct Hc as [-> | Hc]; [reflexivity|]). subst c. reflexivity.
Qed.

Lemma parse_value_object (f : nat) (X : jsstring) :
  parse_value (S f) (123%N :: 34%N :: X) =
    match parse_members f (34%N :: X) with
    | Some (ms, r) => Some (JObj (obj_of_members ms), r)
    | None => None
    end.
Proof. reflexivity. Qed.

Lemma need_pos (j : json) : (1 <= need j)%nat.
Proof. destruct j; simpl; lia. Qed.

(** The elements of a non-empty array, up to the closing bracket. *)
Lemma parse_elements_print (items : list json) :
  Forall (fun j => plain j -> forall fuel rest, (need j <= fuel)%nat ->
            parse_value fuel (print_json host j ++ rest) = Some (j, rest)) items ->
  Forall plain items ->
  items <> [] ->
  forall fuel rest, (need_list (map need items) <= fuel)%nat ->
    parse_elements fuel (join_comma (map (print_json host) items) ++ 93%N :: rest)
    = Some (items, rest).
Proof.
  induction items as [|x l IHl]; intros HP Hplain Hne fuel rest Hfuel;
    [contradiction|].
  inversion HP as [|? ? HPx HPl]; subst.
  inversion Hplain as [|? ? Hx Hl]; subst.
  simpl in Hfuel. destruct fuel as [|f]; [lia|].
  apply le_S_n in Hfuel.
  destruct l as [|y l'].
  - simpl. rewrite (HPx Hx) by lia. reflexivity.
  - change (join_comma (map (print_json host) (x :: y :: l')))
      with (print_json host x ++ [44%N] ++
            join_comma (map (print_json host) (y :: l'))).
    rewrite <- !app_assoc.
    simpl parse_elements.
    rewrite (HPx Hx) by lia.
    simpl skip_ws. cbv iota.
    rewrite (IHl HPl Hl) by (try discriminate; lia).
    reflexivity.
Qed.

(** The members of a non-empty object, up to the closing brace. *)
Lemma parse_members_print (props : list (jsstring * json)) :
  Forall (fun kv => plain (snd kv) -> forall fuel rest, (need (snd kv) <= fuel)%nat ->
            parse_value fuel (print_json host (snd kv) ++ rest)
            = Some (snd kv, rest)) props ->
  Forall (fun kv => plain (snd kv)) props ->
  props <> [] ->
  forall fuel rest,
    (need_list (map (fun kv => need (snd kv)) props) <= fuel)%nat ->
    parse_members fuel (join_comma (map (print_member (print_json host)) props) ++ 125%N :: rest)
    = Some (props, rest).
Proof.
  induction props as [|[k v] l IHl]; intros HP Hplain Hne fuel rest Hfuel;
    [contradiction|].
  inversion HP as [|? ? HPx HPl]; subst.
  inversion Hplain as [|? ? Hx Hl]; subst.
  simpl in HPx, Hx.
  simpl in Hfuel. destruct fuel as [|f]; [lia|].
  apply le_S_n in Hfuel.
  destruct l as [|y l'].
  - simpl join_comma. unfold print_member, quote. simpl fst. simpl snd.
    rewrite <- !app_assoc. simpl.
    rewrite parse_string_quote. simpl.
    rewrite (HPx Hx) by lia. reflexivity.
  - change (join_comma (map (print_member (print_json host)) ((k, v) :: y :: l')))
      with (print_member (print_json host) (k, v) ++ [44%N] ++
            join_comma (map (print_member (print_json host)) (y :: l'))).
    unfold print_member at 1, quote. simpl fst. simpl snd.
    rewrite <- !app_assoc. simpl.
    rewrite parse_string_quote. simpl.
    rewrite (HPx Hx) by lia. simpl.
    rewrite (IHl HPl Hl) by (try discriminate; lia).
    reflexivity.
Qed.

(** [JSON.parse] reads back what [JSON.stringify] prints, given enough
    fuel. *)
Lemma parse_value_print (j : json) :
  plain j ->
  forall fuel rest, (need j <= fuel)%nat ->
    parse_value fuel (print_json host j ++ rest) = Some (j, rest).
Proof.
  induction j as [|b|l|s|items IH|props IH] using json_ind';
    intros Hplain fuel rest Hfuel;
    (destruct fuel as [|f]; [simpl in Hfuel; lia|]).
  - reflexivity.
  - destruct b; reflexivity.
  - inversion Hplain.
  - unfold print_json, quote. rewrite <- !app_assoc. simpl.
    rewrite parse_string_quote. reflexivity.
  - inversion Hplain as [| | |? Hitems|]; subst.
    simpl in Hfuel. apply le_S_n in Hfuel.
    destruct items as [|x l].
    + reflexivity.
    + change (print_json host (JArr (x :: l)))
        with ([91%N] ++ join_comma (map (print_json host) (x :: l)) ++ [93%N]).
      rewrite <- !app_assoc.
      change ([91%N] ++ join_comma (map (print_json host) (x :: l)) ++ [93%N] ++ rest)
        with (91%N :: (join_comma (map (print_json host) (x :: l)) ++ 93%N :: rest)).
      rewrite parse_value_array.
      * rewrite (parse_elements_print (x :: l) IH Hitems)
          by (try discriminate; lia).
        reflexivity.
      * inversion Hitems; subst. destruct l as [|y l'].
        -- simpl join_comma. apply print_starts_value. assumption.
        -- change (join_comma (map (print_json host) (x :: y :: l')))
             with (print_json host x ++ [44%N] ++
                   join_comma (map (print_json host) (y :: l'))).
           rewrite <- app_assoc. apply print_starts_value. assumption.
  - inversion Hplain as [| | | |? Hnorm Hprops]; subst.
    simpl in Hfuel. apply le_S_n in Hfuel.
    destruct props as [|[k v] l].
    + reflexivity.
    + change (print_json host (JObj ((k, v) :: l)))
        with ([123%N] ++
              join_comma (map (print_member (print_json host)) ((k, v) :: l)) ++
              [125%N]).
      rewrite <- !app_assoc.
      change ([125%N] ++ rest) with (125%N :: rest).
      assert (Hhead : exists tl,
                join_comma (map (print_member (print_json host)) ((k, v) :: l)) ++
                125%N :: rest = 34%N :: tl).
      { destruct l as [|y l']; simpl; unfold print_member, quote; simpl; eauto. }
      destruct Hhead as (tl & Hhead).
      pose proof (parse_members_print ((k, v) :: l) IH Hprops
                    ltac:(discriminate) f rest ltac:(lia)) as Hm.
      rewrite Hhead in Hm |- *.
      change ([123%N] ++ 34%N :: tl) with (123%N :: 34%N :: tl).
      rewrite parse_value_object, Hm, Hnorm. reflexivity.
Qed.

Lemma need_list_bound {A : Type} (need' : A -> nat) (print : A -> jsstring)
    (l : list A) :
  Forall (fun x => (need' x <= length (print x))%nat) l ->
  (need_list (map need' l) <= length (join_comma (map print l)) + 1)%nat.
Proof.
  induction l as [|x l IH]; intros H; [simpl; lia|].
  inversion H as [|? ? Hx Hl]; subst. specialize (IH Hl).
  destruct l as [|y l'].
  - simpl. lia.
  - change (join_comma (map print (x :: y :: l')))
      with (print x ++ [44%N] ++ join_comma (map print (y :: l'))).
    change (need_list (map need' (x :: y :: l')))
      with (S (Nat.max (need' x) (need_list (map need' (y :: l'))))).
    rewrite !length_app. simpl length at 2. lia.
Qed.

Lemma need_le_length (j : json) :
  plain j -> (need j <= length (print_json host j))%nat.
Proof.
  induction j as [|b|l|s|items IH|props IH] using json_ind'; intros Hplain.
  - simpl. lia.
  - destruct b; simpl; lia.
  - inversion Hplain.
  - unfold print_json, quote. rewrite !length_app. simpl. lia.
  - inversion Hplain as [| | |? Hitems|]; subst.
    change (print_json host (JArr items))
      with ([91%N] ++ join_comma (map (print_json host) items) ++ [93%N]).
    rewrite !length_app. simpl.
    pose proof (need_list_bound need (print_json host) items) as Hb.
    assert (Hall : Forall (fun x => (need x <= length (print_json host x))%nat) items).
    { clear Hb Hplain. induction items as [|x l IHl]; constructor.
      - inversion IH; inversion Hitems; subst. auto.
      - inversion IH; inversion Hitems; subst. auto. }
    specialize (Hb Hall). lia.
  - inversion Hplain as [| | | |? Hnorm Hprops]; subst.
    change (print_json host (JObj props))
      with ([123%N] ++ join_comma (map (print_member (print_json host)) props) ++
            [125%N]).
    rewrite !length_app. simpl.
    pose proof (need_list_bound (fun kv => need (snd kv))
                  (print_member (print_json host)) props) as Hb.
    assert (Hall : Forall (fun kv => (need (snd kv) <=
                     length (print_member (print_json host) kv))%nat) props).
    { clear Hb Hplain Hnorm. induction props as [|x l IHl]; constructor.
      - inversion IH; inversion Hprops; subst.
        unfold print_member. rewrite !length_app. 
        assert (need (snd x) <= length (print_json host (snd x)))%nat by auto.
        lia.
      - inversion IH; inversion Hprops; subst. auto. }
    specialize (Hb Hall). lia.
Qed.

(** [JSON.parse(JSON.stringify(j)) = j] for the plain values. *)
Lemma JSON_parse_print (j : json) :
  plain j -> JSON_parse (print_json host j) = Some j.
Proof.
  intros Hplain. unfold JSON_parse.
  pose proof (need_le_length j Hplain) as Hneed.
  rewrite <- (app_nil_r (print_json host j)) at 2.
  rewrite (parse_value_print j Hplain) by lia.
  reflexivity.
Qed.

End PrintParse.

(** ** Loading and saving *)

(** When the load effect installs records, the second render runs the
    save effect with the first-render flag already cleared. *)
Lemma mount_loaded (host : Host) (w : World) (text' : jsstring) (os : list object) :
  stored w = Some text' ->
  parse_todos host text' = Some os ->
  mount host w =
    save_effect host (mkHook os true false) w.
Proof.
  intros Hs Hp. unfold mount, load_effect. rewrite Hs.
  destruct text' as [|c text']; [discriminate Hp|].
  simpl truthy_str. cbv iota. rewrite Hp. reflexivity.
Qed.

(** The load effect never touches the storage. *)
Lemma load_effect_stored (host : Host) (w : World) :
  stored (snd (load_effect host w)) = stored w.
Proof.
  unfold load_effect.
  destruct (stored w) as [t|] eqn:Hs; [|exact Hs].
  destruct (truthy_str t); [|exact Hs].
  destruct (parse_todos host t); exact Hs.
Qed.

(** When the load effect installs nothing, mounting writes nothing. *)
Lemma mount_not_loaded (host : Host) (w : World) :
  fst (load_effect host w) = None ->
  mount host w = (mkHook [] true false, snd (load_effect host w)).
Proof.
  unfold mount. destruct (load_effect host w) as [pending w'].
  simpl. intros ->. reflexivity.
Qed.

(** After mounting, every state update is written. *)
Lemma dispatch_writes (host : Host) (updater : list object -> list object)
    (h : Hook) (w : World) :
  isFirstRender h = false -> quota w = None ->
  dispatch host updater h w =
    (mkHook (updater (todos h)) (isInitialized h) false,
     mkWorld (Some (JSON_stringify host (updater (todos h)))) None
       (SetItem STORAGE_KEY (JSON_stringify host (updater (todos h))) :: trace w)).
Proof.
  intros Hf Hq. unfold dispatch, commit, save_effect, setItem. simpl.
  rewrite Hf, Hq. reflexivity.
Qed.

(** C2, where the code departs from it.  Whenever the load effect installs
    what it parsed (the stored text is an array the callback accepts,
    the empty array included), mounting the hook ends with a [setItem]
    call: the save effect of the second render writes the collection
    just read back to the storage. *)
Theorem mount_writes_back (host : Host) (w : World) (text' : jsstring)
    (os : list object) :
  stored w = Some text' ->
  parse_todos host text' = Some os ->
  quota w = None ->
  mount host w =
    (mkHook os true false,
     mkWorld (Some (JSON_stringify host os)) None
       (SetItem STORAGE_KEY (JSON_stringify host os) :: trace w)).
Proof.
  intros Hs Hp Hq. rewrite (mount_loaded host w text' os Hs Hp).
  unfold save_effect, setItem. simpl. rewrite Hq. reflexivity.
Qed.

(** C2, at the failing input: with one stored record, the text written
    back is the text that was read. *)
Lemma mount_writes_back_witness :
  let text' := quoted_lit "[{'id':'1','text':'Buy milk','completed':false,'createdAt':'2025-01-01T12:00:00.000Z'}]" in
  let w := mkWorld (Some text') None [] in
  exists os,
    mount utc_host w =
      (mkHook os true false,
       mkWorld (Some (JSON_stringify utc_host os)) None
         [SetItem STORAGE_KEY (JSON_stringify utc_host os)]) /\
    JSON_stringify utc_host os = text' /\ length os = 1%nat.
Proof.
  eexists. split.
  - refine (mount_writes_back utc_host (mkWorld (Some _) None []) _ _
              eq_refl _ eq_refl).
    vm_compute. reflexivity.
  - split; vm_compute; reflexivity.
Defined.

(** C4, counterexample.  A stored array whose record lacks [completed]
    and [createdAt] is installed as it is, with an invalid [createdAt];
    nothing is reported. *)
Lemma load_installs_incomplete_records :
  let text' := quoted_lit "[{'id':'1','text':'Buy milk'}]" in
  let w := mkWorld (Some text') None [] in
  todos (fst (mount utc_host w)) =
    [[(lit "id", VJson (JStr (lit "1")));
      (lit "text", VJson (JStr (lit "Buy milk")));
      (lit "createdAt", VDate InvalidDate);
      (lit "dueDate", VUndefined)]] /\
  (forall message, ~ In (ConsoleError message) (trace (snd (mount utc_host w)))).
Proof.
  vm_compute. split; [reflexivity|].
  intros message [H|[]]. discriminate H.
Qed.

(** C4, as amended.  For a non-empty stored string that [JSON.parse]
    rejects, or that parses to anything but an array, mounting the hook
    throws nothing: the error is reported once, the collection stays
    empty and the stored string is not touched. *)
Theorem load_fails_soft (host : Host) (w : World) (text' : jsstring) :
  stored w = Some text' ->
  text' <> [] ->
  (forall items, JSON_parse text' <> Some (JArr items)) ->
  mount host w =
    (mkHook [] true false,
     mkWorld (stored w) (quota w)
       (ConsoleError (lit "Failed to load todos from localStorage:") :: trace w)).
Proof.
  intros Hs Hne Hparse.
  assert (Hp : parse_todos host text' = None).
  { unfold parse_todos. destruct (JSON_parse text') as [j|]; [|reflexivity].
    destruct j; try reflexivity. exfalso. exact (Hparse items eq_refl). }
  unfold mount, load_effect. rewrite Hs.
  destruct text' as [|c text']; [congruence|].
  simpl truthy_str. cbv iota. rewrite Hp.
  unfold save_effect, console_error. simpl. rewrite Hs. reflexivity.
Qed.

(** C4, witness: the corrupted value of the repository's test. *)
Lemma load_fails_soft_witness :
  mount utc_host (mkWorld (Some (lit "invalid-json")) None []) =
    (mkHook [] true false,
     mkWorld (Some (lit "invalid-json")) None
       [ConsoleError (lit "Failed to load todos from localStorage:")]).
Proof.
  exact (load_fails_soft utc_host (mkWorld (Some (lit "invalid-json")) None [])
           (lit "invalid-json") eq_refl
           ltac:(discriminate) ltac:(intros items; vm_compute; discriminate)).
Defined.

(** ** Saving and loading a collection *)

Section SaveLoad.

Variable host : Host.

Lemma stringify_Todo_object (t : Todo) :
  stringify_object host (Todo_object t) = print_json host (todo_json t).
Proof.
  destruct t as [i tx c cr du ca].
  unfold stringify_object, Todo_object, todo_json, date_json.
  cbn [dueDate category id text completed createdAt].
  destruct c, du as [d|], ca as [cat|];
    unfold stringify_props, stringify_value;
    destruct (Date_toJSON cr); try destruct (Date_toJSON d); reflexivity.
Qed.

Lemma JSON_stringify_todos (l : list Todo) :
  JSON_stringify host (map Todo_object l) =
  print_json host (JArr (map todo_json l)).
Proof.
  unfold JSON_stringify. simpl. rewrite !map_map.
  do 3 f_equal. apply map_ext. exact stringify_Todo_object.
Qed.

Lemma plain_todo_json (t : Todo) : plain (todo_json t).
Proof.
  destruct t as [i tx c cr du ca].
  unfold todo_json, date_json. simpl.
  destruct (Date_toJSON cr), du as [d|], ca as [cat|];
    try destruct (Date_toJSON d);
    (apply plain_obj; [reflexivity | repeat constructor]).
Qed.

Lemma toISOString_truthy (t : Z) : truthy_str (toISOString t) = true.
Proof.
  unfold toISOString. destruct (iso_year (YearFromTime t)); reflexivity.
Qed.

Ltac revive_case :=
  eexists; split;
  [ cbv - [toISOString Date_parse truthy_str];
    rewrite ?toISOString_truthy;
    rewrite !Date_parse_toISOString by assumption;
    reflexivity
  | reflexivity ].

(** What the load callback makes of a saved record reads back as the
    record. *)
Lemma revive_todo_json (t : Todo) :
  valid_dates t ->
  exists o, revive host (todo_json t) = Some o /\ as_Todo o = Some t.
Proof.
  destruct t as [i tx c [cr] du ca].
  intros [(tv & Hcr & Htv) Hdu]. simpl in Hcr, Hdu. subst cr.
  destruct du as [[du]|].
  - destruct Hdu as (dv & Hd & Hdv). simpl in Hd. subst du.
    destruct ca as [cat|]; revive_case.
  - destruct ca as [cat|]; revive_case.
Qed.

Lemma map_revive_todo_json (l : list Todo) :
  Forall valid_dates l ->
  exists os, map_revive host (map todo_json l) = Some os /\
             map as_Todo os = map Some l.
Proof.
  induction l as [|t l IH]; intros Hvalid.
  - exists []. split; reflexivity.
  - inversion Hvalid as [|? ? Ht Hl]; subst.
    destruct (revive_todo_json t Ht) as (o & Ho & Hto).
    destruct (IH Hl) as (os & Hos & Htos).
    exists (o :: os). split.
    + change (map todo_json (t :: l)) with (todo_json t :: map todo_json l).
      unfold map_revive; fold (map_revive host). rewrite Ho, Hos. reflexivity.
    + simpl. rewrite Hto, Htos. reflexivity.
Qed.

Lemma parse_todos_stringify (l : list Todo) :
  Forall valid_dates l ->
  exists os, parse_todos host (JSON_stringify host (map Todo_object l)) = Some os /\
             map as_Todo os = map Some l.
Proof.
  intros Hvalid.
  destruct (map_revive_todo_json l Hvalid) as (os & Hos & Htos).
  exists os. split; [|exact Htos].
  unfold parse_todos. rewrite JSON_stringify_todos.
  rewrite JSON_parse_print.
  - exact Hos.
  - constructor. apply Forall_forall. intros j Hj.
    apply in_map_iff in Hj as (t & <- & _). apply plain_todo_json.
Qed.

Lemma as_Todo_dates (o : object) (t : Todo) :
  as_Todo o = Some t ->
  obj_get (lit "createdAt") o = Some (VDate (createdAt t)) /\
  (forall d, dueDate t = Some d -> obj_get (lit "dueDate") o = Some (VDate d)).
Proof.
  unfold as_Todo. intros H.
  destruct (obj_get (lit "id") o) as [[|[]|]|]; try discriminate H.
  destruct (obj_get (lit "text") o) as [[|[]|]|]; try discriminate H.
  destruct (obj_get (lit "completed") o) as [[|[]|]|]; try discriminate H.
  destruct (obj_get (lit "createdAt") o) as [[| |cr]|]; try discriminate H.
  destruct (obj_get (lit "dueDate") o) as [[| |du]|]; try discriminate H;
    destruct (obj_get (lit "category") o) as [[|[]|]|]; try discriminate H;
    injection H as <-; simpl; (split; [reflexivity|]); intros d Hd;
    congruence.
Qed.

End SaveLoad.

(** C6.  Saving a collection whose dates hold time values and loading
    what was saved gives objects that read back as the records saved: in
    particular [createdAt] and [dueDate] are [Date] values again, with
    the time values, in milliseconds, they had. *)
Theorem save_load_roundtrip (host : Host) (l : list Todo) (h : Hook) (w : World) :
  Forall valid_dates l ->
  todos h = map Todo_object l ->
  isFirstRender h = false ->
  quota w = None ->
  exists os,
    fst (load_effect host (snd (save_effect host h w))) = Some os /\
    map as_Todo os = map Some l /\
    Forall2 (fun t o =>
               obj_get (lit "createdAt") o = Some (VDate (createdAt t)) /\
               (forall d, dueDate t = Some d ->
                          obj_get (lit "dueDate") o = Some (VDate d)))
            l os.
Proof.
  intros Hvalid Htodos Hfirst Hquota.
  destruct (parse_todos_stringify host l Hvalid) as (os & Hparse & Hread).
  exists os.
  assert (Hload : fst (load_effect host (snd (save_effect host h w))) = Some os).
  { unfold save_effect, setItem. rewrite Hfirst, Hquota, Htodos.
    unfold load_effect. cbn [snd stored].
    assert (Hne : truthy_str (JSON_stringify host (map Todo_object l)) = true)
      by reflexivity.
    rewrite Hne, Hparse. reflexivity. }
  split; [exact Hload|]. split; [exact Hread|].
  clear Hparse Hload Htodos. revert os Hread.
  induction l as [|t l IH]; intros [|o os] Hread; try discriminate Hread.
  - constructor.
  - simpl in Hread. injection Hread as Ho Hos.
    inversion Hvalid; subst.
    constructor; [apply as_Todo_dates; exact Ho | apply IH; assumption].
Qed.

(** C6, witness: a record created 2025-01-01T12:00:00.000Z and due
    2025-12-25T23:59:59.999Z. *)
Lemma save_load_roundtrip_witness :
  let t := mkTodo (lit "k3x9") (lit "Buy milk") false
             (mkDate (Int 1735732800000)) (Some (mkDate (Int 1766707199999)))
             (Some (lit "home")) in
  exists os,
    fst (load_effect utc_host
           (snd (save_effect utc_host (mkHook [Todo_object t] true false)
                   (mkWorld None None [])))) = Some os /\
    map as_Todo os = [Some t] /\
    Forall2 (fun t o =>
               obj_get (lit "createdAt") o = Some (VDate (createdAt t)) /\
               (forall d, dueDate t = Some d ->
                          obj_get (lit "dueDate") o = Some (VDate d)))
            [t] os.
Proof.
  refine (save_load_roundtrip utc_host
            [mkTodo (lit "k3x9") (lit "Buy milk") false
               (mkDate (Int 1735732800000)) (Some (mkDate (Int 1766707199999)))
               (Some (lit "home"))]
            (mkHook _ true false) (mkWorld None None []) _ eq_refl eq_refl eq_refl).
  repeat constructor; simpl; eexists; (split; [reflexivity | lia]).
Defined.

(* ================================================================== *)
(** * Further properties *)

(** ** The updaters and the counts *)

Lemma completedCount_cons (t : Todo) (l : list Todo) :
  completedCount (t :: l) =
    ((if completed t then 1 else 0) + completedCount l)%nat.
Proof. unfold completedCount. simpl. destruct (completed t); reflexivity. Qed.

(** X1.  The counts follow the updates: [completedCount] never exceeds
    [totalCount]; [addTodo] raises [totalCount] by one and leaves
    [completedCount]; [toggleTodo] leaves [totalCount] and moves
    [completedCount] up by the pending records with the id and down by
    the completed ones; [deleteTodo] lowers each count by the records it
    removes. *)
Theorem counts_follow_updates (newId id' : jsstring) (now : Z) (text' : jsstring)
    (due : option Date) (cat : option jsstring) (l : list Todo) :
  let hit t := str_eqb (id t) id' in
  (completedCount l <= totalCount l)%nat /\
  totalCount (addTodo newId now text' due cat l) = S (totalCount l) /\
  completedCount (addTodo newId now text' due cat l) = completedCount l /\
  totalCount (toggleTodo id' l) = totalCount l /\
  (completedCount (toggleTodo id' l) +
     length (filter (fun t => hit t && completed t) l) =
   completedCount l +
     length (filter (fun t => hit t && negb (completed t)) l))%nat /\
  (totalCount (deleteTodo id' l) + length (filter hit l) = totalCount l)%nat /\
  (completedCount (deleteTodo id' l) +
     length (filter (fun t => hit t && completed t) l) = completedCount l)%nat.
Proof.
  cbn zeta. repeat split.
  - unfold completedCount, totalCount. apply filter_length_le.
  - unfold toggleTodo, totalCount. apply length_map.
  - induction l as [|t l IH]; [reflexivity|].
    change (toggleTodo id' (t :: l)) with
      ((if str_eqb (id t) id'
        then mkTodo (id t) (text t) (negb (completed t)) (createdAt t)
               (dueDate t) (category t)
        else t) :: toggleTodo id' l).
    rewrite !completedCount_cons. simpl filter.
    destruct (str_eqb (id t) id'), (completed t); simpl; lia.
  - unfold deleteTodo, totalCount.
    rewrite (filter_split_length (fun t => str_eqb (id t) id') l). lia.
  - induction l as [|t l IH]; [reflexivity|].
    unfold deleteTodo in *. simpl filter.
    destruct (str_eqb (id t) id'); simpl negb; cbv iota;
      rewrite ?completedCount_cons; destruct (completed t); simpl; lia.
Qed.

(** X2.  Updates of different kinds do not disturb each other: toggling
    and deleting commute (with equal or different ids), two toggles
    commute, two deletions commute, and deleting an id twice is deleting
    it once. *)
Theorem updaters_commute (a b : jsstring) (l : list Todo) :
  toggleTodo a (deleteTodo b l) = deleteTodo b (toggleTodo a l) /\
  toggleTodo a (toggleTodo b l) = toggleTodo b (toggleTodo a l) /\
  deleteTodo a (deleteTodo b l) = deleteTodo b (deleteTodo a l) /\
  deleteTodo a (deleteTodo a l) = deleteTodo a l.
Proof.
  repeat split.
  - unfold toggleTodo, deleteTodo.
    induction l as [|t l IH]; [reflexivity|].
    cbn [filter map].
    destruct (str_eqb (id t) b) eqn:Eb; destruct (str_eqb (id t) a) eqn:Ea;
      cbn [negb filter map id]; rewrite ?Ea, ?Eb; cbn [negb];
      rewrite IH; reflexivity.
  - unfold toggleTodo. rewrite !map_map. apply map_ext. intros t.
    destruct (str_eqb (id t) a) eqn:Ea; destruct (str_eqb (id t) b) eqn:Eb;
      simpl; rewrite ?Ea, ?Eb; reflexivity.
  - unfold deleteTodo.
    induction l as [|t l IH]; [reflexivity|]. simpl.
    destruct (str_eqb (id t) b) eqn:Eb; destruct (str_eqb (id t) a) eqn:Ea;
      simpl; rewrite ?Ea, ?Eb; simpl; rewrite IH; reflexivity.
  - unfold deleteTodo.
    induction l as [|t l IH]; [reflexivity|]. simpl.
    destruct (str_eqb (id t) a) eqn:Ea; simpl; rewrite ?Ea; simpl;
      rewrite IH; reflexivity.
Qed.

(** X3.  Deleting the id of a record just added takes that record out
    again, together with any older record of the same id; when the id
    was new, the collection is as before the addition. *)
Theorem delete_after_add (newId : jsstring) (now : Z) (text' : jsstring)
    (due : option Date) (cat : option jsstring) (prev : list Todo) :
  deleteTodo newId (addTodo newId now text' due cat prev) = deleteTodo newId prev /\
  (~ In newId (map id prev) ->
   deleteTodo newId (addTodo newId now text' due cat prev) = prev).
Proof.
  assert (H : deleteTodo newId (addTodo newId now text' due cat prev)
              = deleteTodo newId prev).
  { unfold deleteTodo, addTodo. simpl. rewrite str_eqb_refl. reflexivity. }
  split; [exact H|].
  intros Hnew. rewrite H. unfold deleteTodo. apply filter_all.
  intros t Ht. apply negb_true_iff. apply str_eqb_neq.
  intros E. apply Hnew. rewrite <- E. apply in_map. exact Ht.
Qed.

(** ** Moves by [reorderTodos] *)

(** The array [reorderTodos] returns, by what its first [splice] removes. *)
Lemma reorderTodos_shape (startIndex endIndex : Z) (prev : list Todo) :
  let k := clamp_index (length prev) startIndex in
  match nth_error prev k with
  | Some x =>
      let rest := firstn k prev ++ skipn (S k) prev in
      let j := clamp_index (length rest) endIndex in
      reorderTodos startIndex endIndex prev
        = map Some (firstn j rest ++ x :: skipn j rest)
  | None =>
      let j := clamp_index (length prev) endIndex in
      reorderTodos startIndex endIndex prev
        = firstn j (map Some prev) ++ None :: skipn j (map Some prev)
  end.
Proof.
  cbn zeta. unfold reorderTodos.
  pose proof (splice_delete_one startIndex (map Some prev)) as Hd.
  cbn zeta in Hd. rewrite length_map in Hd.
  set (k := clamp_index (length prev) startIndex) in *.
  destruct Hd as [[Hk Hd]|[x [Hx Hd]]]; rewrite Hd, splice_insert.
  - destruct (nth_error prev k) as [t|] eqn:Ht.
    + assert (H : nth_error prev k <> None) by congruence.
      apply nth_error_Some in H. lia.
    + rewrite length_map. reflexivity.
  - rewrite nth_error_map in Hx.
    destruct (nth_error prev k) as [t|] eqn:Ht; [|discriminate].
    simpl in Hx. injection Hx as <-.
    rewrite firstn_map, skipn_map, <- map_app, length_map.
    rewrite firstn_map, skipn_map, map_app. reflexivity.
Qed.

Lemma firstn_remove_at {A : Type} (k : nat) (l : list A) :
  (k <= length l)%nat ->
  firstn k (firstn k l ++ skipn (S k) l) = firstn k l /\
  skipn k (firstn k l ++ skipn (S k) l) = skipn (S k) l.
Proof.
  intros Hk.
  assert (Hlen : length (firstn k l) = k) by (rewrite length_firstn; lia).
  split.
  - rewrite firstn_app, Hlen, Nat.sub_diag. simpl. rewrite app_nil_r.
    rewrite firstn_firstn. f_equal. lia.
  - rewrite skipn_app, Hlen, Nat.sub_diag. simpl.
    rewrite <- Hlen at 1. rewrite skipn_all. reflexivity.
Qed.

Lemma insert_at_spec {A : Type} (j : nat) (x : A) (rest : list A) :
  (j <= length rest)%nat ->
  let l' := firstn j rest ++ x :: skipn j rest in
  nth_error l' j = Some x /\
  firstn j l' ++ skipn (S j) l' = rest /\
  length l' = S (length rest).
Proof.
  intros Hj l'.
  assert (Hlen : length (firstn j rest) = j) by (rewrite length_firstn; lia).
  repeat split.
  - unfold l'. rewrite nth_error_app2 by lia. rewrite Hlen, Nat.sub_diag.
    reflexivity.
  - unfold l'. rewrite firstn_app, Hlen, Nat.sub_diag. simpl firstn.
    rewrite app_nil_r, firstn_firstn, Nat.min_id.
    rewrite skipn_app, Hlen.
    replace (S j - j)%nat with 1%nat by lia.
    rewrite (skipn_all2 (n := S j)) by lia. simpl.
    apply firstn_skipn.
  - unfold l'. rewrite length_app. simpl.
    rewrite <- (firstn_skipn j rest) at 3. rewrite length_app. lia.
Qed.

Lemma clamp_index_in_range (len : nat) (i : nat) :
  (i <= len)%nat -> clamp_index len (Z.of_nat i) = i.
Proof.
  intros Hi. unfold clamp_index.
  destruct (Z.ltb_spec (Z.of_nat i) 0); lia.
Qed.

Lemma length_remove_at {A : Type} (k : nat) (x : A) (l : list A) :
  nth_error l k = Some x ->
  S (length (firstn k l ++ skipn (S k) l)) = length l.
Proof.
  intros Hx. rewrite (firstn_skipn_middle k x l Hx) at 3.
  rewrite !length_app. simpl. lia.
Qed.

(** A move with both indices in range. *)
Lemma reorderTodos_move (i j : nat) (x : Todo) (prev : list Todo) :
  nth_error prev i = Some x ->
  (j < length prev)%nat ->
  let rest := firstn i prev ++ skipn (S i) prev in
  let l' := firstn j rest ++ x :: skipn j rest in
  reorderTodos (Z.of_nat i) (Z.of_nat j) prev = map Some l' /\
  length l' = length prev /\
  nth_error l' j = Some x /\
  firstn j l' ++ skipn (S j) l' = rest.
Proof.
  intros Hx Hj.
  assert (Hi : (i < length prev)%nat).
  { apply nth_error_Some. congruence. }
  pose proof (reorderTodos_shape (Z.of_nat i) (Z.of_nat j) prev) as Hs.
  cbn zeta in Hs. rewrite (clamp_index_in_range (length prev) i) in Hs by lia.
  rewrite Hx in Hs.
  pose proof (length_remove_at i x prev Hx) as Hlen.
  intros rest. fold rest in Hs, Hlen.
  rewrite (clamp_index_in_range (length rest) j) in Hs by lia.
  destruct (insert_at_spec j x rest) as (Hn & Hr & Hl); [lia|].
  intros l'. repeat split; try assumption. unfold l'. lia.
Qed.

(** X4.  With both indices in range, [reorderTodos(i, j)] is a move of
    one record: no [undefined] appears, the length is kept, the record
    that was at index [i] is at index [j], and the other records are in
    the order they had; with [i = j] nothing changes. *)
Theorem reorderTodos_in_range (i j : nat) (x : Todo) (prev : list Todo) :
  nth_error prev i = Some x ->
  (j < length prev)%nat ->
  exists l',
    reorderTodos (Z.of_nat i) (Z.of_nat j) prev = map Some l' /\
    length l' = length prev /\
    nth_error l' j = Some x /\
    firstn j l' ++ skipn (S j) l' = firstn i prev ++ skipn (S i) prev /\
    (i = j -> l' = prev).
Proof.
  intros Hx Hj.
  assert (Hi : (i < length prev)%nat).
  { apply nth_error_Some. congruence. }
  destruct (reorderTodos_move i j x prev Hx Hj) as (Hs & Hl & Hn & Hr).
  eexists.
  split; [exact Hs|split; [exact Hl|split; [exact Hn|split; [exact Hr|]]]].
  intros <-.
  destruct (firstn_remove_at i prev) as [-> ->]; [lia|].
  symmetry. apply firstn_skipn_middle. exact Hx.
Qed.

(** X4, witness: the first of three records moved to the last place. *)
Lemma reorderTodos_in_range_witness :
  let a := mkTodo (lit "a") (lit "first") false (mkDate (Int 0)) None None in
  let b := mkTodo (lit "b") (lit "second") true (mkDate (Int 0)) None None in
  let c := mkTodo (lit "c") (lit "third") false (mkDate (Int 0)) None None in
  exists l',
    reorderTodos 0 2 [a; b; c] = map Some l' /\
    length l' = 3%nat /\
    nth_error l' 2 = Some a /\
    firstn 2 l' ++ skipn 3 l' = [b; c] /\
    (0%nat = 2%nat -> l' = [a; b; c]).
Proof.
  intros a b c.
  exact (reorderTodos_in_range 0 2 a [a; b; c] eq_refl (le_n 3)).
Defined.

(** X5.  A move is undone by the opposite move: with both indices in
    range, [reorderTodos(j, i)] applied to the result of
    [reorderTodos(i, j)] gives the collection back. *)
Theorem reorderTodos_round_trip (i j : nat) (prev : list Todo) :
  (i < length prev)%nat ->
  (j < length prev)%nat ->
  reorderTodos (Z.of_nat j) (Z.of_nat i)
    (records (reorderTodos (Z.of_nat i) (Z.of_nat j) prev)) = map Some prev.
Proof.
  intros Hi Hj.
  destruct (nth_error prev i) as [x|] eqn:Hx;
    [|apply nth_error_None in Hx; lia].
  pose proof (length_remove_at i x prev Hx) as Hlen.
  pose proof (reorderTodos_shape (Z.of_nat i) (Z.of_nat j) prev) as Hs.
  cbn zeta in Hs. rewrite (clamp_index_in_range (length prev) i) in Hs by lia.
  rewrite Hx in Hs.
  set (rest := firstn i prev ++ skipn (S i) prev) in *.
  rewrite (clamp_index_in_range (length rest) j) in Hs by lia.
  destruct (insert_at_spec j x rest) as (Hn & Hr & Hl); [lia|].
  rewrite Hs, records_map_Some.
  set (l' := firstn j rest ++ x :: skipn j rest) in *.
  pose proof (reorderTodos_shape (Z.of_nat j) (Z.of_nat i) l') as Hs'.
  cbn zeta in Hs'. rewrite (clamp_index_in_range (length l') j) in Hs' by lia.
  rewrite Hn, Hr in Hs'.
  rewrite (clamp_index_in_range (length rest) i) in Hs' by lia.
  rewrite Hs'. f_equal. unfold rest.
  destruct (firstn_remove_at i prev) as [-> ->]; [lia|].
  symmetry. apply firstn_skipn_middle. exact Hx.
Qed.

(** X5, witness: moving the first of three records to the end and back. *)
Lemma reorderTodos_round_trip_witness :
  let a := mkTodo (lit "a") (lit "first") false (mkDate (Int 0)) None None in
  let b := mkTodo (lit "b") (lit "second") true (mkDate (Int 0)) None None in
  let c := mkTodo (lit "c") (lit "third") false (mkDate (Int 0)) None None in
  reorderTodos 2 0 (records (reorderTodos 0 2 [a; b; c])) = map Some [a; b; c].
Proof.
  intros a b c.
  exact (reorderTodos_round_trip 0 2 [a; b; c] (le_S _ _ (le_S _ _ (le_n 1))) (le_n 3)).
Defined.

(** X6.  A start index at or past the end removes nothing, and the
    second [splice] still inserts: the result is the whole collection,
    in order, with one [undefined] entry added at the end index (clamped
    to the collection), so it is one longer.  On the empty collection
    every call does this. *)
Theorem reorderTodos_start_past_end (startIndex endIndex : Z) (prev : list Todo) :
  Z.of_nat (length prev) <= startIndex \/ prev = [] ->
  let j := clamp_index (length prev) endIndex in
  let result := reorderTodos startIndex endIndex prev in
  result = map Some (firstn j prev) ++ None :: map Some (skipn j prev) /\
  nth_error result j = Some None /\
  length result = S (length prev) /\
  records result = prev.
Proof.
  intros Hs j result.
  assert (Hk : clamp_index (length prev) startIndex = length prev).
  { unfold clamp_index. destruct Hs as [Hs | ->].
    - destruct (Z.ltb_spec startIndex 0); lia.
    - simpl. destruct (Z.ltb_spec startIndex 0); lia. }
  pose proof (reorderTodos_shape startIndex endIndex prev) as H.
  cbn zeta in H. rewrite Hk in H.
  destruct (nth_error prev (length prev)) as [t|] eqn:Ht.
  { assert (H' : nth_error prev (length prev) <> None) by congruence.
    apply nth_error_Some in H'. lia. }
  fold j in H. fold result in H.
  rewrite firstn_map, skipn_map in H.
  pose proof (clamp_index_le (length prev) endIndex) as Hj. fold j in Hj.
  assert (Hlen : length (map Some (firstn j prev) : list (option Todo)) = j).
  { rewrite length_map, length_firstn. lia. }
  repeat split.
  - exact H.
  - rewrite H, nth_error_app2 by lia. rewrite Hlen, Nat.sub_diag. reflexivity.
  - rewrite H, length_app. simpl. rewrite !length_map.
    rewrite <- (firstn_skipn j prev) at 3. rewrite length_app. lia.
  - rewrite H, records_app. simpl. rewrite !records_map_Some.
    apply firstn_skipn.
Qed.

(** X6, witness: on two records, [reorderTodos(2, 0)] puts an
    [undefined] entry in front of them. *)
Lemma reorderTodos_start_past_end_witness :
  let a := mkTodo (lit "a") (lit "first") false (mkDate (Int 0)) None None in
  let b := mkTodo (lit "b") (lit "second") true (mkDate (Int 0)) None None in
  reorderTodos 2 0 [a; b] = [None; Some a; Some b].
Proof.
  intros a b.
  exact (proj1 (reorderTodos_start_past_end 2 0 [a; b]
                  (or_introl (Z.le_refl 2)))).
Defined.

Lemma filter_completed_undefined (l : list Todo) (r : list (option Todo)) :
  filter_completed (map Some l ++ None :: r) = None.
Proof.
  induction l as [|t l IH]; [reflexivity|].
  cbn [map app filter_completed]. rewrite IH. reflexivity.
Qed.

(** X26.  The render after such a call fails: when the start index is
    at or past the end of the collection (or the collection is empty),
    the array [reorderTodos] leaves in the state holds [undefined], and
    the next render, computing [completedCount], reads [completed] of
    [undefined], a [TypeError]. *)
Theorem reorderTodos_start_past_end_breaks_render (startIndex endIndex : Z)
    (prev : list Todo) :
  Z.of_nat (length prev) <= startIndex \/ prev = [] ->
  In None (reorderTodos startIndex endIndex prev) /\
  render_counts (reorderTodos startIndex endIndex prev) = None.
Proof.
  intros Hs.
  assert (Hk : clamp_index (length prev) startIndex = length prev).
  { unfold clamp_index. destruct Hs as [Hs | ->].
    - destruct (Z.ltb_spec startIndex 0); lia.
    - simpl. destruct (Z.ltb_spec startIndex 0); lia. }
  pose proof (reorderTodos_shape startIndex endIndex prev) as H.
  cbn zeta in H. rewrite Hk in H.
  destruct (nth_error prev (length prev)) as [t|] eqn:Ht.
  { assert (H' : nth_error prev (length prev) <> None) by congruence.
    apply nth_error_Some in H'. lia. }
  rewrite H, firstn_map. split.
  - apply in_or_app. right. left. reflexivity.
  - unfold render_counts. rewrite filter_completed_undefined. reflexivity.
Qed.

(** X26, witness: [reorderTodos(2, 0)] on two records. *)
Lemma reorderTodos_start_past_end_breaks_render_witness :
  let a := mkTodo (lit "a") (lit "first") false (mkDate (Int 0)) None None in
  let b := mkTodo (lit "b") (lit "second") true (mkDate (Int 0)) None None in
  In None (reorderTodos 2 0 [a; b]) /\
  render_counts (reorderTodos 2 0 [a; b]) = None.
Proof.
  intros a b.
  exact (reorderTodos_start_past_end_breaks_render 2 0 [a; b]
           (or_introl (Z.le_refl 2))).
Defined.

(** ** Unique ids *)

Lemma map_id_toggleTodo (a : jsstring) (l : list Todo) :
  map id (toggleTodo a l) = map id l.
Proof.
  unfold toggleTodo. rewrite map_map. apply map_ext.
  intros t. destruct (str_eqb (id t) a); reflexivity.
Qed.

Lemma deleteTodo_ids_NoDup (a : jsstring) (todos : list Todo) :
  NoDup (map id todos) -> NoDup (map id (deleteTodo a todos)).
Proof.
  unfold deleteTodo. intros Hids.
  induction todos as [|t todos IH]; [exact Hids|].
  cbn [map] in Hids. apply NoDup_cons_iff in Hids. destruct Hids as [Hnew Hrest].
  cbn [filter]. destruct (negb (str_eqb (id t) a)); [|exact (IH Hrest)].
  cbn [map]. apply NoDup_cons; [|exact (IH Hrest)].
  intros Hin. apply Hnew.
  apply in_map_iff in Hin. destruct Hin as (t' & Ht' & Hin).
  apply filter_In in Hin. rewrite <- Ht'. apply in_map. tauto.
Qed.

Lemma reorderTodos_records (i j : Z) (l : list Todo) :
  Permutation (records (reorderTodos i j l)) l.
Proof.
  pose proof (reorderTodos_shape i j l) as Hs. cbn zeta in Hs.
  set (k := clamp_index (length l) i) in *.
  destruct (nth_error l k) as [x|] eqn:Hx; rewrite Hs.
  - rewrite records_map_Some.
    set (rest := firstn k l ++ skipn (S k) l).
    set (jj := clamp_index (length rest) j).
    apply Permutation_trans with (x :: rest).
    + apply Permutation_sym.
      rewrite <- (firstn_skipn jj rest) at 1.
      apply Permutation_middle.
    + unfold rest.
      apply Permutation_trans with (firstn k l ++ x :: skipn (S k) l);
        [apply Permutation_middle|].
      rewrite <- (firstn_skipn_middle k x l Hx). apply Permutation_refl.
  - rewrite records_app. simpl. rewrite <- records_app, firstn_skipn.
    rewrite records_map_Some. apply Permutation_refl.
Qed.

(** X7.  Ids stay unique: when no two records of the collection share
    an id, the same holds after [toggleTodo], after [deleteTodo], for
    the records [reorderTodos] returns (whatever the indices), and after
    [addTodo] with an id no record has. *)
Theorem ids_stay_unique (l : list Todo) :
  NoDup (map id l) ->
  (forall a, NoDup (map id (toggleTodo a l))) /\
  (forall a, NoDup (map id (deleteTodo a l))) /\
  (forall i j, NoDup (map id (records (reorderTodos i j l)))) /\
  (forall newId now text' due cat,
     ~ In newId (map id l) ->
     NoDup (map id (addTodo newId now text' due cat l))).
Proof.
  intros H. repeat split.
  - intros a. rewrite map_id_toggleTodo. exact H.
  - intros a. apply deleteTodo_ids_NoDup. exact H.
  - intros i j. apply Permutation_NoDup with (map id l); [|exact H].
    apply Permutation_map, Permutation_sym, reorderTodos_records.
  - intros newId now text' due cat Hnew. unfold addTodo. simpl.
    constructor; assumption.
Qed.

(** X7, witness: two records with the ids [a] and [b]. *)
Lemma ids_stay_unique_witness :
  let a := mkTodo (lit "a") (lit "first") false (mkDate (Int 0)) None None in
  let b := mkTodo (lit "b") (lit "second") true (mkDate (Int 0)) None None in
  NoDup (map id (deleteTodo (lit "a") [a; b])) /\
  NoDup (map id (records (reorderTodos 5 (-3) [a; b]))).
Proof.
  intros a b.
  assert (H : NoDup (map id [a; b])).
  { simpl. constructor.
    - intros [E|[]]. discriminate E.
    - constructor; [intros []|constructor]. }
  split.
  - exact (proj1 (proj2 (ids_stay_unique [a; b] H)) (lit "a")).
  - exact (proj1 (proj2 (proj2 (ids_stay_unique [a; b] H))) 5 (-3)).
Defined.

Lemma unique_id_elsewhere (t : Todo) (l1 l2 : list Todo) :
  NoDup (map id (l1 ++ t :: l2)) ->
  forall y, In y l1 \/ In y l2 -> str_eqb (id y) (id t) = false.
Proof.
  intros H y Hy. apply str_eqb_neq. intros E.
  rewrite map_app in H. simpl in H.
  apply NoDup_remove_2 in H. apply H.
  rewrite <- E. apply in_or_app.
  destruct Hy as [Hy|Hy]; [left|right]; apply in_map; exact Hy.
Qed.

Lemma toggleTodo_no_match (a : jsstring) (l : list Todo) :
  (forall y, In y l -> str_eqb (id y) a = false) -> toggleTodo a l = l.
Proof.
  intros H. unfold toggleTodo. rewrite <- (map_id l) at 2.
  apply map_ext_in. intros y Hy. rewrite (H y Hy). reflexivity.
Qed.

(** X8.  With unique ids, [toggleTodo] and [deleteTodo] act on exactly
    one record: for the id of the record at index [k], [deleteTodo]
    returns the collection without that one entry, and [toggleTodo]
    returns it with [completed] negated in that one entry; all other
    entries are as they were, in place. *)
Theorem unique_id_one_record (k : nat) (t : Todo) (l : list Todo) :
  NoDup (map id l) ->
  nth_error l k = Some t ->
  deleteTodo (id t) l = firstn k l ++ skipn (S k) l /\
  toggleTodo (id t) l =
    firstn k l ++
    mkTodo (id t) (text t) (negb (completed t)) (createdAt t) (dueDate t)
      (category t) :: skipn (S k) l.
Proof.
  intros H Ht.
  pose proof (firstn_skipn_middle k t l Ht) as E.
  set (l1 := firstn k l) in *. set (l2 := skipn (S k) l) in *.
  rewrite E in H. pose proof (unique_id_elsewhere t l1 l2 H) as Hno.
  rewrite E. split.
  - unfold deleteTodo. rewrite filter_app. simpl.
    rewrite str_eqb_refl. simpl. f_equal.
    + apply filter_all. intros y Hy. rewrite Hno; [reflexivity|tauto].
    + apply filter_all. intros y Hy. rewrite Hno; [reflexivity|tauto].
  - change (toggleTodo (id t) (l1 ++ t :: l2))
      with (map (fun todo =>
                   if str_eqb (id todo) (id t)
                   then mkTodo (id todo) (text todo) (negb (completed todo))
                          (createdAt todo) (dueDate todo) (category todo)
                   else todo) (l1 ++ t :: l2)).
    rewrite map_app. simpl. rewrite str_eqb_refl.
    fold (toggleTodo (id t) l1). fold (toggleTodo (id t) l2).
    rewrite !toggleTodo_no_match; [reflexivity| |];
      intros y Hy; apply Hno; tauto.
Qed.

(** X8, witness: the second of two records. *)
Lemma unique_id_one_record_witness :
  let a := mkTodo (lit "a") (lit "first") false (mkDate (Int 0)) None None in
  let b := mkTodo (lit "b") (lit "second") true (mkDate (Int 0)) None None in
  deleteTodo (lit "b") [a; b] = [a] /\
  toggleTodo (lit "b") [a; b] =
    [a; mkTodo (lit "b") (lit "second") false (mkDate (Int 0)) None None].
Proof.
  intros a b.
  assert (H : NoDup (map id [a; b])).
  { simpl. constructor.
    - intros [E|[]]. discriminate E.
    - constructor; [intros []|constructor]. }
  exact (unique_id_one_record 1 b [a; b] H eq_refl).
Defined.

(** ** Drag end *)

Lemma findIndex_from_app {A : Type} (p : A -> bool) (i : Z) (l1 : list A)
    (x : A) (l2 : list A) :
  (forall y, In y l1 -> p y = false) -> p x = true ->
  findIndex_from p i (l1 ++ x :: l2) = i + Z.of_nat (length l1).
Proof.
  revert i. induction l1 as [|y l1 IH]; intros i Hno Hx.
  - simpl. rewrite Hx. lia.
  - simpl. rewrite (Hno y (or_introl eq_refl)).
    rewrite IH; [lia| |exact Hx].
    intros z Hz. apply Hno. right. exact Hz.
Qed.

Lemma findIndex_from_none {A : Type} (p : A -> bool) (i : Z) (l : list A) :
  (forall y, In y l -> p y = false) -> findIndex_from p i l = -1.
Proof.
  revert i. induction l as [|y l IH]; intros i Hno; [reflexivity|].
  simpl. rewrite (Hno y (or_introl eq_refl)).
  apply IH. intros z Hz. apply Hno. right. exact Hz.
Qed.

Lemma findIndex_unique_id (i : nat) (t : Todo) (todos : list Todo) :
  NoDup (map id todos) ->
  nth_error todos i = Some t ->
  findIndex (fun todo => str_eqb (id todo) (id t)) todos = Z.of_nat i.
Proof.
  intros H Ht.
  pose proof (firstn_skipn_middle i t todos Ht) as E.
  assert (Hi : (i < length todos)%nat).
  { apply nth_error_Some. congruence. }
  assert (Hlen : length (firstn i todos) = i) by (rewrite length_firstn; lia).
  rewrite E in H. pose proof (unique_id_elsewhere t _ _ H) as Hno.
  unfold findIndex. rewrite E at 1.
  rewrite findIndex_from_app.
  - rewrite Hlen. lia.
  - intros y Hy. apply Hno. left. exact Hy.
  - apply str_eqb_refl.
Qed.

(** X9.  A drag that ends on another record moves the dragged record to
    the place of that record: with unique ids, [handleDragEnd] calls
    [onReorder] with the indices of the two records, and [reorderTodos]
    with these indices returns the collection, without [undefined], in
    which the dragged record has the index the target had and the other
    records keep their order. *)
Theorem drag_moves_to_target (i j : nat) (dragged target : Todo)
    (todos : list Todo) :
  NoDup (map id todos) ->
  nth_error todos i = Some dragged ->
  nth_error todos j = Some target ->
  i <> j ->
  exists update l',
    handleDragEnd (Some reorderTodos) todos (id dragged) (Some (id target))
      = Some update /\
    update todos = map Some l' /\
    length l' = length todos /\
    nth_error l' j = Some dragged /\
    firstn j l' ++ skipn (S j) l' = firstn i todos ++ skipn (S i) todos.
Proof.
  intros H Hi Hj Hij.
  assert (Hne : str_eqb (id dragged) (id target) = false).
  { apply str_eqb_neq. intros E. apply Hij.
    apply (proj1 (NoDup_nth_error (map id todos)) H).
    - rewrite length_map. apply nth_error_Some. congruence.
    - rewrite !nth_error_map, Hi, Hj. simpl. f_equal. exact E. }
  assert (Hjlt : (j < length todos)%nat).
  { apply nth_error_Some. congruence. }
  destruct (reorderTodos_move i j dragged todos Hi Hjlt) as (Hs & Hl & Hn & Hr).
  exists (reorderTodos (Z.of_nat i) (Z.of_nat j)). eexists.
  split; [|split; [exact Hs|split; [exact Hl|split; [exact Hn|exact Hr]]]].
  unfold handleDragEnd. rewrite Hne. simpl negb. cbv iota.
  rewrite (findIndex_unique_id i dragged todos H Hi).
  rewrite (findIndex_unique_id j target todos H Hj).
  reflexivity.
Qed.

(** X9, witness: the first of three records dropped on the third. *)
Lemma drag_moves_to_target_witness :
  let a := mkTodo (lit "a") (lit "first") false (mkDate (Int 0)) None None in
  let b := mkTodo (lit "b") (lit "second") true (mkDate (Int 0)) None None in
  let c := mkTodo (lit "c") (lit "third") false (mkDate (Int 0)) None None in
  exists update l',
    handleDragEnd (Some reorderTodos) [a; b; c] (lit "a") (Some (lit "c"))
      = Some update /\
    update [a; b; c] = map Some l' /\
    length l' = 3%nat /\
    nth_error l' 2 = Some a /\
    firstn 2 l' ++ skipn 3 l' = [b; c].
Proof.
  intros a b c.
  assert (H : NoDup (map id [a; b; c])).
  { simpl. constructor.
    - intros [E|[E|[]]]; discriminate E.
    - constructor.
      + intros [E|[]]. discriminate E.
      + constructor; [intros []|constructor]. }
  assert (Hne : 0%nat <> 2%nat) by discriminate.
  exact (drag_moves_to_target 0 2 a c [a; b; c] H eq_refl eq_refl Hne).
Defined.

(** X10.  The other ends of a drag.  Dropped on itself, or while a
    search query is shown (the list then has no [onReorder]), the drag
    makes no call.  Dropped outside every record, the target index is
    [-1], which [splice] reads from the end: the dragged record is
    reinserted before the last of the other records, at index
    [length - 2] (index [0] when it is the only record), the others
    keeping their order. *)
Theorem drag_dropped_elsewhere (i : nat) (dragged : Todo) (todos : list Todo)
    (searchQuery : jsstring) :
  NoDup (map id todos) ->
  nth_error todos i = Some dragged ->
  handleDragEnd (Some reorderTodos) todos (id dragged) (Some (id dragged)) = None /\
  (searchQuery <> [] ->
   forall over, handleDragEnd (App_onReorder searchQuery) todos (id dragged) over
                = None) /\
  exists l',
    option_map (fun update => update todos)
      (handleDragEnd (App_onReorder []) todos (id dragged) None)
      = Some (map Some l') /\
    length l' = length todos /\
    nth_error l' (length todos - 2) = Some dragged /\
    firstn (length todos - 2) l' ++ skipn (S (length todos - 2)) l'
      = firstn i todos ++ skipn (S i) todos.
Proof.
  intros H Hi.
  assert (Hilt : (i < length todos)%nat).
  { apply nth_error_Some. congruence. }
  split; [|split].
  - unfold handleDragEnd. rewrite str_eqb_refl. reflexivity.
  - intros Hq over. unfold App_onReorder, truthy_str.
    destruct searchQuery; [congruence|reflexivity].
  - unfold App_onReorder, handleDragEnd. simpl.
    rewrite (findIndex_unique_id i dragged todos H Hi).
    unfold findIndex. rewrite findIndex_from_none by reflexivity.
    pose proof (reorderTodos_shape (Z.of_nat i) (-1) todos) as Hs.
    cbn zeta in Hs.
    rewrite (clamp_index_in_range (length todos) i) in Hs by lia.
    rewrite Hi in Hs.
    pose proof (length_remove_at i dragged todos Hi) as Hlen.
    set (rest := firstn i todos ++ skipn (S i) todos) in *.
    assert (Hc : clamp_index (length rest) (-1) = (length todos - 2)%nat).
    { unfold clamp_index. simpl. lia. }
    rewrite Hc in Hs.
    destruct (insert_at_spec (length todos - 2) dragged rest)
      as (Hn & Hr & Hl); [lia|].
    eexists. split; [rewrite Hs; reflexivity|].
    split; [lia|]. split; assumption.
Qed.

(** X10, witness: the first of three records dropped outside the list
    lands between the other two. *)
Lemma drag_dropped_elsewhere_witness :
  let a := mkTodo (lit "a") (lit "first") false (mkDate (Int 0)) None None in
  let b := mkTodo (lit "b") (lit "second") true (mkDate (Int 0)) None None in
  let c := mkTodo (lit "c") (lit "third") false (mkDate (Int 0)) None None in
  exists l',
    option_map (fun update => update [a; b; c])
      (handleDragEnd (App_onReorder []) [a; b; c] (lit "a") None)
      = Some (map Some l') /\
    length l' = 3%nat /\
    nth_error l' 1 = Some a /\
    firstn 1 l' ++ skipn 2 l' = [b; c].
Proof.
  intros a b c.
  assert (H : NoDup (map id [a; b; c])).
  { simpl. constructor.
    - intros [E|[E|[]]]; discriminate E.
    - constructor.
      + intros [E|[]]. discriminate E.
      + constructor; [intros []|constructor]. }
  exact (proj2 (proj2 (drag_dropped_elsewhere 0 a [a; b; c] (lit "x") H eq_refl))).
Defined.

(** ** The message under the list *)

(** X11.  The message under the list agrees with the counts: there is
    none exactly for the empty list; the congratulations appear exactly
    when the list is not empty and [completedCount] equals [totalCount];
    otherwise the number shown is [totalCount - completedCount], it is
    not zero, and "item" is singular exactly when it is one. *)
Theorem TodoList_footer_counts (todos : list Todo) :
  match TodoList_footer todos with
  | NoFooter => todos = []
  | Congratulations =>
      todos <> [] /\ completedCount todos = totalCount todos /\
      forall t, In t todos -> completed t = true
  | RemainingItems n plural =>
      (n + completedCount todos = totalCount todos)%nat /\
      (0 < n)%nat /\ (plural = false <-> n = 1%nat)
  end.
Proof.
  unfold TodoList_footer.
  pose proof (filter_split_length (fun t => completed t) todos) as Hsplit.
  fold (completedCount todos) in Hsplit. fold (totalCount todos) in Hsplit.
  set (n := length (filter (fun todo => negb (completed todo)) todos)) in *.
  destruct todos as [|t0 todos]; [reflexivity|].
  change (0 <? length (t0 :: todos))%nat with true. cbv iota.
  destruct (Nat.eqb_spec n 0) as [E|E].
  - split; [discriminate|]. split; [lia|].
    intros t Ht. destruct (completed t) eqn:Ec; [reflexivity|].
    exfalso.
    assert (Hin : In t (filter (fun todo => negb (completed todo)) (t0 :: todos))).
    { apply filter_In. split; [exact Ht|]. rewrite Ec. reflexivity. }
    unfold n in E. apply length_zero_iff_nil in E. rewrite E in Hin.
    destruct Hin.
  - split; [lia|]. split; [lia|].
    destruct (Nat.eqb_spec n 1); simpl; split; intros; try congruence; lia.
Qed.

(** ** The search filter *)

Lemma starts_with_spec (q s : jsstring) :
  starts_with q s = true <-> exists b, s = q ++ b.
Proof.
  revert s. induction q as [|x q IH]; intros s.
  - simpl. split; [intros _; exists s; reflexivity | reflexivity].
  - destruct s as [|y s]; simpl.
    + split; [discriminate | intros [b Hb]; discriminate Hb].
    + rewrite andb_true_iff, N.eqb_eq, IH. split.
      * intros [-> [b ->]]. exists b. reflexivity.
      * intros [b Hb]. injection Hb as -> ->. split; [reflexivity|].
        exists b. reflexivity.
Qed.

Lemma includes_spec (s q : jsstring) :
  includes s q = true <-> occurs_in q s.
Proof.
  unfold occurs_in. induction s as [|c s IH].
  - simpl. rewrite orb_false_r, starts_with_spec. split.
    + intros [b Hb]. exists [], b. exact Hb.
    + intros (a & b & H). destruct a as [|? a]; [|discriminate H].
      exists b. exact H.
  - change (includes (c :: s) q)
      with (starts_with q (c :: s) || includes s q).
    rewrite orb_true_iff, starts_with_spec, IH. split.
    + intros [[b Hb] | (a & b & H)].
      * exists [], b. exact Hb.
      * exists (c :: a), b. rewrite H. reflexivity.
    + intros (a & b & H). destruct a as [|c' a].
      * left. exists b. exact H.
      * right. injection H as _ H. exists a, b. exact H.
Qed.

Lemma sublist_refl {A : Type} (l : list A) : sublist l l.
Proof. induction l as [|x l IH]; constructor; exact IH. Qed.

Lemma filter_filter_length {A : Type} (f p : A -> bool) (l : list A) :
  (length (filter f (filter p l)) <= length (filter f l))%nat.
Proof.
  induction l as [|x l IH]; simpl; [lia|].
  destruct (p x); simpl; destruct (f x); simpl; lia.
Qed.

(** X12.  What the search shows.  Without a query all records are
    shown.  With a query, the records shown are those of the collection,
    in their order, in which the query occurs, after [toLowerCase] on
    both sides, in the text or in a non-empty category.  The counts of
    the view never exceed those of the whole collection. *)
Theorem displayTodos_spec (toLowerCase : jsstring -> jsstring)
    (todos : list Todo) (searchQuery : jsstring) :
  let shown := displayTodos toLowerCase todos searchQuery in
  displayTodos toLowerCase todos [] = todos /\
  sublist shown todos /\
  (searchQuery <> [] ->
   forall t, In t shown <->
     In t todos /\
     (occurs_in (toLowerCase searchQuery) (toLowerCase (text t)) \/
      exists c, category t = Some c /\ c <> [] /\
                occurs_in (toLowerCase searchQuery) (toLowerCase c))) /\
  (displayTotalCount toLowerCase todos searchQuery <= totalCount todos)%nat /\
  (displayCompletedCount toLowerCase todos searchQuery
     <= completedCount todos)%nat.
Proof.
  cbn zeta. unfold displayTotalCount, displayCompletedCount, displayTodos,
    filteredTodos, totalCount, completedCount.
  split; [reflexivity|].
  destruct searchQuery as [|c0 q]; simpl truthy_str; cbv iota.
  - split; [apply sublist_refl|]. split; [congruence|]. split; lia.
  - split; [apply filter_sublist|]. split; [|split].
    + intros _ t. rewrite filter_In. unfold matches_search.
      rewrite orb_true_iff, includes_spec.
      split; intros [Hin H]; (split; [exact Hin|]).
      * destruct H as [H|H]; [left; exact H|right].
        destruct (category t) as [c|]; [|discriminate].
        apply andb_true_iff in H. destruct H as [Hc H].
        exists c. split; [reflexivity|]. split.
        -- intros ->. discriminate Hc.
        -- apply includes_spec. exact H.
      * destruct H as [H|(c & Hc & Hne & H)]; [left; exact H|right].
        rewrite Hc. apply andb_true_iff. split.
        -- destruct c; [congruence|reflexivity].
        -- apply includes_spec. exact H.
    + apply filter_length_le.
    + apply filter_filter_length.
Qed.

(** ** Category labels *)

Lemma hasEmoji_tag_prefix (value : jsstring) :
  hasEmoji (tag_prefix ++ value) = true.
Proof. reflexivity. Qed.

Lemma CATEGORY_OPTIONS_emoji (option : CategoryOption) :
  In option CATEGORY_OPTIONS ->
  hasEmoji (opt_value option) = false /\
  (opt_value option <> [] -> hasEmoji (opt_label option) = true).
Proof.
  intros H. unfold CATEGORY_OPTIONS in H.
  repeat (destruct H as [<-|H];
          [split; [vm_compute; reflexivity
                  |intros Hne; try (vm_compute; reflexivity);
                   exfalso; apply Hne; reflexivity]|]).
  destruct H.
Qed.

Lemma emoji_own_label (value : jsstring) :
  hasEmoji value = true -> getCategoryLabel value = value.
Proof.
  intros H. unfold getCategoryLabel.
  destruct value as [|c v]; [discriminate H|]. simpl negb. cbv iota.
  destruct (find _ CATEGORY_OPTIONS) as [option|] eqn:Hf.
  - apply find_some in Hf. destruct Hf as [Hin Heq].
    apply str_eqb_eq in Heq.
    destruct (CATEGORY_OPTIONS_emoji option Hin) as [Hno _].
    rewrite Heq in Hno. congruence.
  - rewrite H. reflexivity.
Qed.

(** X13.  Labels: the empty value has the empty label; every other
    value has a label in which the emoji pattern matches; a value in
    which the pattern matches is not a predefined value and is its own
    label; so labelling a label changes nothing. *)
Theorem getCategoryLabel_emoji (value : jsstring) :
  getCategoryLabel [] = [] /\
  (value <> [] -> hasEmoji (getCategoryLabel value) = true) /\
  (hasEmoji value = true -> getCategoryLabel value = value) /\
  getCategoryLabel (getCategoryLabel value) = getCategoryLabel value.
Proof.
  assert (Hlabel : value <> [] -> hasEmoji (getCategoryLabel value) = true).
  { intros Hne. unfold getCategoryLabel.
    destruct value as [|c v]; [congruence|]. simpl negb. cbv iota.
    destruct (find _ CATEGORY_OPTIONS) as [option|] eqn:Hf.
    - apply find_some in Hf. destruct Hf as [Hin Heq].
      apply str_eqb_eq in Heq.
      apply (CATEGORY_OPTIONS_emoji option Hin). rewrite Heq. discriminate.
    - destruct (hasEmoji (c :: v)) eqn:He; [exact He|].
      apply hasEmoji_tag_prefix. }
  split; [reflexivity|]. split; [exact Hlabel|].
  split; [apply emoji_own_label|].
  destruct value as [|c v]; [reflexivity|].
  apply emoji_own_label, Hlabel. discriminate.
Qed.

(** ** The category options of the form *)

Lemma todo_categories_In (c : jsstring) (todos : list Todo) :
  In c (todo_categories todos) <->
  exists t, In t todos /\ category t = Some c /\ c <> [] /\ trim c <> [].
Proof.
  assert (Htruthy : forall s, truthy_str s = true <-> s <> []).
  { intros [|x s]; simpl; split; congruence. }
  induction todos as [|t todos IH]; simpl.
  - split; [intros [] | intros (t & [] & _)].
  - destruct (category t) as [c'|] eqn:Hc.
    + destruct (truthy_str c' && truthy_str (trim c')) eqn:Hk.
      * simpl. rewrite IH. apply andb_true_iff in Hk.
        rewrite !Htruthy in Hk. split.
        -- intros [<- | (t' & Hin & H)].
           ++ exists t. tauto.
           ++ exists t'. tauto.
        -- intros (t' & [<- | Hin] & Hc' & H).
           ++ left. congruence.
           ++ right. exists t'. tauto.
      * rewrite IH. split.
        -- intros (t' & Hin & H). exists t'. tauto.
        -- intros (t' & [<- | Hin] & Hc' & Hne & Htr).
           ++ rewrite Hc in Hc'. injection Hc' as ->.
              apply Htruthy in Hne. apply Htruthy in Htr.
              rewrite Hne, Htr in Hk. discriminate Hk.
           ++ exists t'. tauto.
    + rewrite IH. split.
      * intros (t' & Hin & H). exists t'. tauto.
      * intros (t' & [<- | Hin] & Hc' & H); [congruence|].
        exists t'. tauto.
Qed.

Lemma indexOf_from_notin (x : jsstring) (i : Z) (pre suf : list jsstring) :
  ~ In x pre ->
  indexOf_from x i (pre ++ suf) = indexOf_from x (i + Z.of_nat (length pre)) suf.
Proof.
  revert i. induction pre as [|y pre IH]; intros i Hno.
  - simpl. f_equal. lia.
  - simpl app. simpl indexOf_from.
    assert (E : str_eqb y x = false).
    { apply str_eqb_neq. intros ->. apply Hno. left. reflexivity. }
    rewrite E, IH.
    + f_equal. simpl length. lia.
    + intros H. apply Hno. right. exact H.
Qed.

Lemma indexOf_from_in (x : jsstring) (i : Z) (pre suf : list jsstring) :
  In x pre ->
  i <= indexOf_from x i (pre ++ suf) < i + Z.of_nat (length pre).
Proof.
  revert i. induction pre as [|y pre IH]; intros i Hin; [destruct Hin|].
  simpl app. simpl indexOf_from. simpl length.
  destruct (str_eqb y x) eqn:E; [lia|].
  destruct Hin as [->|Hin]; [rewrite str_eqb_refl in E; discriminate E|].
  specialize (IH (i + 1) Hin). lia.
Qed.

(** Keeping the elements that stand at their first index keeps one of
    each. *)
Lemma filter_indexed_first (l pre suf : list jsstring) :
  l = pre ++ suf ->
  let r := filter_indexed (fun category index => indexOf category l =? index)
             (Z.of_nat (length pre)) suf in
  NoDup r /\ forall x, In x r <-> In x suf /\ ~ In x pre.
Proof.
  revert pre. induction suf as [|y suf IH]; intros pre Hl; cbn zeta.
  - simpl. split; [constructor|]. intros x. tauto.
  - specialize (IH (pre ++ [y])). cbn zeta in IH.
    rewrite <- app_assoc, length_app in IH. simpl in IH.
    specialize (IH Hl). destruct IH as [IHn IHi].
    replace (Z.of_nat (length pre + 1)) with (Z.of_nat (length pre) + 1)
      in IHn, IHi by lia.
    simpl filter_indexed.
    destruct (in_dec (list_eq_dec N.eq_dec) y pre) as [Hy|Hy].
    + assert (E : (indexOf y l =? Z.of_nat (length pre)) = false).
      { apply Z.eqb_neq. unfold indexOf. rewrite Hl.
        pose proof (indexOf_from_in y 0 pre (y :: suf) Hy). lia. }
      rewrite E. split; [exact IHn|].
      intros x. rewrite IHi, in_app_iff. simpl. split.
      * intros [H1 H2]. split; [tauto|]. intros H. apply H2. tauto.
      * intros [[<-|H1] H2]; [contradiction|].
        split; [exact H1|]. intros [H|[<-|[]]]; contradiction.
    + assert (E : (indexOf y l =? Z.of_nat (length pre)) = true).
      { apply Z.eqb_eq. unfold indexOf. rewrite Hl.
        rewrite (indexOf_from_notin y 0 pre (y :: suf) Hy).
        simpl. rewrite str_eqb_refl. lia. }
      rewrite E. split.
      * constructor; [|exact IHn]. rewrite IHi, in_app_iff. simpl. tauto.
      * intros x. simpl. rewrite IHi, in_app_iff. simpl. split.
        -- intros [<-|[H1 H2]]; [tauto|]. split; [tauto|].
           intros H. apply H2. tauto.
        -- intros [[<-|H1] H2]; [tauto|].
           destruct (list_eq_dec N.eq_dec y x) as [->|Hne]; [tauto|].
           right. split; [exact H1|]. intros [H|[H|[]]]; contradiction.
Qed.

Lemma CATEGORY_OPTIONS_values_NoDup : NoDup (map opt_value CATEGORY_OPTIONS).
Proof.
  vm_compute.
  repeat (constructor;
          [intros H; repeat (destruct H as [H|H]; [discriminate H|]);
           exact H|]).
  constructor.
Qed.

(** X14.  The options of the category field: the predefined options
    come first, unchanged; no value is offered twice, however many
    todos share a category; and a value is offered exactly when it is
    predefined or is the category of some todo and is not blank. *)
Theorem getDynamicCategoryOptions_values (todos : list Todo) :
  let options := getDynamicCategoryOptions todos in
  firstn (length CATEGORY_OPTIONS) options = CATEGORY_OPTIONS /\
  NoDup (map opt_value options) /\
  forall c, In c (map opt_value options) <->
    In c (map opt_value CATEGORY_OPTIONS) \/
    exists t, In t todos /\ category t = Some c /\ trim c <> [].
Proof.
  cbn zeta. unfold getDynamicCategoryOptions.
  set (categories := todo_categories todos).
  destruct (filter_indexed_first categories [] categories eq_refl)
    as [Hnd Hin]. simpl in Hnd, Hin.
  set (unique := filter_indexed _ 0 categories) in *.
  set (custom := filter _ unique).
  assert (Hex : forall c,
            existsb (fun option => str_eqb (opt_value option) c) CATEGORY_OPTIONS
              = true <-> In c (map opt_value CATEGORY_OPTIONS)).
  { intros c. rewrite existsb_exists, in_map_iff.
    split; intros (o & H1 & H2).
    - apply str_eqb_eq in H2. exists o. tauto.
    - exists o. split; [tauto|]. apply str_eqb_eq. exact H1. }
  assert (Hcustom : forall c, In c custom <->
            In c categories /\ ~ In c (map opt_value CATEGORY_OPTIONS)).
  { intros c. unfold custom. rewrite filter_In, Hin, negb_true_iff.
    specialize (Hex c).
    destruct (existsb _ CATEGORY_OPTIONS); split.
    - intros [_ H]. discriminate H.
    - intros [_ H]. exfalso. apply H, Hex. reflexivity.
    - intros [[H _] _]. split; [exact H|].
      intros Hc. apply Hex in Hc. discriminate Hc.
    - intros [H _]. tauto. }
  assert (Hmap : map opt_value
                   (map (fun category =>
                           mkOption category
                             (if includes category [55356; 57335; 65039]%N
                              then category else tag_prefix ++ category))
                        custom) = custom).
  { rewrite map_map. simpl. apply map_id. }
  split; [|split].
  - rewrite firstn_app, Nat.sub_diag, firstn_all, firstn_O. apply app_nil_r.
  - rewrite map_app, Hmap. apply NoDup_app.
    + exact CATEGORY_OPTIONS_values_NoDup.
    + apply NoDup_filter. exact Hnd.
    + intros c H1 H2. apply Hcustom in H2. tauto.
  - intros c. rewrite map_app, in_app_iff, Hmap, Hcustom.
    unfold categories. rewrite todo_categories_In.
    split.
    + intros [H|[(t & H1 & H2 & H3 & H4) _]]; [left; exact H|right].
      exists t. tauto.
    + intros [H|(t & H1 & H2 & H3)]; [left; exact H|].
      destruct (in_dec (list_eq_dec N.eq_dec) c (map opt_value CATEGORY_OPTIONS))
        as [Hc|Hc]; [left; exact Hc|right].
      split; [|exact Hc]. exists t. repeat split; try assumption.
      intros ->. apply H3. reflexivity.
Qed.

(** ** The countdown and its badge *)

(** The value of [calculateTimeRemaining] when the end of the due day is
    a time value. *)
Lemma calculateTimeRemaining_value (host : Host) (now due : Z) :
  let deadline :=
    UTC host (MakeDate (Day (LocalTime host due)) (MakeTime 23 59 59 999)) in
  let total := Z.abs (deadline - now) / 60000 in
  Z.abs deadline <= 8640000000000000 ->
  calculateTimeRemaining host now (mkDate (Int due)) =
    {| days := Int (total / 1440);
       hours := Int ((total mod 1440) / 60);
       minutes := Int (total mod 60);
       isOverdue := deadline - now <? 0;
       totalMinutes := Int total |}.
Proof.
  intros deadline total Hvalid.
  unfold calculateTimeRemaining, setHours. simpl getTime.
  fold deadline. unfold TimeClip.
  destruct (Z.ltb_spec 8640000000000000 (Z.abs deadline)) as [H|_]; [lia|].
  simpl. change (Z.abs (deadline - now) / 60000) with total.
  assert (Ht : 0 <= total) by (unfold total; zdiv).
  rewrite !Z.rem_mod_nonneg by lia.
  reflexivity.
Qed.

(** X15.  A due date without a deadline: when the due date is an
    invalid date, or the end of its day is past the range of time
    values, every number of the result is [NaN] and [isOverdue] is
    false; the text shown is "NaNm remaining" and the badge is the
    normal one (neither overdue nor urgent), completed or not. *)
Theorem calculateTimeRemaining_no_deadline (host : Host) (now : Z) (dueDate : Date)
    (isCompleted : bool) :
  getTime (setHours host dueDate 23 59 59 999) = NaN ->
  let r := calculateTimeRemaining host now dueDate in
  r = mkTimeRemaining NaN NaN NaN false NaN /\
  formatTimeRemaining r = lit "NaNm remaining" /\
  Timer_tone r isCompleted = Blue.
Proof.
  intros H r.
  assert (E : r = mkTimeRemaining NaN NaN NaN false NaN).
  { unfold r, calculateTimeRemaining.
    replace (mkDate (getTime dueDate)) with dueDate by (destruct dueDate; reflexivity).
    rewrite H. reflexivity. }
  rewrite E. repeat split.
  destruct isCompleted; reflexivity.
Qed.

(** X15, witness: the invalid date. *)
Lemma calculateTimeRemaining_no_deadline_witness :
  formatTimeRemaining (calculateTimeRemaining utc_host 0 InvalidDate)
    = lit "NaNm remaining".
Proof.
  exact (proj1 (proj2 (calculateTimeRemaining_no_deadline utc_host 0 InvalidDate
                         false eq_refl))).
Defined.

(** X16.  The numbers of the countdown fit together: with a deadline
    that is a time value (and a difference doubles hold exactly), the
    result has [totalMinutes = 1440 days + 60 hours + minutes] with
    [0 <= hours < 24] and [0 <= minutes < 60], none negative.  On a todo
    that is not completed the badge is urgent exactly when the todo is
    not overdue and [days] is 0, the case in which the text shows no
    days; on a completed todo the badge is the normal one even when the
    text says overdue. *)
Theorem countdown_fields (host : Host) (now due : Z) :
  let deadline :=
    UTC host (MakeDate (Day (LocalTime host due)) (MakeTime 23 59 59 999)) in
  Z.abs deadline <= 8640000000000000 ->
  Z.abs (deadline - now) < 2 ^ 53 ->
  let r := calculateTimeRemaining host now (mkDate (Int due)) in
  exists d h m,
    days r = Int d /\ hours r = Int h /\ minutes r = Int m /\
    totalMinutes r = Int (1440 * d + 60 * h + m) /\
    0 <= d /\ 0 <= h < 24 /\ 0 <= m < 60 /\
    (Timer_isUrgent r false = true <-> isOverdue r = false /\ d = 0) /\
    (Timer_isOverdue r false = isOverdue r) /\
    Timer_tone r true = Blue /\
    (d = 0 -> isOverdue r = false ->
     formatTimeRemaining r =
       if 0 <? h
       then Number_toString (Int h) ++ lit "h " ++ Number_toString (Int m)
              ++ lit "m remaining"
       else Number_toString (Int m) ++ lit "m remaining").
Proof.
  intros deadline Hvalid _ r.
  pose proof (calculateTimeRemaining_value host now due Hvalid) as E.
  fold deadline in E. fold r in E. cbn zeta in E.
  set (total := Z.abs (deadline - now) / 60000) in *.
  assert (Ht : 0 <= total) by (unfold total; zdiv).
  clearbody total.
  exists (total / 1440), ((total mod 1440) / 60), (total mod 60).
  rewrite E. cbn [days hours minutes totalMinutes isOverdue].
  split; [reflexivity|]. split; [reflexivity|]. split; [reflexivity|].
  split; [f_equal; zdiv|].
  split; [zdiv|]. split; [zdiv|]. split; [zdiv|].
  unfold Timer_tone, Timer_isUrgent, Timer_isOverdue.
  cbn [days hours minutes totalMinutes isOverdue negb num_ltb].
  rewrite !andb_true_r, andb_false_r.
  split; [|split; [reflexivity|split; [reflexivity|]]].
  - rewrite andb_true_l, andb_true_iff, negb_true_iff, Z.ltb_lt.
    split; intros [H1 H2]; (split; [exact H1|]); zdiv.
  - intros Hd ->. unfold formatTimeRemaining.
    cbn [days hours minutes totalMinutes isOverdue].
    unfold num_gtb, num_ltb. rewrite Hd. reflexivity.
Qed.

(** X16, witness: due 2025-01-01, now 12:00 of that day, UTC. *)
Lemma countdown_fields_witness :
  let r := calculateTimeRemaining utc_host 1735732800000 (mkDate (Int 1735689600000)) in
  exists d h m,
    days r = Int d /\ hours r = Int h /\ minutes r = Int m /\
    totalMinutes r = Int (1440 * d + 60 * h + m) /\
    0 <= d /\ 0 <= h < 24 /\ 0 <= m < 60 /\
    (Timer_isUrgent r false = true <-> isOverdue r = false /\ d = 0) /\
    (Timer_isOverdue r false = isOverdue r) /\
    Timer_tone r true = Blue /\
    (d = 0 -> isOverdue r = false ->
     formatTimeRemaining r =
       if 0 <? h
       then Number_toString (Int h) ++ lit "h " ++ Number_toString (Int m)
              ++ lit "m remaining"
       else Number_toString (Int m) ++ lit "m remaining").
Proof.
  exact (countdown_fields utc_host 1735732800000 1735689600000
           ltac:(vm_compute; discriminate) ltac:(vm_compute; reflexivity)).
Defined.

(** X17.  When overdue begins.  On a host at a fixed offset from UTC, a
    todo is overdue exactly when the local calendar day of the clock is
    later than the local calendar day of the due date; on the due day
    itself it is not overdue, less than a day remains and the badge of a
    todo that is not completed is urgent. *)
Theorem overdue_from_next_local_day (host : Host) (offset now due : Z) :
  fixed_offset host offset ->
  let deadline :=
    UTC host (MakeDate (Day (LocalTime host due)) (MakeTime 23 59 59 999)) in
  Z.abs deadline <= 8640000000000000 ->
  Z.abs (deadline - now) < 2 ^ 53 ->
  let r := calculateTimeRemaining host now (mkDate (Int due)) in
  (isOverdue r = true <-> Day (LocalTime host due) < Day (LocalTime host now)) /\
  (Day (LocalTime host now) = Day (LocalTime host due) ->
   isOverdue r = false /\ days r = Int 0 /\ Timer_tone r false = Orange).
Proof.
  intros Hoff deadline Hvalid _ r.
  pose proof (calculateTimeRemaining_value host now due Hvalid) as E.
  fold deadline in E. fold r in E. cbn zeta in E.
  assert (Hd : deadline =
               Day (due + offset) * 86400000 + 86399999 - offset).
  { unfold deadline, UTC, LocalTime. rewrite !Hoff.
    unfold MakeDate, MakeTime, msPerDay. lia. }
  assert (Hl : forall t, LocalTime host t = t + offset).
  { intros t. unfold LocalTime. rewrite Hoff. reflexivity. }
  rewrite !Hl. rewrite E.
  unfold Timer_tone, Timer_isUrgent, Timer_isOverdue. simpl.
  rewrite Hd. unfold Day, msPerDay.
  split.
  - rewrite Z.ltb_lt. zdiv.
  - intros Hsame.
    assert (Hno : (Day (due + offset) * 86400000 + 86399999 - offset - now <? 0)
                  = false).
    { apply Z.ltb_ge. unfold Day, msPerDay. zdiv. }
    unfold Day, msPerDay in Hno. rewrite Hno. simpl.
    split; [reflexivity|].
    assert (Hz : Z.abs ((due + offset) / 86400000 * 86400000 + 86399999
                        - offset - now) / 60000 / 1440 = 0) by zdiv.
    split; [f_equal; exact Hz|].
    replace (Z.abs ((due + offset) / 86400000 * 86400000 + 86399999
                    - offset - now) / 60000 <? 1440) with true; [reflexivity|].
    symmetry. apply Z.ltb_lt. zdiv.
Qed.

(** X17, witness: UTC, due 2025-01-01, the clock at 12:00 of that day. *)
Lemma overdue_from_next_local_day_witness :
  let r := calculateTimeRemaining utc_host 1735732800000 (mkDate (Int 1735689600000)) in
  (isOverdue r = true <->
   Day (LocalTime utc_host 1735689600000) < Day (LocalTime utc_host 1735732800000)) /\
  (Day (LocalTime utc_host 1735732800000) = Day (LocalTime utc_host 1735689600000) ->
   isOverdue r = false /\ days r = Int 0 /\ Timer_tone r false = Orange).
Proof.
  exact (overdue_from_next_local_day utc_host 0 1735732800000 1735689600000
           (fun t isUTC => eq_refl)
           ltac:(vm_compute; discriminate) ltac:(vm_compute; reflexivity)).
Defined.

(** ** The submit handler *)

Lemma trim_start_split (s : jsstring) :
  exists a, s = a ++ trim_start s /\ forallb is_white_space a = true /\
            (forall c, hd_error (trim_start s) = Some c -> is_white_space c = false).
Proof.
  induction s as [|c s (a & Ha & Hws & Hhd)].
  - exists []. repeat split. intros c H. discriminate H.
  - simpl. destruct (is_white_space c) eqn:Ec.
    + exists (c :: a). simpl. rewrite Ec, Hws. repeat split; [|exact Hhd].
      f_equal. exact Ha.
    + exists []. repeat split. intros c' H. simpl in H. congruence.
Qed.

Lemma trim_start_fixed (s : jsstring) :
  (forall c, hd_error s = Some c -> is_white_space c = false) ->
  trim_start s = s.
Proof.
  destruct s as [|c s]; [reflexivity|]. intros H. simpl.
  rewrite (H c eq_refl). reflexivity.
Qed.

(** [trim] takes white space off both ends and nothing else. *)
Lemma trim_spec (s : jsstring) :
  exists a b,
    s = a ++ trim s ++ b /\
    forallb is_white_space a = true /\ forallb is_white_space b = true /\
    (forall c, hd_error (trim s) = Some c -> is_white_space c = false) /\
    (forall c, hd_error (rev (trim s)) = Some c -> is_white_space c = false).
Proof.
  unfold trim, trim_end.
  destruct (trim_start_split s) as (a & Ha & Hwa & Hhd).
  set (u := trim_start s) in *.
  destruct (trim_start_split (rev u)) as (b & Hb & Hwb & Hhd').
  set (v := trim_start (rev u)) in *.
  assert (Hu : u = rev v ++ rev b).
  { rewrite <- rev_app_distr, <- Hb, rev_involutive. reflexivity. }
  exists a, (rev b). repeat split.
  - rewrite <- Hu. exact Ha.
  - exact Hwa.
  - rewrite forallb_forall in *. intros x Hx. apply Hwb.
    apply in_rev. exact Hx.
  - intros c Hc. apply Hhd. rewrite Hu.
    destruct (rev v) as [|x r]; [discriminate Hc|]. exact Hc.
  - rewrite rev_involutive. exact Hhd'.
Qed.

Lemma trim_fixed (s : jsstring) :
  (forall c, hd_error s = Some c -> is_white_space c = false) ->
  (forall c, hd_error (rev s) = Some c -> is_white_space c = false) ->
  trim s = s.
Proof.
  intros H1 H2. unfold trim, trim_end.
  rewrite (trim_start_fixed s H1), (trim_start_fixed (rev s) H2).
  apply rev_involutive.
Qed.

(** X18.  What a submitted form passes on.  When the text is not blank,
    [handleSubmit] empties the form and calls [onAdd] once, so that
    [addTodo] puts one record in front of the collection.  Its text is
    the text of the form without the white space at its two ends: it is
    not empty, neither begins nor ends with white space, and trimming it
    again changes nothing.  Its category is absent when the category
    field is blank and is the trimmed field otherwise; its due date is
    absent exactly when the date field is empty. *)
Theorem handleSubmit_passes_trimmed (host : Host) (newId : jsstring) (now : Z)
    (form : FormState) (prev : list Todo) :
  trim (form_text form) <> [] ->
  exists t,
    handleSubmit host (addTodo newId now) form prev = (mkForm [] [] [], t :: prev) /\
    id t = newId /\ completed t = false /\
    text t = trim (form_text form) /\
    (exists a b, form_text form = a ++ text t ++ b /\
                 forallb is_white_space a = true /\
                 forallb is_white_space b = true) /\
    text t <> [] /\
    (forall c, hd_error (text t) = Some c -> is_white_space c = false) /\
    (forall c, hd_error (rev (text t)) = Some c -> is_white_space c = false) /\
    trim (text t) = text t /\
    category t = (if truthy_str (trim (form_category form))
                  then Some (trim (form_category form)) else None) /\
    category t <> Some [] /\
    (dueDate t = None <-> form_dueDate form = []).
Proof.
  intros Hne. unfold handleSubmit, addTodo.
  destruct (trim_spec (form_text form)) as (a & b & Hs & Ha & Hb & Hh & Hl).
  destruct (trim (form_text form)) as [|c0 tx] eqn:Et; [congruence|].
  simpl truthy_str. cbv iota.
  eexists. split; [reflexivity|].
  cbn [id completed text category dueDate].
  split; [reflexivity|]. split; [reflexivity|]. split; [reflexivity|].
  split; [exists a, b; repeat split; assumption|].
  split; [discriminate|].
  split; [exact Hh|]. split; [exact Hl|].
  split; [apply trim_fixed; assumption|].
  split; [reflexivity|].
  split; [destruct (trim (form_category form)); simpl; congruence|].
  destruct (form_dueDate form); simpl; split; congruence.
Qed.

(** X18, witness: a text and a category with white space around them. *)
Lemma handleSubmit_passes_trimmed_witness :
  let form := mkForm (lit "  Buy milk ") [] (lit " errands ") in
  exists t,
    handleSubmit utc_host (addTodo (lit "k3x9") 0) form [] = (mkForm [] [] [], [t]) /\
    id t = lit "k3x9" /\ completed t = false /\
    text t = lit "Buy milk" /\
    (exists a b, lit "  Buy milk " = a ++ text t ++ b /\
                 forallb is_white_space a = true /\
                 forallb is_white_space b = true) /\
    text t <> [] /\
    (forall c, hd_error (text t) = Some c -> is_white_space c = false) /\
    (forall c, hd_error (rev (text t)) = Some c -> is_white_space c = false) /\
    trim (text t) = text t /\
    category t = Some (lit "errands") /\
    category t <> Some [] /\
    (dueDate t = None <-> [] = @nil N).
Proof.
  exact (handleSubmit_passes_trimmed utc_host (lit "k3x9") 0
           (mkForm (lit "  Buy milk ") [] (lit " errands ")) []
           ltac:(vm_compute; discriminate)).
Defined.

(** *** The due date of the form *)

(** The calendar fields of a day made from a year, a month and a day of
    that month. *)
Lemma MakeDay_fields (y m d tw : Z) :
  0 <= m <= 11 ->
  1 <= d <= DaysInMonth y m ->
  0 <= tw < msPerDay ->
  let t := MakeDate (MakeDay y m d) tw in
  Day t = MakeDay y m d /\ TimeWithinDay t = tw /\
  DayFromYear y <= MakeDay y m d < DayFromYear (y + 1) /\
  YearFromTime t = y /\ MonthFromTime t = m /\ DateFromTime t = d.
Proof.
  intros Hm Hd Htw t.
  assert (HDay : Day t = MakeDay y m d).
  { unfold t, MakeDate, Day, msPerDay in *. zdiv. }
  assert (HTime : TimeWithinDay t = tw).
  { unfold t, MakeDate, TimeWithinDay, msPerDay in *. zdiv. }
  assert (Hmk : MakeDay y m d =
                DayFromYear y + DaysBeforeMonth m (DaysInYear y - 365) + d - 1).
  { unfold MakeDay. replace (m / 12) with 0 by zdiv.
    replace (m mod 12) with m by zdiv. rewrite Z.add_0_r. reflexivity. }
  unfold DaysInMonth in Hd. cbn zeta in Hd.
  assert (Hnext : DayFromYear (y + 1) = DayFromYear y + 365 + (DaysInYear y - 365)).
  { unfold DaysInYear. lia. }
  pose proof (DaysInYear_cases y) as Hleap.
  set (leap := DaysInYear y - 365) in *.
  assert (Hl : leap = 0 \/ leap = 1) by lia.
  clearbody leap. clear Hleap.
  assert (Hmonths : m = 0 \/ m = 1 \/ m = 2 \/ m = 3 \/ m = 4 \/ m = 5 \/
                    m = 6 \/ m = 7 \/ m = 8 \/ m = 9 \/ m = 10 \/ m = 11) by lia.
  assert (Hrange : 0 <= DaysBeforeMonth m leap + d - 1 < 365 + leap).
  { destruct Hl as [-> | ->];
      repeat (destruct Hmonths as [-> | Hmonths];
              [simpl in Hd; cbn [DaysBeforeMonth]; lia|]);
      subst m; simpl in Hd; cbn [DaysBeforeMonth]; lia. }
  assert (Hy : YearFromTime t = y).
  { unfold YearFromTime. rewrite HDay, Hmk. apply YearFromDay_unique. lia. }
  assert (Hleap' : InLeapYear t = leap \/ True) by (right; exact I).
  assert (Hmo : MonthFromTime t = m).
  { unfold MonthFromTime, DayWithinYear, InLeapYear.
    rewrite Hy, HDay, Hmk.
    replace (DaysInYear y - 365) with leap by (unfold DaysInYear; lia).
    replace (DayFromYear y + DaysBeforeMonth m leap + d - 1 - DayFromYear y)
      with (DaysBeforeMonth m leap + d - 1) by lia.
    clear Hrange Hmk Hnext HDay HTime Hy.
    destruct Hl as [-> | ->];
      repeat (destruct Hmonths as [-> | Hmonths];
              [simpl in Hd; cbn [DaysBeforeMonth]; month_cases; lia|]);
      subst m; simpl in Hd; cbn [DaysBeforeMonth]; month_cases; lia. }
  repeat split; try assumption; try lia.
  unfold DateFromTime. rewrite Hmo. unfold DayWithinYear, InLeapYear.
  rewrite Hy, HDay, Hmk.
  replace (DaysInYear y - 365) with leap by (unfold DaysInYear; lia).
  lia.
Qed.

Lemma pad_digits_digits (w : nat) (n : Z) :
  forallb is_digit (pad_digits w n) = true.
Proof.
  revert n. induction w as [|w IH]; intros n; [reflexivity|].
  simpl. rewrite forallb_app, IH. simpl.
  assert (H : 0 <= n mod 10 <= 9) by zdiv.
  rewrite (proj1 (digit_char_value (n mod 10) H)). reflexivity.
Qed.

Lemma is_digit_not_dash (c : N) : is_digit c = true -> (c =? 45)%N = false.
Proof.
  unfold is_digit. intros H. apply andb_true_iff in H.
  destruct H as [H _]. apply N.leb_le in H. apply N.eqb_neq. lia.
Qed.

Lemma split_on_digits (p : jsstring) :
  forallb is_digit p = true -> split_on 45 p = [p].
Proof.
  induction p as [|c p IH]; [reflexivity|]. simpl. intros H.
  apply andb_true_iff in H. destruct H as [Hc Hp].
  rewrite (is_digit_not_dash c Hc), (IH Hp). reflexivity.
Qed.

Lemma split_on_digits_dash (p rest : jsstring) :
  forallb is_digit p = true ->
  split_on 45 (p ++ 45%N :: rest) = p :: split_on 45 rest.
Proof.
  induction p as [|c p IH]; [reflexivity|]. simpl. intros H.
  apply andb_true_iff in H. destruct H as [Hc Hp].
  rewrite (is_digit_not_dash c Hc), (IH Hp). reflexivity.
Qed.

Lemma digits_value_read (w : nat) (acc : Z) (s : jsstring) (a : Z) :
  read_digits w acc s = Some (a, []) -> digits_value acc s = a.
Proof.
  revert acc s. induction w as [|w IH]; intros acc s H.
  - simpl in H. injection H as -> ->. reflexivity.
  - destruct s as [|c s]; [discriminate H|]. simpl in H |- *.
    destruct (is_digit c); [|discriminate H]. apply IH. exact H.
Qed.

Ltac parseInt10_digit :=
  unfold parseInt10; cbn [trim_start];
  match goal with
  | |- context [is_white_space ?k] => change (is_white_space k) with false
  end;
  cbv beta iota zeta;
  match goal with
  | |- context [is_digit ?k] => change (is_digit k) with true
  end;
  cbv iota; rewrite Z.mul_1_l; reflexivity.

Lemma parseInt10_digit_head (c : N) (r : jsstring) :
  is_digit c = true -> parseInt10 (c :: r) = Int (digits_value 0 (c :: r)).
Proof.
  intros H.
  assert (Hc : (c = 48 \/ c = 49 \/ c = 50 \/ c = 51 \/ c = 52 \/ c = 53 \/
                c = 54 \/ c = 55 \/ c = 56 \/ c = 57)%N).
  { unfold is_digit in H. apply andb_true_iff in H. destruct H as [H1 H2].
    apply N.leb_le in H1. apply N.leb_le in H2. lia. }
  repeat (destruct Hc as [-> | Hc]; [parseInt10_digit|]).
  subst c. parseInt10_digit.
Qed.

Lemma parseInt10_pad_digits (w : nat) (v : Z) :
  0 <= v < 10 ^ Z.of_nat (S w) ->
  parseInt10 (pad_digits (S w) v) = Int v.
Proof.
  intros Hv.
  pose proof (pad_digits_digits (S w) v) as Hd.
  pose proof (read_pad_digits (S w) v 0 [] Hv) as Hr.
  rewrite app_nil_r in Hr.
  apply digits_value_read in Hr.
  destruct (pad_digits (S w) v) as [|c r] eqn:E.
  - destruct (pad_digits_head w v []) as (c & r & Hcr & _); [lia|].
    rewrite app_nil_r, E in Hcr. discriminate Hcr.
  - simpl in Hd. apply andb_true_iff in Hd. destruct Hd as [Hc _].
    rewrite (parseInt10_digit_head c r Hc), Hr. f_equal; lia.
Qed.

(** When a todo is overdue on a host at a fixed offset from UTC. *)
Lemma isOverdue_fixed_offset (host : Host) (offset now due : Z) :
  fixed_offset host offset ->
  Z.abs (UTC host (MakeDate (Day (LocalTime host due)) (MakeTime 23 59 59 999)))
    <= 8640000000000000 ->
  isOverdue (calculateTimeRemaining host now (mkDate (Int due))) =
    (Day (LocalTime host due) <? Day (LocalTime host now)).
Proof.
  intros Hoff Hvalid.
  rewrite (calculateTimeRemaining_value host now due Hvalid).
  cbn [isOverdue].
  unfold UTC, LocalTime. rewrite !Hoff.
  unfold MakeDate, MakeTime, Day, msPerDay.
  destruct (Z.ltb_spec ((due + offset) / 86400000) ((now + offset) / 86400000));
    [apply Z.ltb_lt | apply Z.ltb_ge]; zdiv.
Qed.

(** X19.  The due date of a submitted form.  On a host at a fixed
    offset from UTC (of at most a day), a form whose date field reads
    YYYY-MM-DD, for a day that exists, gives the new record the due date
    that is local midnight of that day: its local year, month and day
    are those of the field, and the todo is overdue exactly when the
    local day of the clock is later.  A year from 0000 to 0099 is read
    as 1900 + year. *)
Theorem handleSubmit_due_date (host : Host) (offset : Z) (newId : jsstring)
    (now : Z) (text' cat : jsstring) (y m d : Z) (prev : list Todo) :
  fixed_offset host offset ->
  Z.abs offset <= msPerDay ->
  trim text' <> [] ->
  0 <= y <= 9999 ->
  1 <= m <= 12 ->
  let yr := if y <=? 99 then 1900 + y else y in
  1 <= d <= DaysInMonth yr (m - 1) ->
  let form :=
    mkForm text'
      (pad_digits 4 y ++ lit "-" ++ pad_digits 2 m ++ lit "-" ++ pad_digits 2 d)
      cat in
  exists t due,
    handleSubmit host (addTodo newId now) form prev = (mkForm [] [] [], t :: prev) /\
    dueDate t = Some (mkDate (Int due)) /\
    YearFromTime (LocalTime host due) = yr /\
    MonthFromTime (LocalTime host due) = m - 1 /\
    DateFromTime (LocalTime host due) = d /\
    TimeWithinDay (LocalTime host due) = 0 /\
    (forall clock,
       isOverdue (calculateTimeRemaining host clock (mkDate (Int due))) = true <->
       Day (LocalTime host due) < Day (LocalTime host clock)).
Proof.
  intros Hoff Hbound Htext Hy Hm yr Hd form.
  assert (Hyr : 100 <= yr <= 9999).
  { unfold yr. destruct (Z.leb_spec y 99); lia. }
  assert (Hdmax : d <= 31).
  { unfold DaysInMonth in Hd. cbn zeta in Hd.
    pose proof (DaysInYear_cases yr) as Hleap.
    assert (Hmonths : m - 1 = 0 \/ m - 1 = 1 \/ m - 1 = 2 \/ m - 1 = 3 \/
                      m - 1 = 4 \/ m - 1 = 5 \/ m - 1 = 6 \/ m - 1 = 7 \/
                      m - 1 = 8 \/ m - 1 = 9 \/ m - 1 = 10 \/ m - 1 = 11) by lia.
    set (leap := DaysInYear yr - 365) in *.
    assert (Hl : leap = 0 \/ leap = 1) by lia.
    clearbody leap. set (m' := m - 1) in *. clearbody m'.
    destruct Hl as [-> | ->];
      repeat (destruct Hmonths as [-> | Hmonths]; [simpl in Hd; lia|]);
      subst m'; simpl in Hd; lia. }
  destruct (MakeDay_fields yr (m - 1) d 0) as (HDay & HTime & Hrg & HY & HM & HD);
    [lia|exact Hd|unfold msPerDay; lia|].
  set (finalDate := MakeDate (MakeDay yr (m - 1) d) 0) in *.
  assert (Hfinal : Z.abs finalDate <= 8640000000000000 - 2 * msPerDay).
  { pose proof (DayFromYear_lower yr). pose proof (DayFromYear_upper (yr + 1)).
    unfold finalDate, MakeDate, msPerDay in *. lia. }
  assert (Hparts : map parseInt10 (split_on 45 (form_dueDate form))
                   = [Int y; Int m; Int d]).
  { unfold form. cbn [form_dueDate]. change (lit "-") with [45%N].
    cbn [app].
    rewrite split_on_digits_dash by apply pad_digits_digits.
    rewrite split_on_digits_dash by apply pad_digits_digits.
    rewrite split_on_digits by apply pad_digits_digits.
    cbn [map].
    rewrite (parseInt10_pad_digits 3 y) by (change (10 ^ Z.of_nat 4) with 10000; lia).
    rewrite (parseInt10_pad_digits 1 m) by (change (10 ^ Z.of_nat 2) with 100; lia).
    rewrite (parseInt10_pad_digits 1 d) by (change (10 ^ Z.of_nat 2) with 100; lia).
    reflexivity. }
  assert (Hdue : truthy_str (form_dueDate form) = true).
  { unfold form. cbn [form_dueDate].
    destruct (pad_digits_head 3 y
                (lit "-" ++ pad_digits 2 m ++ lit "-" ++ pad_digits 2 d))
      as (c & r & -> & _); [lia|reflexivity]. }
  assert (Hl : forall t, LocalTime host t = t + offset).
  { intros t. unfold LocalTime. rewrite Hoff. reflexivity. }
  assert (Hdate : Date_ymd host (Int y) (num_sub (Int m) (Int 1)) (Int d)
                  = mkDate (Int (finalDate - offset))).
  { unfold Date_ymd, num_sub.
    replace (if (0 <=? y) && (y <=? 99) then 1900 + y else y) with yr.
    2:{ unfold yr. destruct (Z.leb_spec 0 y); [reflexivity|lia]. }
    change (MakeTime 0 0 0 0) with 0. fold finalDate.
    unfold UTC. rewrite Hoff. unfold TimeClip.
    destruct (Z.ltb_spec 8640000000000000 (Z.abs (finalDate - offset)));
      [unfold msPerDay in *; lia|reflexivity]. }
  unfold handleSubmit. rewrite Hdue, Hparts.
  cbn [nth]. rewrite Hdate.
  destruct (trim (form_text form)) as [|c0 tx] eqn:Et;
    [unfold form in Et; cbn [form_text] in Et; congruence|].
  cbn [truthy_str].
  eexists. exists (finalDate - offset).
  split; [reflexivity|].
  unfold addTodo. cbn [dueDate].
  split; [reflexivity|].
  rewrite Hl. replace (finalDate - offset + offset) with finalDate by lia.
  split; [exact HY|]. split; [exact HM|]. split; [exact HD|].
  split; [exact HTime|].
  intros clock.
  rewrite (isOverdue_fixed_offset host offset clock (finalDate - offset) Hoff).
  - rewrite Z.ltb_lt, !Hl.
    replace (finalDate - offset + offset) with finalDate by lia. reflexivity.
  - rewrite Hl. replace (finalDate - offset + offset) with finalDate by lia.
    unfold UTC. rewrite Hoff. rewrite HDay.
    unfold finalDate, MakeDate, MakeTime, msPerDay in *. lia.
Qed.

(** X19, witness: 25 December 2025 in the UTC time zone. *)
Lemma handleSubmit_due_date_witness :
  let form := mkForm (lit "Buy milk") (lit "2025-12-25") [] in
  exists t due,
    handleSubmit utc_host (addTodo (lit "k3x9") 0) form []
      = (mkForm [] [] [], [t]) /\
    dueDate t = Some (mkDate (Int due)) /\
    YearFromTime (LocalTime utc_host due) = 2025 /\
    MonthFromTime (LocalTime utc_host due) = 11 /\
    DateFromTime (LocalTime utc_host due) = 25 /\
    TimeWithinDay (LocalTime utc_host due) = 0 /\
    (forall clock,
       isOverdue (calculateTimeRemaining utc_host clock (mkDate (Int due))) = true <->
       Day (LocalTime utc_host due) < Day (LocalTime utc_host clock)).
Proof.
  exact (handleSubmit_due_date utc_host 0 (lit "k3x9") 0 (lit "Buy milk") []
           2025 12 25 []
           (fun t isUTC => eq_refl)
           ltac:(vm_compute; discriminate)
           ltac:(vm_compute; discriminate)
           ltac:(lia) ltac:(lia)
           ltac:(vm_compute; split; discriminate)).
Defined.

(** ** Sessions of the hook *)

Lemma save_effect_invariant (host : Host) (h : Hook) (w : World) :
  isFirstRender (fst (save_effect host h w)) = false /\
  todos (fst (save_effect host h w)) = todos h /\
  quota (snd (save_effect host h w)) = quota w.
Proof.
  unfold save_effect. destruct (isFirstRender h) eqn:E.
  - repeat split.
  - unfold setItem. destruct (quota w) as [q|] eqn:Eq.
    + destruct (length (JSON_stringify host (todos h)) <=? q)%nat;
        simpl; rewrite ?E; repeat split; exact Eq.
    + simpl. rewrite E. repeat split.
Qed.

Lemma mount_invariant (host : Host) (w : World) :
  isFirstRender (fst (mount host w)) = false /\
  quota (snd (mount host w)) = quota w.
Proof.
  unfold mount, load_effect.
  destruct (stored w) as [text'|]; [|split; reflexivity].
  destruct (truthy_str text'); [|split; reflexivity].
  destruct (parse_todos host text') as [os|]; [|split; reflexivity].
  cbn [save_effect isFirstRender todos]. unfold commit.
  destruct (save_effect_invariant host (mkHook os true false) w) as (H1 & _ & H2).
  split; assumption.
Qed.

Lemma dispatch_all_sync (host : Host) (updaters : list (list object -> list object))
    (h : Hook) (w : World) :
  isFirstRender h = false -> quota w = None ->
  let h' := fst (dispatch_all host updaters h w) in
  let w' := snd (dispatch_all host updaters h w) in
  todos h' = fold_left (fun l updater => updater l) updaters (todos h) /\
  isFirstRender h' = false /\ quota w' = None /\
  (updaters <> [] ->
   stored w' = Some (JSON_stringify host (todos h')) /\
   hd_error (trace w') = Some (SetItem STORAGE_KEY (JSON_stringify host (todos h')))) /\
  length (trace w') = (length updaters + length (trace w))%nat.
Proof.
  revert h w. induction updaters as [|u us IH]; intros h w Hf Hq.
  - cbn zeta. cbn [dispatch_all fst snd fold_left length].
    split; [reflexivity|]. split; [exact Hf|]. split; [exact Hq|].
    split; [congruence|reflexivity].
  - cbn zeta. cbn [dispatch_all].
    rewrite (dispatch_writes host u h w Hf Hq).
    set (h1 := mkHook (u (todos h)) (isInitialized h) false).
    set (w1 := mkWorld (Some (JSON_stringify host (u (todos h)))) None
                 (SetItem STORAGE_KEY (JSON_stringify host (u (todos h))) :: trace w)).
    specialize (IH h1 w1 eq_refl eq_refl). cbn zeta in IH.
    destruct IH as (IH1 & IH2 & IH3 & IH4 & IH5).
    split; [exact IH1|]. split; [exact IH2|]. split; [exact IH3|].
    split.
    + intros _. destruct us as [|u' us'].
      * simpl. split; reflexivity.
      * apply IH4. discriminate.
    + rewrite IH5. simpl. lia.
Qed.

(** X20.  Storage follows the session: after mounting on any stored
    value and any sequence of updates, with storage that accepts every
    value, the collection is the result of the updates applied in turn
    to the mounted collection, and once there was an update, the stored
    text is the serialization of the current collection, written by the
    latest event; each update makes exactly one event. *)
Theorem storage_follows_session (host : Host)
    (updaters : list (list object -> list object)) (w : World) :
  quota w = None ->
  let h0 := fst (mount host w) in
  let w0 := snd (mount host w) in
  let h := fst (dispatch_all host updaters h0 w0) in
  let w' := snd (dispatch_all host updaters h0 w0) in
  todos h = fold_left (fun l updater => updater l) updaters (todos h0) /\
  (updaters <> [] ->
   stored w' = Some (JSON_stringify host (todos h)) /\
   hd_error (trace w') = Some (SetItem STORAGE_KEY (JSON_stringify host (todos h)))) /\
  length (trace w') = (length updaters + length (trace w0))%nat.
Proof.
  intros Hq h0 w0 h w'.
  destruct (mount_invariant host w) as [Hf Hq0]. rewrite Hq in Hq0.
  destruct (dispatch_all_sync host updaters h0 w0 Hf Hq0)
    as (H1 & _ & _ & H4 & H5).
  split; [exact H1|]. split; [exact H4|exact H5].
Qed.

(** X20, witness: nothing stored, then two updates. *)
Lemma storage_follows_session_witness :
  let o := [(lit "id", VJson (JStr (lit "1")))] in
  let updaters := [(fun prev => o :: prev); (fun prev => o :: prev)] in
  let w := mkWorld None None [] in
  let h0 := fst (mount utc_host w) in
  let w0 := snd (mount utc_host w) in
  let h := fst (dispatch_all utc_host updaters h0 w0) in
  let w' := snd (dispatch_all utc_host updaters h0 w0) in
  todos h = fold_left (fun l updater => updater l) updaters (todos h0) /\
  (updaters <> [] ->
   stored w' = Some (JSON_stringify utc_host (todos h)) /\
   hd_error (trace w') = Some (SetItem STORAGE_KEY (JSON_stringify utc_host (todos h)))) /\
  length (trace w') = (length updaters + length (trace w0))%nat.
Proof.
  intros o updaters w.
  exact (storage_follows_session utc_host updaters w eq_refl).
Defined.

(** X21.  A session survives a reload: when an update leaves a
    collection of records with valid dates and storage accepts it,
    mounting the hook again on what was stored installs that collection,
    every record with its fields and with dates for [createdAt] and
    [dueDate], and reports no error. *)
Theorem reload_restores_collection (host : Host) (l : list Todo)
    (updater : list object -> list object) (h : Hook) (w : World) :
  Forall valid_dates l ->
  isFirstRender h = false ->
  quota w = None ->
  updater (todos h) = map Todo_object l ->
  let w1 := snd (dispatch host updater h w) in
  let reloaded := mount host (mkWorld (stored w1) (quota w1) []) in
  map as_Todo (todos (fst reloaded)) = map Some l /\
  (forall message, ~ In (ConsoleError message) (trace (snd reloaded))).
Proof.
  intros Hvalid Hf Hq Hu w1 reloaded.
  unfold reloaded, w1. rewrite (dispatch_writes host updater h w Hf Hq).
  cbn [snd stored quota]. rewrite Hu.
  destruct (parse_todos_stringify host l Hvalid) as (os & Hparse & Hos).
  rewrite (mount_loaded host
             (mkWorld (Some (JSON_stringify host (map Todo_object l))) None [])
             (JSON_stringify host (map Todo_object l)) os eq_refl Hparse).
  unfold save_effect. cbn [isFirstRender todos setItem quota].
  unfold setItem. cbn [quota fst snd todos trace].
  split; [exact Hos|].
  intros message [H|[]]. discriminate H.
Qed.

(** X21, witness: one record with a due date and a category. *)
Lemma reload_restores_collection_witness :
  let t := mkTodo (lit "1") (lit "Buy milk") false (mkDate (Int 1735732800000))
             (Some (mkDate (Int 1735689600000))) (Some (lit "shopping")) in
  let w1 := snd (dispatch utc_host (fun _ => map Todo_object [t])
                   (mkHook [] true false) (mkWorld None None [])) in
  let reloaded := mount utc_host (mkWorld (stored w1) (quota w1) []) in
  map as_Todo (todos (fst reloaded)) = map Some [t] /\
  (forall message, ~ In (ConsoleError message) (trace (snd reloaded))).
Proof.
  intros t.
  assert (Hv : Forall valid_dates [t]).
  { constructor; [|constructor]. split.
    - exists 1735732800000. split; [reflexivity|]. vm_compute. discriminate.
    - exists 1735689600000. split; [reflexivity|]. vm_compute. discriminate. }
  exact (reload_restores_collection utc_host [t] (fun _ => map Todo_object [t])
           (mkHook [] true false) (mkWorld None None []) Hv eq_refl eq_refl eq_refl).
Defined.

(** X22.  A failed write: when storage refuses the new text (it is
    longer than the quota), the update still takes place in memory, the
    stored value is left as it was, no [setItem] is recorded and the
    failure is reported once on the console. *)
Theorem save_failure_keeps_state (host : Host)
    (updater : list object -> list object) (h : Hook) (w : World) (q : nat) :
  isFirstRender h = false ->
  quota w = Some q ->
  (q < length (JSON_stringify host (updater (todos h))))%nat ->
  let h' := fst (dispatch host updater h w) in
  let w' := snd (dispatch host updater h w) in
  todos h' = updater (todos h) /\
  stored w' = stored w /\
  trace w' = ConsoleError (lit "Failed to save todos to localStorage:") :: trace w.
Proof.
  intros Hf Hq Hlen. cbn zeta.
  unfold dispatch, commit, save_effect. cbn [isFirstRender todos].
  rewrite Hf. unfold setItem. rewrite Hq.
  destruct (Nat.leb_spec (length (JSON_stringify host (updater (todos h)))) q);
    [lia|].
  repeat split.
Qed.

(** X22, witness: storage that accepts one character. *)
Lemma save_failure_keeps_state_witness :
  let o := [(lit "id", VJson (JStr (lit "1")))] in
  let h := mkHook [] true false in
  let w := mkWorld (Some (lit "[]")) (Some 1%nat) [] in
  let h' := fst (dispatch utc_host (fun prev => o :: prev) h w) in
  let w' := snd (dispatch utc_host (fun prev => o :: prev) h w) in
  todos h' = [o] /\
  stored w' = Some (lit "[]") /\
  trace w' = [ConsoleError (lit "Failed to save todos to localStorage:")].
Proof.
  intros o h w.
  exact (save_failure_keeps_state utc_host (fun prev => o :: prev) h w 1
           eq_refl eq_refl ltac:(vm_compute; lia)).
Defined.

(** X23.  Nothing stored: when the key is missing, or holds the empty
    string, mounting leaves the world as it is (no write, no report) and
    the collection empty; the first update then writes, the empty
    collection included. *)
Theorem mount_nothing_stored (host : Host) (w : World)
    (updater : list object -> list object) :
  stored w = None \/ stored w = Some [] ->
  mount host w = (mkHook [] true false, w) /\
  (quota w = None ->
   stored (snd (dispatch host updater (fst (mount host w)) (snd (mount host w))))
     = Some (JSON_stringify host (updater []))).
Proof.
  intros Hs.
  assert (Hm : mount host w = (mkHook [] true false, w)).
  { unfold mount, load_effect. destruct Hs as [-> | ->]; reflexivity. }
  split; [exact Hm|].
  intros Hq. rewrite Hm. cbn [fst snd].
  rewrite (dispatch_writes host updater (mkHook [] true false) w eq_refl Hq).
  reflexivity.
Qed.

(** X23, witness: the key is missing. *)
Lemma mount_nothing_stored_witness :
  mount utc_host (mkWorld None None []) = (mkHook [] true false, mkWorld None None []).
Proof.
  exact (proj1 (mount_nothing_stored utc_host (mkWorld None None []) (fun l => l)
                  (or_introl eq_refl))).
Defined.

Lemma map_revive_null (host : Host) (items : list json) :
  In JNull items -> map_revive host items = None.
Proof.
  induction items as [|j items IH]; intros Hin; [destruct Hin|].
  simpl. destruct Hin as [-> | Hin]; [reflexivity|].
  destruct (revive host j); [|reflexivity].
  rewrite (IH Hin). reflexivity.
Qed.

(** X24.  A [null] among the stored records: when the stored text
    parses to an array one of whose elements is [null], the load reads a
    property of [null], the error is caught and reported once, no record
    of the array is installed (the collection is empty) and the stored
    text is left as it is. *)
Theorem load_null_element (host : Host) (w : World) (text' : jsstring)
    (items : list json) :
  stored w = Some text' ->
  JSON_parse text' = Some (JArr items) ->
  In JNull items ->
  mount host w =
    (mkHook [] true false,
     mkWorld (stored w) (quota w)
       (ConsoleError (lit "Failed to load todos from localStorage:") :: trace w)).
Proof.
  intros Hs Hp Hin.
  assert (Hne : truthy_str text' = true).
  { destruct text'; [vm_compute in Hp; discriminate Hp|reflexivity]. }
  assert (Hl : load_effect host w =
               (None, console_error (lit "Failed to load todos from localStorage:") w)).
  { unfold load_effect. rewrite Hs, Hne.
    unfold parse_todos. rewrite Hp, (map_revive_null host items Hin).
    reflexivity. }
  rewrite mount_not_loaded; rewrite Hl; reflexivity.
Qed.

(** X24, witness: a record followed by [null]. *)
Lemma load_null_element_witness :
  let text' := quoted_lit "[{'id':'1','text':'Buy milk'},null]" in
  mount utc_host (mkWorld (Some text') None []) =
    (mkHook [] true false,
     mkWorld (Some text') None
       [ConsoleError (lit "Failed to load todos from localStorage:")]).
Proof.
  intros text'.
  exact (load_null_element utc_host (mkWorld (Some text') None []) text'
           [JObj [(lit "id", JStr (lit "1")); (lit "text", JStr (lit "Buy milk"))];
            JNull]
           eq_refl ltac:(vm_compute; reflexivity) (or_intror (or_introl eq_refl))).
Defined.

Lemma obj_get_replace {A : Type} (k k' : jsstring) (v : A)
    (o o' : list (jsstring * A)) :
  obj_replace k v o = Some o' ->
  obj_get k' o' = if str_eqb k k' then Some v else obj_get k' o.
Proof.
  revert o'. induction o as [|[k0 v0] o IH]; intros o' H; [discriminate H|].
  simpl in H. destruct (str_eqb k0 k) eqn:E0.
  - injection H as <-. apply str_eqb_eq in E0. subst k0. simpl.
    destruct (str_eqb k k'); reflexivity.
  - destruct (obj_replace k v o) as [o''|]; [|discriminate H].
    injection H as <-. simpl. rewrite (IH o'' eq_refl).
    destruct (str_eqb k0 k') eqn:E1; [|reflexivity].
    apply str_eqb_eq in E1. subst k0.
    destruct (str_eqb k k') eqn:E2; [|reflexivity].
    apply str_eqb_eq in E2. subst k'. rewrite str_eqb_refl in E0.
    discriminate E0.
Qed.

Lemma obj_get_append {A : Type} (k k' : jsstring) (v : A) (o : list (jsstring * A)) :
  obj_replace k v o = None ->
  obj_get k' (o ++ [(k, v)]) = if str_eqb k k' then Some v else obj_get k' o.
Proof.
  induction o as [|[k0 v0] o IH]; intros H.
  - simpl. destruct (str_eqb k k'); reflexivity.
  - simpl in H. destruct (str_eqb k0 k) eqn:E0; [discriminate H|].
    destruct (obj_replace k v o) as [o''|]; [discriminate H|].
    simpl. rewrite (IH eq_refl).
    destruct (str_eqb k0 k') eqn:E1; [|reflexivity].
    apply str_eqb_eq in E1. subst k0. apply str_eqb_neq in E0.
    replace (str_eqb k k') with false; [reflexivity|].
    symmetry. apply str_eqb_neq. congruence.
Qed.

Lemma obj_get_set (k k' : jsstring) (v : value) (o : object) :
  obj_get k' (obj_set k v o) = if str_eqb k k' then Some v else obj_get k' o.
Proof.
  unfold obj_set. destruct (obj_replace k v o) as [o'|] eqn:E.
  - apply (obj_get_replace k k' v o o' E).
  - apply obj_get_append. exact E.
Qed.

Lemma obj_get_spread (k : jsstring) (props : list (jsstring * json)) :
  obj_get k (spread (JObj props)) = option_map VJson (obj_get k props).
Proof.
  simpl. induction props as [|[k0 v0] props IH]; [reflexivity|].
  simpl. destruct (str_eqb k0 k); [reflexivity|exact IH].
Qed.

(** What the callback of the load effect makes of an object whose two
    date fields are plain. *)
Lemma revive_object (host : Host) (props : list (jsstring * json)) :
  date_field_plain (obj_get (lit "createdAt") props) = true ->
  date_field_plain (obj_get (lit "dueDate") props) = true ->
  exists o created,
    revive host (JObj props) = Some o /\
    obj_get (lit "createdAt") o = Some (VDate created) /\
    (obj_get (lit "createdAt") props = None -> created = InvalidDate) /\
    (obj_get (lit "dueDate") o = Some VUndefined \/
     exists d, obj_get (lit "dueDate") o = Some (VDate d)) /\
    (forall k, k <> lit "createdAt" -> k <> lit "dueDate" ->
               obj_get k o = option_map VJson (obj_get k props)).
Proof.
  intros Hc Hd. unfold revive. cbn [get_field].
  assert (Hcreated : exists created,
            Date_new host (obj_get (lit "createdAt") props) = Some created /\
            (obj_get (lit "createdAt") props = None -> created = InvalidDate)).
  { destruct (obj_get (lit "createdAt") props) as [[| | | | |]|];
      try discriminate Hc; simpl; eexists; (split; [reflexivity|]);
      intros H; try discriminate H; reflexivity. }
  destruct Hcreated as (created & -> & Hinv).
  assert (Hdue : exists due,
            (if truthy host (obj_get (lit "dueDate") props)
             then option_map VDate (Date_new host (obj_get (lit "dueDate") props))
             else Some VUndefined) = Some due /\
            (due = VUndefined \/ exists d, due = VDate d)).
  { destruct (obj_get (lit "dueDate") props) as [[|b| |s| |]|];
      try discriminate Hd; simpl.
    - eexists; split; [reflexivity|left; reflexivity].
    - destruct b; eexists; (split; [reflexivity|]);
        [right; eexists; reflexivity | left; reflexivity].
    - destruct (truthy_str s); eexists; (split; [reflexivity|]);
        [right; eexists; reflexivity | left; reflexivity].
    - eexists; split; [reflexivity|left; reflexivity]. }
  destruct Hdue as (due & -> & Hdue).
  eexists. exists created. split; [reflexivity|].
  split; [|split; [exact Hinv|split]].
  - rewrite !obj_get_set. reflexivity.
  - rewrite obj_get_set, str_eqb_refl.
    destruct Hdue as [-> | [d ->]]; [left; reflexivity|right; exists d; reflexivity].
  - intros k Hk1 Hk2. rewrite !obj_get_set.
    replace (str_eqb (lit "dueDate") k) with false
      by (symmetry; apply str_eqb_neq; congruence).
    replace (str_eqb (lit "createdAt") k) with false
      by (symmetry; apply str_eqb_neq; congruence).
    apply obj_get_spread.
Qed.

(** X25.  The load checks no record.  When the stored text parses to an
    array of objects whose [createdAt] and [dueDate] fields are absent,
    [null], booleans or strings, every object is installed, in order and
    whatever its fields: [createdAt] becomes a date (the invalid date
    when the field is absent), [dueDate] a date or [undefined], every
    other field is kept as parsed, and the load reports nothing. *)
Theorem load_checks_no_record (host : Host) (w : World) (text' : jsstring)
    (items : list json) :
  stored w = Some text' ->
  JSON_parse text' = Some (JArr items) ->
  Forall (fun j => exists props,
            j = JObj props /\
            date_field_plain (obj_get (lit "createdAt") props) = true /\
            date_field_plain (obj_get (lit "dueDate") props) = true) items ->
  snd (load_effect host w) = w /\
  Forall2 (fun j o =>
             exists props created,
               j = JObj props /\
               obj_get (lit "createdAt") o = Some (VDate created) /\
               (obj_get (lit "createdAt") props = None -> created = InvalidDate) /\
               (obj_get (lit "dueDate") o = Some VUndefined \/
                exists d, obj_get (lit "dueDate") o = Some (VDate d)) /\
               (forall k, k <> lit "createdAt" -> k <> lit "dueDate" ->
                          obj_get k o = option_map VJson (obj_get k props)))
          items (todos (fst (mount host w))).
Proof.
  intros Hs Hp Hitems.
  assert (Hne : truthy_str text' = true).
  { destruct text'; [vm_compute in Hp; discriminate Hp|reflexivity]. }
  assert (Hrev : exists os,
            map_revive host items = Some os /\
            Forall2 (fun j o =>
               exists props created,
                 j = JObj props /\
                 obj_get (lit "createdAt") o = Some (VDate created) /\
                 (obj_get (lit "createdAt") props = None -> created = InvalidDate) /\
                 (obj_get (lit "dueDate") o = Some VUndefined \/
                  exists d, obj_get (lit "dueDate") o = Some (VDate d)) /\
                 (forall k, k <> lit "createdAt" -> k <> lit "dueDate" ->
                            obj_get k o = option_map VJson (obj_get k props)))
              items os).
  { clear Hp. induction Hitems as [|j items Hj _ IH'].
    - exists []. split; [reflexivity|constructor].
    - destruct Hj as (props & -> & Hc & Hd).
      destruct IH' as (os & Hos & IH).
      destruct (revive_object host props Hc Hd)
        as (o & created & Ho & H1 & H2 & H3 & H4).
      exists (o :: os). split.
      + cbn [map_revive]. rewrite Ho, Hos. reflexivity.
      + constructor; [|exact IH].
        exists props, created. repeat split; assumption. }
  destruct Hrev as (os & Hos & Hall).
  assert (Hparse : parse_todos host text' = Some os).
  { unfold parse_todos. rewrite Hp. exact Hos. }
  split.
  - unfold load_effect. rewrite Hs, Hne, Hparse. reflexivity.
  - rewrite (mount_loaded host w text' os Hs Hparse).
    destruct (save_effect_invariant host (mkHook os true false) w) as (_ & -> & _).
    exact Hall.
Qed.

(** X25, witness: a record with neither [createdAt] nor [completed]. *)
Lemma load_checks_no_record_witness :
  let text' := quoted_lit "[{'id':'1','text':'Buy milk'}]" in
  let w := mkWorld (Some text') None [] in
  let items := [JObj [(lit "id", JStr (lit "1")); (lit "text", JStr (lit "Buy milk"))]] in
  snd (load_effect utc_host w) = w /\
  Forall2 (fun j o =>
             exists props created,
               j = JObj props /\
               obj_get (lit "createdAt") o = Some (VDate created) /\
               (obj_get (lit "createdAt") props = None -> created = InvalidDate) /\
               (obj_get (lit "dueDate") o = Some VUndefined \/
                exists d, obj_get (lit "dueDate") o = Some (VDate d)) /\
               (forall k, k <> lit "createdAt" -> k <> lit "dueDate" ->
                          obj_get k o = option_map VJson (obj_get k props)))
          items (todos (fst (mount utc_host w))).
Proof.
  intros text' w items.
  assert (Hitems : Forall (fun j => exists props,
            j = JObj props /\
            date_field_plain (obj_get (lit "createdAt") props) = true /\
            date_field_plain (obj_get (lit "dueDate") props) = true) items).
  { constructor; [|constructor]. eexists. split; [reflexivity|].
    split; reflexivity. }
  exact (load_checks_no_record utc_host w text' items eq_refl
           ltac:(vm_compute; reflexivity) Hitems).
Defined.
